(** * VibeCast billing: credit ledger, usage metering and subscriptions

    A shallow embedding of the billing mutations of [convex/billing.ts]
    (createSubscription, updateSubscriptionStatus, cancelSubscription,
    addCredits, deductCredits, allocateMonthlyCredits, recordUsage), of
    the Stripe webhook, of [convex/apiIntegrations.ts] and of the tables
    of [convex/schema.ts] they read and write.

    Modelling conventions.
    - A table is the list of its documents in creation order.  No modelled
      billing mutation deletes a document, so a document's [_id] is its
      position in the table: [ctx.db.insert] appends and returns the old
      length, [ctx.db.get] is list lookup, [ctx.db.patch] rewrites one
      position.
    - A handler is a function from the database to an outcome and the
      database as the handler's writes left it.  A thrown error carries
      the database at the point of the throw, so that what a handler wrote
      before throwing can be stated.  Convex runs a mutation as one
      transaction: [mutation handler] is the handler with the writes of a
      run that throws undone.
    - [Date.now()] is an argument of the handler that reads it.
    - Numbers.  [v.number()] is an IEEE 754 binary64 value.  The first
      model of the ledger computes credits in [Z]; that is the code on
      integer amounts as long as no total leaves the range in which
      binary64 is exact.  The second model, [Binary64], computes the
      same two ledger mutations on binary64 numbers.  The two are related
      by [run_ops_represented]: on integer amounts whose absolute values
      add up to less than 2^53 every number the code stores is the
      integer the first model stores.  Statements that depend on sums
      being exact are made on [Binary64].  Timestamps are [Date.now()]
      readings, integers well inside the exact range, and stay in [Z]. *)

From stdpp Require Import base option list gmap strings pretty.
From Stdlib Require Import ZArith Lia Sorted Permutation SpecFloat.

Local Open Scope string_scope.
Local Open Scope list_scope.
Local Open Scope Z_scope.

(** ** Schema *)

(** Document ids.  A document's id is its position in its table. *)
Abbreviation Id := nat.

Inductive SubscriptionStatus :=
  | active | cancelled | past_due | trialing | paused.

Inductive BillingPeriod := monthly | yearly.

Inductive AllocationType :=
  | alloc_purchase | alloc_monthly_allocation | alloc_bonus | alloc_refund.

Inductive TransactionType :=
  | purchase | monthly_allocation | bonus | refund | usage_deduction | rollover.

Inductive ResourceType :=
  | llm_tokens | api_call | storage | deployment | data_source_query.

Global Instance SubscriptionStatus_eq_dec : EqDecision SubscriptionStatus.
Proof. solve_decision. Defined.

(** Values stored under [v.any()] metadata keys. *)
Inductive JsValue :=
  | JsBool (b : bool)
  | JsNumber (z : Z)
  | JsString (s : string).

(** A metadata object; [None] is [undefined]. *)
Abbreviation Metadata := (option (gmap string JsValue)).

Record Plan := {
  displayName : string;
  monthlyCredits : Z;
  rolloverCredits : bool;
  maxRolloverCredits : option Z;
}.

Record Subscription := {
  sub_memberId : Id;
  sub_planId : Id;
  sub_status : SubscriptionStatus;
  sub_billingPeriod : BillingPeriod;
  sub_currentPeriodStart : Z;
  sub_currentPeriodEnd : Z;
  sub_cancelAtPeriodEnd : bool;
  sub_stripeSubscriptionId : option string;
  sub_stripeCustomerId : option string;
  sub_trialStart : option Z;
  sub_trialEnd : option Z;
  sub_createdAt : Z;
  sub_updatedAt : Z;
}.

Record CreditBalance := {
  cb_memberId : Id;
  balance : Z;
  lifetimeEarned : Z;
  lifetimeSpent : Z;
  lastResetAt : Z;
  cb_updatedAt : Z;
}.

Record CreditTransaction := {
  tx_memberId : Id;
  tx_amount : Z;
  balanceAfter : Z;
  tx_type : TransactionType;
  tx_description : string;
  tx_subscriptionId : option Id;
  tx_chatId : option Id;
  tx_usageRecordId : option Id;
  tx_metadata : Metadata;
  tx_createdAt : Z;
}.

Record UsageRecord := {
  ur_memberId : Id;
  ur_chatId : option Id;
  ur_resourceType : ResourceType;
  ur_quantity : Z;
  ur_creditCost : Z;
  ur_modelId : option string;
  ur_promptTokens : option Z;
  ur_completionTokens : option Z;
  ur_cachedPromptTokens : option Z;
  ur_apiIntegrationId : option Id;
  ur_metadata : Metadata;
  ur_timestamp : Z;
}.

(** A call handed to [ctx.scheduler.runAfter(0, allocateMonthlyCredits, _)]. *)
Record ScheduledAllocation := {
  sched_memberId : Id;
  sched_subscriptionId : Id;
}.

Record Db := {
  subscriptionPlans : list Plan;
  subscriptions : list Subscription;
  creditBalances : list CreditBalance;
  creditTransactions : list CreditTransaction;
  usageRecords : list UsageRecord;
  scheduled : list ScheduledAllocation;
}.

Definition emptyDb : Db :=
  {| subscriptionPlans := []; subscriptions := []; creditBalances := [];
     creditTransactions := []; usageRecords := []; scheduled := [] |}.

(** ** Errors and the mutation monad *)

Inductive JsError :=
  | Error (message : string)
  | TypeError (message : string).

(** [String(error)] *)
Definition String_of (e : JsError) : string :=
  match e with
  | Error m => "Error: " +:+ m
  | TypeError m => "TypeError: " +:+ m
  end.

Definition InsufficientCredits : JsError := Error "Insufficient credits".
Definition PlanNotFound : JsError := Error "Plan not found".
Definition SubscriptionNotFound : JsError := Error "Subscription not found".

Inductive Outcome (A : Type) :=
  | Returned (a : A)
  | Thrown (e : JsError).
Arguments Returned {A} a.
Arguments Thrown {A} e.

Definition Mutation (A : Type) := Db → Outcome A * Db.

Definition ret {A} (a : A) : Mutation A := λ db, (Returned a, db).

Definition throw {A} (e : JsError) : Mutation A := λ db, (Thrown e, db).

Definition bind {A B} (m : Mutation A) (k : A → Mutation B) : Mutation B :=
  λ db, match m db with
        | (Returned a, db') => k a db'
        | (Thrown e, db') => (Thrown e, db')
        end.

(** [try { m } catch (error) { h error }] *)
Definition try_catch {A} (m : Mutation A) (h : JsError → Mutation A) : Mutation A :=
  λ db, match m db with
        | (Returned a, db') => (Returned a, db')
        | (Thrown e, db') => h e db'
        end.

(** [mutation({ handler })]: Convex runs a mutation as one transaction.
    When the handler returns its writes are committed; when it throws,
    none of them is, and the error reaches the caller. *)
Definition mutation {A} (handler : Mutation A) : Mutation A :=
  λ db, match handler db with
        | (Returned a, db') => (Returned a, db')
        | (Thrown e, _) => (Thrown e, db)
        end.

Notation "'let*' x ':=' m 'in' k" := (bind m (λ x, k))
  (at level 10, x pattern, m at level 100, k at level 200).
Notation "m ';;' k" := (bind m (λ _, k))
  (at level 100, k at level 200, right associativity).

(** ** Database primitives *)

(** A table of the database: how to read its rows and how to replace them. *)
Record Table (A : Type) := {
  rows : Db → list A;
  with_rows : list A → Db → Db;
}.
Arguments rows {A} _ _.
Arguments with_rows {A} _ _ _.

Definition plansT : Table Plan :=
  {| rows := subscriptionPlans;
     with_rows l db :=
       {| subscriptionPlans := l; subscriptions := subscriptions db;
          creditBalances := creditBalances db;
          creditTransactions := creditTransactions db;
          usageRecords := usageRecords db; scheduled := scheduled db |} |}.

Definition subscriptionsT : Table Subscription :=
  {| rows := subscriptions;
     with_rows l db :=
       {| subscriptionPlans := subscriptionPlans db; subscriptions := l;
          creditBalances := creditBalances db;
          creditTransactions := creditTransactions db;
          usageRecords := usageRecords db; scheduled := scheduled db |} |}.

Definition creditBalancesT : Table CreditBalance :=
  {| rows := creditBalances;
     with_rows l db :=
       {| subscriptionPlans := subscriptionPlans db;
          subscriptions := subscriptions db; creditBalances := l;
          creditTransactions := creditTransactions db;
          usageRecords := usageRecords db; scheduled := scheduled db |} |}.

Definition creditTransactionsT : Table CreditTransaction :=
  {| rows := creditTransactions;
     with_rows l db :=
       {| subscriptionPlans := subscriptionPlans db;
          subscriptions := subscriptions db;
          creditBalances := creditBalances db; creditTransactions := l;
          usageRecords := usageRecords db; scheduled := scheduled db |} |}.

Definition usageRecordsT : Table UsageRecord :=
  {| rows := usageRecords;
     with_rows l db :=
       {| subscriptionPlans := subscriptionPlans db;
          subscriptions := subscriptions db;
          creditBalances := creditBalances db;
          creditTransactions := creditTransactions db;
          usageRecords := l; scheduled := scheduled db |} |}.

(** [ctx.db.insert(table, doc)] *)
Definition db_insert {A} (T : Table A) (doc : A) : Mutation Id :=
  λ db, (Returned (length (rows T db)), with_rows T (rows T db ++ [doc]) db).

(** [ctx.db.get(id)] *)
Definition db_get {A} (T : Table A) (id : Id) : Mutation (option A) :=
  λ db, (Returned (rows T db !! id), db).

(** [ctx.db.patch(id, fields)]: [upd] overwrites the patched fields of the
    stored document; patching a missing document throws. *)
Definition db_patch {A} (T : Table A) (id : Id) (upd : A → A) : Mutation unit :=
  λ db, match rows T db !! id with
        | Some doc => (Returned tt, with_rows T (<[id := upd doc]> (rows T db)) db)
        | None => (Thrown (Error "Update on nonexistent document"), db)
        end.

(** [ctx.db.query(table).withIndex(_, q => q.eq(..)).first()]: the oldest
    document satisfying the index equalities, with its [_id]. *)
Definition db_first {A} (T : Table A) (P : A → Prop) `{∀ x, Decision (P x)}
  : Mutation (option (Id * A)) :=
  λ db, (Returned (list_find P (rows T db)), db).

(** [ctx.db.query(table).withIndex(_, q => q.eq(..)).collect()] *)
Definition db_collect {A} (T : Table A) (P : A → Prop) `{∀ x, Decision (P x)}
  : Mutation (list (Id * A)) :=
  λ db, (Returned (filter (λ p, P p.2) (imap pair (rows T db))), db).

(** [ctx.scheduler.runAfter(0, internal.billing.allocateMonthlyCredits, args)] *)
Definition schedule_allocation (memberId subscriptionId : Id) : Mutation unit :=
  λ db, (Returned tt,
         {| subscriptionPlans := subscriptionPlans db;
            subscriptions := subscriptions db;
            creditBalances := creditBalances db;
            creditTransactions := creditTransactions db;
            usageRecords := usageRecords db;
            scheduled := scheduled db ++
              [{| sched_memberId := memberId;
                  sched_subscriptionId := subscriptionId |}] |}).

(** [for (const x of xs) { await body(x) }] *)
Fixpoint for_each {A} (xs : list A) (body : A → Mutation unit) : Mutation unit :=
  match xs with
  | [] => ret tt
  | x :: xs' => body x ;; for_each xs' body
  end.

(** [value!]: the non-null assertion; reading a field of [undefined] throws. *)
Definition non_null {A} (o : option A) : Mutation A :=
  match o with
  | Some a => ret a
  | None => throw (TypeError "Cannot read properties of null")
  end.

(** JavaScript truthiness of a number and of an optional number. *)
Definition truthy (z : Z) : bool := negb (z =? 0).

Definition truthy_opt (o : option Z) : bool :=
  match o with
  | Some z => truthy z
  | None => false
  end.

(** [a || b] on an optional number [a] *)
Definition or_else (a : option Z) (b : Z) : Z :=
  match a with
  | Some z => if truthy z then z else b
  | None => b
  end.

(** [a ?? b] on an optional boolean [a] *)
Definition nullish_or (a : option bool) (b : bool) : bool :=
  match a with
  | Some x => x
  | None => b
  end.

(** ** Credit management *)

Record CreditResult := {
  success : bool;
  newBalance : Z;
}.

Definition transaction_type_of (t : AllocationType) : TransactionType :=
  match t with
  | alloc_purchase => purchase
  | alloc_monthly_allocation => monthly_allocation
  | alloc_bonus => bonus
  | alloc_refund => refund
  end.

(** The query [q.eq("memberId", memberId)] on [creditBalances]. *)
Definition balance_of_member (memberId : Id) : Mutation (option (Id * CreditBalance)) :=
  db_first creditBalancesT (λ r, cb_memberId r = memberId).

Record AddCreditsArgs := {
  add_memberId : Id;
  add_amount : Z;
  add_type : AllocationType;
  add_description : string;
  add_subscriptionId : option Id;
  add_metadata : Metadata;
}.

(** Add credits to user's account *)
Definition addCredits (now : Z) (args : AddCreditsArgs) : Mutation CreditResult :=
  let memberId := add_memberId args in
  let amount := add_amount args in
  let* found := balance_of_member memberId in
  let* bal :=
    match found with
    | None =>
        let* balanceId :=
          db_insert creditBalancesT
            {| cb_memberId := memberId; balance := amount;
               lifetimeEarned := amount; lifetimeSpent := 0;
               lastResetAt := now; cb_updatedAt := now |} in
        let* fresh := db_get creditBalancesT balanceId in
        non_null fresh
    | Some (_id, b) =>
        db_patch creditBalancesT _id
          (λ doc, {| cb_memberId := cb_memberId doc;
                     balance := balance b + amount;
                     lifetimeEarned := lifetimeEarned b + amount;
                     lifetimeSpent := lifetimeSpent doc;
                     lastResetAt := lastResetAt doc;
                     cb_updatedAt := now |}) ;;
        let* fresh := db_get creditBalancesT _id in
        non_null fresh
    end in
  db_insert creditTransactionsT
    {| tx_memberId := memberId; tx_amount := amount;
       balanceAfter := balance bal;
       tx_type := transaction_type_of (add_type args);
       tx_description := add_description args;
       tx_subscriptionId := add_subscriptionId args;
       tx_chatId := None; tx_usageRecordId := None;
       tx_metadata := add_metadata args; tx_createdAt := now |} ;;
  ret {| success := true; newBalance := balance bal |}.

Record DeductCreditsArgs := {
  ded_memberId : Id;
  ded_amount : Z;
  ded_description : string;
  ded_chatId : option Id;
  ded_usageRecordId : option Id;
  ded_metadata : Metadata;
}.

(** Deduct credits for usage *)
Definition deductCredits (now : Z) (args : DeductCreditsArgs) : Mutation CreditResult :=
  let* found := balance_of_member (ded_memberId args) in
  match found with
  | None => throw InsufficientCredits
  | Some (_id, b) =>
      if balance b <? ded_amount args then throw InsufficientCredits
      else
        let newBalance := balance b - ded_amount args in
        db_patch creditBalancesT _id
          (λ doc, {| cb_memberId := cb_memberId doc;
                     balance := newBalance;
                     lifetimeEarned := lifetimeEarned doc;
                     lifetimeSpent := lifetimeSpent b + ded_amount args;
                     lastResetAt := lastResetAt doc;
                     cb_updatedAt := now |}) ;;
        db_insert creditTransactionsT
          {| tx_memberId := ded_memberId args;
             tx_amount := - ded_amount args;
             balanceAfter := newBalance;
             tx_type := usage_deduction;
             tx_description := ded_description args;
             tx_subscriptionId := None;
             tx_chatId := ded_chatId args;
             tx_usageRecordId := ded_usageRecordId args;
             tx_metadata := ded_metadata args; tx_createdAt := now |} ;;
        ret {| success := true; newBalance := newBalance |}
  end.

(** Internal function to allocate monthly credits.  [now] is the clock
    reading of the nested [addCredits] call. *)
Definition allocateMonthlyCredits (now : Z) (memberId subscriptionId : Id)
  : Mutation unit :=
  let* subscription := db_get subscriptionsT subscriptionId in
  match subscription with
  | None => ret tt
  | Some subscription =>
      let* plan := db_get plansT (sub_planId subscription) in
      match plan with
      | None => ret tt
      | Some plan =>
          let creditsToAdd := monthlyCredits plan in
          let* bal := balance_of_member memberId in
          let creditsToAdd :=
            match bal with
            | Some (_, b) =>
                if rolloverCredits plan && (0 <? balance b) then
                  let maxRollover :=
                    or_else (maxRolloverCredits plan) (monthlyCredits plan) in
                  let rolloverAmount := Z.min (balance b) maxRollover in
                  creditsToAdd + rolloverAmount
                else creditsToAdd
            | None => creditsToAdd
            end in
          addCredits now
            {| add_memberId := memberId; add_amount := creditsToAdd;
               add_type := alloc_monthly_allocation;
               add_description :=
                 "Monthly credit allocation for " +:+ displayName plan +:+ " plan";
               add_subscriptionId := Some subscriptionId;
               add_metadata := None |} ;;
          ret tt
      end
  end.

(** ** Usage tracking *)

Definition resource_name (r : ResourceType) : string :=
  match r with
  | llm_tokens => "llm_tokens"
  | api_call => "api_call"
  | storage => "storage"
  | deployment => "deployment"
  | data_source_query => "data_source_query"
  end.

(** [{ ...metadata }] *)
Definition spread (m : Metadata) : gmap string JsValue := default ∅ m.

Record RecordUsageArgs := {
  ru_memberId : Id;
  ru_chatId : option Id;
  ru_resourceType : ResourceType;
  ru_quantity : Z;
  ru_creditCost : Z;
  ru_modelId : option string;
  ru_promptTokens : option Z;
  ru_completionTokens : option Z;
  ru_cachedPromptTokens : option Z;
  ru_apiIntegrationId : option Id;
  ru_metadata : Metadata;
}.

Record RecordUsageResult := {
  ru_success : bool;
  usageRecordId : Id;
}.

(** Record usage and deduct credits: the handler of the mutation.  [now]
    is this handler's clock reading, [now_deduct] the one of the nested
    [deductCredits] call.  What a call of the mutation commits is
    [mutation (recordUsage now now_deduct args)]. *)
Definition recordUsage (now now_deduct : Z) (args : RecordUsageArgs)
  : Mutation RecordUsageResult :=
  let* usageRecordId :=
    db_insert usageRecordsT
      {| ur_memberId := ru_memberId args; ur_chatId := ru_chatId args;
         ur_resourceType := ru_resourceType args;
         ur_quantity := ru_quantity args;
         ur_creditCost := ru_creditCost args;
         ur_modelId := ru_modelId args;
         ur_promptTokens := ru_promptTokens args;
         ur_completionTokens := ru_completionTokens args;
         ur_cachedPromptTokens := ru_cachedPromptTokens args;
         ur_apiIntegrationId := ru_apiIntegrationId args;
         ur_metadata := ru_metadata args; ur_timestamp := now |} in
  try_catch
    (deductCredits now_deduct
       {| ded_memberId := ru_memberId args;
          ded_amount := ru_creditCost args;
          ded_description := resource_name (ru_resourceType args) +:+ " usage";
          ded_chatId := ru_chatId args;
          ded_usageRecordId := Some usageRecordId;
          ded_metadata := ru_metadata args |})
    (λ error,
       db_patch usageRecordsT usageRecordId
         (λ doc, {| ur_memberId := ur_memberId doc; ur_chatId := ur_chatId doc;
                    ur_resourceType := ur_resourceType doc;
                    ur_quantity := ur_quantity doc;
                    ur_creditCost := ur_creditCost doc;
                    ur_modelId := ur_modelId doc;
                    ur_promptTokens := ur_promptTokens doc;
                    ur_completionTokens := ur_completionTokens doc;
                    ur_cachedPromptTokens := ur_cachedPromptTokens doc;
                    ur_apiIntegrationId := ur_apiIntegrationId doc;
                    ur_metadata :=
                      Some (<["error" := JsString (String_of error)]>
                              (<["creditDeductionFailed" := JsBool true]>
                                 (spread (ru_metadata args))));
                    ur_timestamp := ur_timestamp doc |}) ;;
       throw error) ;;
  ret {| ru_success := true; usageRecordId := usageRecordId |}.

(** ** User subscriptions *)

Definition set_status (s : SubscriptionStatus) (now : Z) (doc : Subscription)
  : Subscription :=
  {| sub_memberId := sub_memberId doc; sub_planId := sub_planId doc;
     sub_status := s;
     sub_billingPeriod := sub_billingPeriod doc;
     sub_currentPeriodStart := sub_currentPeriodStart doc;
     sub_currentPeriodEnd := sub_currentPeriodEnd doc;
     sub_cancelAtPeriodEnd := sub_cancelAtPeriodEnd doc;
     sub_stripeSubscriptionId := sub_stripeSubscriptionId doc;
     sub_stripeCustomerId := sub_stripeCustomerId doc;
     sub_trialStart := sub_trialStart doc; sub_trialEnd := sub_trialEnd doc;
     sub_createdAt := sub_createdAt doc; sub_updatedAt := now |}.

Definition set_cancelAtPeriodEnd (c : bool) (now : Z) (doc : Subscription)
  : Subscription :=
  {| sub_memberId := sub_memberId doc; sub_planId := sub_planId doc;
     sub_status := sub_status doc;
     sub_billingPeriod := sub_billingPeriod doc;
     sub_currentPeriodStart := sub_currentPeriodStart doc;
     sub_currentPeriodEnd := sub_currentPeriodEnd doc;
     sub_cancelAtPeriodEnd := c;
     sub_stripeSubscriptionId := sub_stripeSubscriptionId doc;
     sub_stripeCustomerId := sub_stripeCustomerId doc;
     sub_trialStart := sub_trialStart doc; sub_trialEnd := sub_trialEnd doc;
     sub_createdAt := sub_createdAt doc; sub_updatedAt := now |}.

(** The index range [q.eq("memberId", m).eq("status", "active")]. *)
Definition active_of (memberId : Id) (s : Subscription) : Prop :=
  sub_memberId s = memberId ∧ sub_status s = active.

Global Instance active_of_dec memberId s : Decision (active_of memberId s).
Proof. unfold active_of. apply _. Defined.

Record CreateSubscriptionArgs := {
  cs_memberId : Id;
  cs_planId : Id;
  cs_billingPeriod : BillingPeriod;
  cs_stripeSubscriptionId : option string;
  cs_stripeCustomerId : option string;
  cs_trialDays : option Z;
}.

Definition day_ms : Z := 24 * 60 * 60 * 1000.

(** [let trialStart, trialEnd; if (args.trialDays) { trialStart = now;
    trialEnd = now + args.trialDays * 24 * 60 * 60 * 1000 }] *)
Definition trial_window (now : Z) (trialDays : option Z) : option Z * option Z :=
  match trialDays with
  | Some days =>
      if truthy days then (Some now, Some (now + days * day_ms)) else (None, None)
  | None => (None, None)
  end.

(** Create a new subscription for a user *)
Definition createSubscription (now : Z) (args : CreateSubscriptionArgs)
  : Mutation Id :=
  let* plan := db_get plansT (cs_planId args) in
  match plan with
  | None => throw PlanNotFound
  | Some _ =>
      let periodEnd :=
        now + (match cs_billingPeriod args with monthly => 30 | yearly => 365 end)
              * day_ms in
      let trial := trial_window now (cs_trialDays args) in
      let trialStart := trial.1 in
      let trialEnd := trial.2 in
      let* existingSubscriptions :=
        db_collect subscriptionsT (active_of (cs_memberId args)) in
      for_each existingSubscriptions
        (λ sub, db_patch subscriptionsT sub.1 (set_status cancelled now)) ;;
      let* subscriptionId :=
        db_insert subscriptionsT
          {| sub_memberId := cs_memberId args; sub_planId := cs_planId args;
             sub_status := if truthy_opt trialStart then trialing else active;
             sub_billingPeriod := cs_billingPeriod args;
             sub_currentPeriodStart := now;
             sub_currentPeriodEnd := periodEnd;
             sub_cancelAtPeriodEnd := false;
             sub_stripeSubscriptionId := cs_stripeSubscriptionId args;
             sub_stripeCustomerId := cs_stripeCustomerId args;
             sub_trialStart := trialStart; sub_trialEnd := trialEnd;
             sub_createdAt := now; sub_updatedAt := now |} in
      schedule_allocation (cs_memberId args) subscriptionId ;;
      ret subscriptionId
  end.

Record Success := { ok : bool }.

(** Update subscription status *)
Definition updateSubscriptionStatus (now : Z) (subscriptionId : Id)
    (status : SubscriptionStatus) (cancelAtPeriodEnd : option bool)
  : Mutation Success :=
  db_patch subscriptionsT subscriptionId
    (λ doc, set_cancelAtPeriodEnd (nullish_or cancelAtPeriodEnd false) now
              (set_status status now doc)) ;;
  ret {| ok := true |}.

(** Cancel subscription *)
Definition cancelSubscription (now : Z) (subscriptionId : Id) (immediate : bool)
  : Mutation Success :=
  let* subscription := db_get subscriptionsT subscriptionId in
  match subscription with
  | None => throw SubscriptionNotFound
  | Some _ =>
      (if immediate
       then db_patch subscriptionsT subscriptionId (set_status cancelled now)
       else db_patch subscriptionsT subscriptionId (set_cancelAtPeriodEnd true now)) ;;
      ret {| ok := true |}
  end.

(** ** Running ledger operations in sequence *)

Inductive LedgerOp :=
  | OpAdd (now : Z) (args : AddCreditsArgs)
  | OpDeduct (now : Z) (args : DeductCreditsArgs)
  | OpAllocateMonthly (now : Z) (memberId subscriptionId : Id).

(** The database after one operation, whether it returned or threw. *)
Definition apply_op (op : LedgerOp) (db : Db) : Db :=
  match op with
  | OpAdd now args => (addCredits now args db).2
  | OpDeduct now args => (deductCredits now args db).2
  | OpAllocateMonthly now m s => (allocateMonthlyCredits now m s db).2
  end.

Definition run_ops (ops : list LedgerOp) (db : Db) : Db :=
  foldl (λ d op, apply_op op d) db ops.

(** The read-only projection of [getCreditBalance]. *)
Definition getCreditBalance (memberId : Id) (db : Db) : Z * Z * Z :=
  match list_find (λ r, cb_memberId r = memberId) (creditBalances db) with
  | Some (_, b) => (balance b, lifetimeEarned b, lifetimeSpent b)
  | None => (0, 0, 0)
  end.

Definition current_balance (memberId : Id) (db : Db) : Z :=
  (getCreditBalance memberId db).1.1.

(** Sum of the signed amounts of a member's transactions. *)
Definition sum_amounts (memberId : Id) (txs : list CreditTransaction) : Z :=
  foldr (λ t acc, if decide (tx_memberId t = memberId) then tx_amount t + acc else acc)
        0 txs.

(** ** Documents written by the ledger *)

(** The balance document written by the first [addCredits] of a member. *)
Definition created_balance (now : Z) (args : AddCreditsArgs) : CreditBalance :=
  {| cb_memberId := add_memberId args; balance := add_amount args;
     lifetimeEarned := add_amount args; lifetimeSpent := 0;
     lastResetAt := now; cb_updatedAt := now |}.

(** The balance document after [addCredits] patched [b]. *)
Definition credited_balance (now : Z) (args : AddCreditsArgs) (b : CreditBalance)
  : CreditBalance :=
  {| cb_memberId := cb_memberId b; balance := balance b + add_amount args;
     lifetimeEarned := lifetimeEarned b + add_amount args;
     lifetimeSpent := lifetimeSpent b;
     lastResetAt := lastResetAt b; cb_updatedAt := now |}.

(** The balance document after [deductCredits] patched [b]. *)
Definition debited_balance (now : Z) (args : DeductCreditsArgs) (b : CreditBalance)
  : CreditBalance :=
  {| cb_memberId := cb_memberId b; balance := balance b - ded_amount args;
     lifetimeEarned := lifetimeEarned b;
     lifetimeSpent := lifetimeSpent b + ded_amount args;
     lastResetAt := lastResetAt b; cb_updatedAt := now |}.

Definition credit_transaction (now : Z) (args : AddCreditsArgs) (after : Z)
  : CreditTransaction :=
  {| tx_memberId := add_memberId args; tx_amount := add_amount args;
     balanceAfter := after;
     tx_type := transaction_type_of (add_type args);
     tx_description := add_description args;
     tx_subscriptionId := add_subscriptionId args;
     tx_chatId := None; tx_usageRecordId := None;
     tx_metadata := add_metadata args; tx_createdAt := now |}.

Definition debit_transaction (now : Z) (args : DeductCreditsArgs) (after : Z)
  : CreditTransaction :=
  {| tx_memberId := ded_memberId args; tx_amount := - ded_amount args;
     balanceAfter := after; tx_type := usage_deduction;
     tx_description := ded_description args;
     tx_subscriptionId := None; tx_chatId := ded_chatId args;
     tx_usageRecordId := ded_usageRecordId args;
     tx_metadata := ded_metadata args; tx_createdAt := now |}.

(** The database with new balance rows and one more transaction. *)
Definition ledger_write (db : Db) (bals : list CreditBalance) (t : CreditTransaction)
  : Db :=
  with_rows creditTransactionsT (creditTransactions db ++ [t])
    (with_rows creditBalancesT bals db).

(** ** Properties of the ledger *)

(** The balance row of a member that the ledger reads and writes. *)
Definition balance_row (memberId : Id) (db : Db) : option (Id * CreditBalance) :=
  list_find (λ r, cb_memberId r = memberId) (creditBalances db).

Definition balance_equation (b : CreditBalance) : Prop :=
  balance b = lifetimeEarned b - lifetimeSpent b.

(** Every balance row satisfies [balance = lifetimeEarned - lifetimeSpent]. *)
Definition ledger_consistent (db : Db) : Prop :=
  Forall balance_equation (creditBalances db).

(** The amount [allocateMonthlyCredits] hands to [addCredits]. *)
Definition credits_to_add (plan : Plan) (bal : option (Id * CreditBalance)) : Z :=
  match bal with
  | Some (_, b) =>
      if rolloverCredits plan && (0 <? balance b)
      then monthlyCredits plan
           + Z.min (balance b) (or_else (maxRolloverCredits plan) (monthlyCredits plan))
      else monthlyCredits plan
  | None => monthlyCredits plan
  end.

Definition monthly_args (memberId subscriptionId : Id) (plan : Plan) (amount : Z)
  : AddCreditsArgs :=
  {| add_memberId := memberId; add_amount := amount;
     add_type := alloc_monthly_allocation;
     add_description :=
       "Monthly credit allocation for " +:+ displayName plan +:+ " plan";
     add_subscriptionId := Some subscriptionId;
     add_metadata := None |}.

(** Every operation either leaves the database alone or is a credit or a
    debit of one member's row. *)
Inductive ledger_step (db : Db) : Db → Prop :=
  | step_none : ledger_step db db
  | step_created now args :
      balance_row (add_memberId args) db = None →
      ledger_step db
        (ledger_write db (creditBalances db ++ [created_balance now args])
           (credit_transaction now args (add_amount args)))
  | step_credited now args i b :
      balance_row (add_memberId args) db = Some (i, b) →
      ledger_step db
        (ledger_write db (<[i := credited_balance now args b]> (creditBalances db))
           (credit_transaction now args (balance b + add_amount args)))
  | step_debited now args i b :
      balance_row (ded_memberId args) db = Some (i, b) →
      ded_amount args ≤ balance b →
      ledger_step db
        (ledger_write db (<[i := debited_balance now args b]> (creditBalances db))
           (debit_transaction now args (balance b - ded_amount args))).

(** The balance a reader sees equals the sum of the member's transactions. *)
Definition log_reconciles (db : Db) : Prop :=
  ∀ m, current_balance m db = sum_amounts m (creditTransactions db).

(** Every transaction's [balanceAfter] is the sum of its member's
    transactions up to and including itself. *)
Definition snapshots_reconcile (txs : list CreditTransaction) : Prop :=
  ∀ pre t post, txs = pre ++ t :: post →
    balanceAfter t = sum_amounts (tx_memberId t) (pre ++ [t]).

Definition ledger_reconciles (db : Db) : Prop :=
  log_reconciles db ∧ snapshots_reconcile (creditTransactions db).






(** ** Documents written by the usage recorder *)

(** The usage record [recordUsage] inserts. *)
Definition usage_record (now : Z) (args : RecordUsageArgs) : UsageRecord :=
  {| ur_memberId := ru_memberId args; ur_chatId := ru_chatId args;
     ur_resourceType := ru_resourceType args;
     ur_quantity := ru_quantity args; ur_creditCost := ru_creditCost args;
     ur_modelId := ru_modelId args;
     ur_promptTokens := ru_promptTokens args;
     ur_completionTokens := ru_completionTokens args;
     ur_cachedPromptTokens := ru_cachedPromptTokens args;
     ur_apiIntegrationId := ru_apiIntegrationId args;
     ur_metadata := ru_metadata args; ur_timestamp := now |}.

(** The arguments [recordUsage] passes to [deductCredits]. *)
Definition deduction_for_usage (args : RecordUsageArgs) (usageRecordId : Id)
  : DeductCreditsArgs :=
  {| ded_memberId := ru_memberId args; ded_amount := ru_creditCost args;
     ded_description := resource_name (ru_resourceType args) +:+ " usage";
     ded_chatId := ru_chatId args;
     ded_usageRecordId := Some usageRecordId;
     ded_metadata := ru_metadata args |}.

(** [{ ...args.metadata, creditDeductionFailed: true, error: String(error) }] *)
Definition failure_metadata (args : RecordUsageArgs) (e : JsError)
  : gmap string JsValue :=
  <["error" := JsString (String_of e)]>
    (<["creditDeductionFailed" := JsBool true]> (spread (ru_metadata args))).

(** A usage record whose metadata was replaced, all else kept. *)
Definition with_metadata (md : Metadata) (doc : UsageRecord) : UsageRecord :=
  {| ur_memberId := ur_memberId doc; ur_chatId := ur_chatId doc;
     ur_resourceType := ur_resourceType doc;
     ur_quantity := ur_quantity doc; ur_creditCost := ur_creditCost doc;
     ur_modelId := ur_modelId doc;
     ur_promptTokens := ur_promptTokens doc;
     ur_completionTokens := ur_completionTokens doc;
     ur_cachedPromptTokens := ur_cachedPromptTokens doc;
     ur_apiIntegrationId := ur_apiIntegrationId doc;
     ur_metadata := md; ur_timestamp := ur_timestamp doc |}.

(** The database right after [recordUsage] inserted its usage record. *)
Definition usage_inserted (now : Z) (args : RecordUsageArgs) (db : Db) : Db :=
  with_rows usageRecordsT (usageRecords db ++ [usage_record now args]) db.

(** ** Documents written by the subscription manager *)

(** What the cancel loop of [createSubscription] does to one stored
    subscription: an active subscription of the member is patched to
    cancelled, any other is left alone. *)
Definition cancel_if_active (memberId : Id) (now : Z) (s : Subscription)
  : Subscription :=
  if decide (active_of memberId s) then set_status cancelled now s else s.

(** The subscription [createSubscription] inserts. *)
Definition new_subscription (now : Z) (args : CreateSubscriptionArgs)
  : Subscription :=
  {| sub_memberId := cs_memberId args; sub_planId := cs_planId args;
     sub_status :=
       if truthy_opt (trial_window now (cs_trialDays args)).1
       then trialing else active;
     sub_billingPeriod := cs_billingPeriod args;
     sub_currentPeriodStart := now;
     sub_currentPeriodEnd :=
       now + (match cs_billingPeriod args with monthly => 30 | yearly => 365 end)
             * day_ms;
     sub_cancelAtPeriodEnd := false;
     sub_stripeSubscriptionId := cs_stripeSubscriptionId args;
     sub_stripeCustomerId := cs_stripeCustomerId args;
     sub_trialStart := (trial_window now (cs_trialDays args)).1;
     sub_trialEnd := (trial_window now (cs_trialDays args)).2;
     sub_createdAt := now; sub_updatedAt := now |}.

(** At most one subscription of the member is active. *)
Definition at_most_one_active (memberId : Id) (subs : list Subscription) : Prop :=
  ∀ i j si sj,
    subs !! i = Some si → subs !! j = Some sj →
    active_of memberId si → active_of memberId sj → i = j.

(** ** Sample data *)

Definition alice : Id := 7.

Definition grant (amount : Z) : AddCreditsArgs :=
  {| add_memberId := alice; add_amount := amount; add_type := alloc_bonus;
     add_description := "bonus"; add_subscriptionId := None;
     add_metadata := None |}.

Definition charge (amount : Z) : DeductCreditsArgs :=
  {| ded_memberId := alice; ded_amount := amount;
     ded_description := "api_call usage"; ded_chatId := None;
     ded_usageRecordId := None; ded_metadata := None |}.

Definition sample_ops : list LedgerOp :=
  [OpAdd 1 (grant 150); OpDeduct 2 (charge 100); OpDeduct 3 (charge 100)].

Definition subscribe (plan : Id) : CreateSubscriptionArgs :=
  {| cs_memberId := alice; cs_planId := plan; cs_billingPeriod := yearly;
     cs_stripeSubscriptionId := None; cs_stripeCustomerId := None;
     cs_trialDays := None |}.

Definition starter (cap : option Z) : Plan :=
  {| displayName := "Starter"; monthlyCredits := 10000;
     rolloverCredits := true; maxRolloverCredits := cap |}.

Definition alice_subscription : Subscription :=
  {| sub_memberId := alice; sub_planId := 0%nat; sub_status := active;
     sub_billingPeriod := monthly; sub_currentPeriodStart := 0;
     sub_currentPeriodEnd := 30 * day_ms; sub_cancelAtPeriodEnd := false;
     sub_stripeSubscriptionId := None; sub_stripeCustomerId := None;
     sub_trialStart := None; sub_trialEnd := None;
     sub_createdAt := 0; sub_updatedAt := 0 |}.

(** Alice on the Starter plan with 8000 credits left. *)
Definition starter_db (cap : option Z) : Db :=
  {| subscriptionPlans := [starter cap];
     subscriptions := [alice_subscription];
     creditBalances :=
       [{| cb_memberId := alice; balance := 8000; lifetimeEarned := 10000;
           lifetimeSpent := 2000; lastResetAt := 0; cb_updatedAt := 0 |}];
     creditTransactions := []; usageRecords := []; scheduled := [] |}.



(** ** Reading a table through an index *)

(** [insert_by key x l] puts [x] in front of the first document of [l]
    whose key is not smaller. *)
Fixpoint insert_by {A} (key : A → Z) (x : A) (l : list A) : list A :=
  match l with
  | [] => [x]
  | y :: l' => if key x <=? key y then x :: y :: l' else y :: insert_by key x l'
  end.

(** The documents of [l] (given in creation order) in the order of an
    index on [key]: ascending in [key], documents with equal keys in
    creation order. *)
Definition index_order {A} (key : A → Z) (l : list A) : list A :=
  foldr (insert_by key) [] l.

(** ** Billing queries *)

(** Get credit transaction history: the member's transactions through the
    index [byMemberId] on [memberId, createdAt], [.order("desc")],
    [.take(limit)] with [limit = 50] when omitted. *)
Definition getCreditTransactions (memberId : Id) (limit : option nat) (db : Db)
  : list CreditTransaction :=
  take (default 50%nat limit)
    (reverse
       (index_order tx_createdAt
          (filter (λ t, tx_memberId t = memberId) (creditTransactions db)))).

(** Get user's current subscription: the oldest active subscription with
    its id, and the plan document it points to ([null] if that is gone). *)
Definition getCurrentSubscription (memberId : Id) (db : Db)
  : option (Id * Subscription * option Plan) :=
  match list_find (active_of memberId) (subscriptions db) with
  | None => None
  | Some (_id, subscription) =>
      Some (_id, subscription, subscriptionPlans db !! sub_planId subscription)
  end.






(** Amounts of a list of transactions, added up. *)
Definition total_amount (txs : list CreditTransaction) : Z :=
  foldr (λ t acc, tx_amount t + acc) 0 txs.

Global Instance ResourceType_eq_dec : EqDecision ResourceType.
Proof. solve_decision. Defined.





(** The member whose ledger an operation addresses. *)
Definition op_member (op : LedgerOp) : Id :=
  match op with
  | OpAdd _ args => add_memberId args
  | OpDeduct _ args => ded_memberId args
  | OpAllocateMonthly _ memberId _ => memberId
  end.

(** No two balance rows belong to the same member. *)
Definition one_row_per_member (db : Db) : Prop :=
  ∀ i j bi bj,
    creditBalances db !! i = Some bi → creditBalances db !! j = Some bj →
    cb_memberId bi = cb_memberId bj → i = j.

Definition sample_usage (cost : Z) : RecordUsageArgs :=
  {| ru_memberId := 7%nat; ru_chatId := None; ru_resourceType := api_call;
     ru_quantity := 1; ru_creditCost := cost; ru_modelId := None;
     ru_promptTokens := None; ru_completionTokens := None;
     ru_cachedPromptTokens := None; ru_apiIntegrationId := None;
     ru_metadata := None |}.


(** ** Webhooks and Stripe integration *)

Inductive PaymentStatus := succeeded | pending | failed | refunded.

Inductive PaymentMethod := card | bank_transfer | paypal | other.

Record Payment := {
  pay_memberId : Id;
  pay_amount : Z;
  pay_currency : string;
  pay_status : PaymentStatus;
  pay_paymentMethod : PaymentMethod;
  pay_stripePaymentIntentId : option string;
  pay_stripeChargeId : option string;
  pay_description : string;
  pay_createdAt : Z;
}.

(** The billing tables together with the [payments] table, which only the
    webhook handlers write. *)
Record BillingDb := {
  core : Db;
  payments : list Payment;
}.

(** The fields the handlers read of a Stripe subscription object.  The
    event is [v.any()], so its status is whatever string Stripe sends. *)
Record StripeSubscription := {
  stripe_id : string;
  stripe_status : string;
  current_period_start : Z;
  current_period_end : Z;
  cancel_at_period_end : bool;
}.

(** The fields the handlers read of a Stripe invoice object; an optional
    field is a string or is absent. *)
Record StripeInvoice := {
  inv_customer : string;
  inv_amount_paid : Z;
  inv_currency : string;
  inv_payment_intent : option string;
  inv_charge : option string;
  inv_description : option string;
}.

(** A webhook event: [event.type] with [event.data.object]. *)
Inductive StripeEvent :=
  | customer_subscription_created (object : StripeSubscription)
  | customer_subscription_updated (object : StripeSubscription)
  | customer_subscription_deleted (object : StripeSubscription)
  | invoice_paid (object : StripeInvoice)
  | invoice_payment_failed (object : StripeInvoice)
  | unhandled_event (type : string).

(** The validator of [subscriptions.status]: the five literals of the
    schema, and no other string. *)
Definition status_of_string (s : string) : option SubscriptionStatus :=
  if decide (s = "active") then Some active
  else if decide (s = "cancelled") then Some cancelled
  else if decide (s = "past_due") then Some past_due
  else if decide (s = "trialing") then Some trialing
  else if decide (s = "paused") then Some paused
  else None.

(** The error of a write that the schema of the table refuses. *)
Definition SchemaValidationError : JsError :=
  Error "Failed to insert or update a document in table subscriptions because it does not match the schema".

(** The patch writes [stripeSubscription.status] into [status]; the
    schema refuses the write when that is none of its literals. *)
Definition handleSubscriptionUpdate (now : Z) (stripeSubscription : StripeSubscription)
  : Mutation unit :=
  let* subscription :=
    db_first subscriptionsT
      (λ doc, sub_stripeSubscriptionId doc = Some (stripe_id stripeSubscription)) in
  match subscription with
  | Some (_id, _) =>
      match status_of_string (stripe_status stripeSubscription) with
      | Some status =>
          db_patch subscriptionsT _id
            (λ doc,
               {| sub_memberId := sub_memberId doc; sub_planId := sub_planId doc;
                  sub_status := status;
                  sub_billingPeriod := sub_billingPeriod doc;
                  sub_currentPeriodStart :=
                    current_period_start stripeSubscription * 1000;
                  sub_currentPeriodEnd :=
                    current_period_end stripeSubscription * 1000;
                  sub_cancelAtPeriodEnd := cancel_at_period_end stripeSubscription;
                  sub_stripeSubscriptionId := sub_stripeSubscriptionId doc;
                  sub_stripeCustomerId := sub_stripeCustomerId doc;
                  sub_trialStart := sub_trialStart doc;
                  sub_trialEnd := sub_trialEnd doc;
                  sub_createdAt := sub_createdAt doc; sub_updatedAt := now |})
      | None => throw SchemaValidationError
      end
  | None => ret tt
  end.

Definition handleSubscriptionDeleted (now : Z) (stripeSubscription : StripeSubscription)
  : Mutation unit :=
  let* subscription :=
    db_first subscriptionsT
      (λ doc, sub_stripeSubscriptionId doc = Some (stripe_id stripeSubscription)) in
  match subscription with
  | Some (_id, _) => db_patch subscriptionsT _id (set_status cancelled now)
  | None => ret tt
  end.

(** The place of a status literal in the order of the index (strings
    compare by code unit: "active" < "cancelled" < "past_due" < "paused"
    < "trialing"). *)
Definition status_rank (s : SubscriptionStatus) : Z :=
  match s with
  | active => 0
  | cancelled => 1
  | past_due => 2
  | paused => 3
  | trialing => 4
  end.

(** The key of the index [byMemberId] on [memberId, status]; member ids
    compare as the numbers that stand for them. *)
Definition byMemberId_key (s : Subscription) : Z :=
  Z.of_nat (sub_memberId s) * 5 + status_rank (sub_status s).

(** [query("subscriptions").withIndex("byMemberId").filter(stripeCustomerId
    = id).first()?.memberId] *)
Definition getMemberIdFromStripeCustomer (stripeCustomerId : string)
  : Mutation (option Id) :=
  λ db,
    (Returned
       (match list_find (λ doc, sub_stripeCustomerId doc = Some stripeCustomerId)
                (index_order byMemberId_key (subscriptions db)) with
        | Some (_, subscription) => Some (sub_memberId subscription)
        | None => None
        end), db).

(** [a || b] on an optional string [a] *)
Definition or_else_string (a : option string) (b : string) : string :=
  match a with
  | Some s => if decide (s = "") then b else s
  | None => b
  end.

(** A handler of the billing tables run on the larger database. *)
Definition on_core {A} (m : Mutation A) : BillingDb → Outcome A * BillingDb :=
  λ st, let (out, db') := m (core st) in
        (out, {| core := db'; payments := payments st |}).

Definition handleInvoicePaid (now : Z) (invoice : StripeInvoice)
  : BillingDb → Outcome unit * BillingDb :=
  λ st,
    match on_core (getMemberIdFromStripeCustomer (inv_customer invoice)) st with
    | (Thrown e, st') => (Thrown e, st')
    | (Returned None, st') => (Returned tt, st')
    | (Returned (Some memberId), st') =>
        (Returned tt,
         {| core := core st';
            payments := payments st' ++
              [{| pay_memberId := memberId;
                  pay_amount := inv_amount_paid invoice;
                  pay_currency := inv_currency invoice;
                  pay_status := succeeded;
                  pay_paymentMethod := card;
                  pay_stripePaymentIntentId := inv_payment_intent invoice;
                  pay_stripeChargeId := inv_charge invoice;
                  pay_description :=
                    or_else_string (inv_description invoice) "Subscription payment";
                  pay_createdAt := now |}] |})
    end.

Definition handleInvoicePaymentFailed (now : Z) (invoice : StripeInvoice)
  : Mutation unit :=
  let* memberId := getMemberIdFromStripeCustomer (inv_customer invoice) in
  match memberId with
  | None => ret tt
  | Some memberId =>
      let* subscription := db_first subscriptionsT (active_of memberId) in
      match subscription with
      | Some (_id, _) => db_patch subscriptionsT _id (set_status past_due now)
      | None => ret tt
      end
  end.

(** Handle Stripe webhook events *)
Definition handleStripeWebhook (now : Z) (event : StripeEvent)
  : BillingDb → Outcome Success * BillingDb :=
  λ st,
    let (out, st') :=
      match event with
      | customer_subscription_created object
      | customer_subscription_updated object =>
          on_core (handleSubscriptionUpdate now object) st
      | customer_subscription_deleted object =>
          on_core (handleSubscriptionDeleted now object) st
      | invoice_paid object => handleInvoicePaid now object st
      | invoice_payment_failed object =>
          on_core (handleInvoicePaymentFailed now object) st
      | unhandled_event _ => (Returned tt, st)
      end in
    match out with
    | Returned _ => (Returned {| ok := true |}, st')
    | Thrown e => (Thrown e, st')
    end.

(** The subscription document after a Stripe status update. *)
Definition stripe_updated (now : Z) (s : StripeSubscription)
    (status : SubscriptionStatus) (doc : Subscription) : Subscription :=
  {| sub_memberId := sub_memberId doc; sub_planId := sub_planId doc;
     sub_status := status;
     sub_billingPeriod := sub_billingPeriod doc;
     sub_currentPeriodStart := current_period_start s * 1000;
     sub_currentPeriodEnd := current_period_end s * 1000;
     sub_cancelAtPeriodEnd := cancel_at_period_end s;
     sub_stripeSubscriptionId := sub_stripeSubscriptionId doc;
     sub_stripeCustomerId := sub_stripeCustomerId doc;
     sub_trialStart := sub_trialStart doc; sub_trialEnd := sub_trialEnd doc;
     sub_createdAt := sub_createdAt doc; sub_updatedAt := now |}.

(** The first subscription, in table order, that carries a Stripe
    subscription id. *)
Definition by_stripe_id (id : string) (db : Db) : option (Id * Subscription) :=
  list_find (λ doc, sub_stripeSubscriptionId doc = Some id) (subscriptions db).

(** The member a Stripe customer id resolves to. *)
Definition member_of_customer (customer : string) (db : Db) : option Id :=
  match (getMemberIdFromStripeCustomer customer db).1 with
  | Returned o => o
  | Thrown _ => None
  end.

(** ** Seeding the plan catalogue *)

Record SeedResult := {
  seed_success : bool;
  message : string;
}.

(** The four seeded plans, with the fields modelled in [Plan]. *)
Definition free_plan : Plan :=
  {| displayName := "Free"; monthlyCredits := 1000;
     rolloverCredits := false; maxRolloverCredits := None |}.

Definition starter_plan : Plan :=
  {| displayName := "Starter"; monthlyCredits := 10000;
     rolloverCredits := true; maxRolloverCredits := Some 5000 |}.

Definition pro_plan : Plan :=
  {| displayName := "Pro"; monthlyCredits := 50000;
     rolloverCredits := true; maxRolloverCredits := Some 25000 |}.

Definition enterprise_plan : Plan :=
  {| displayName := "Enterprise"; monthlyCredits := 250000;
     rolloverCredits := true; maxRolloverCredits := Some 125000 |}.

(** [ctx.db.query(table).collect()] *)
Definition db_collect_all {A} (T : Table A) : Mutation (list A) :=
  λ db, (Returned (rows T db), db).

(** Seed Subscription Plans *)
Definition seedSubscriptionPlans : Mutation SeedResult :=
  let* existingPlans := db_collect_all plansT in
  if (0 <? length existingPlans)%nat
  then ret {| seed_success := true; message := "Plans already exist" |}
  else
    db_insert plansT free_plan ;;
    db_insert plansT starter_plan ;;
    db_insert plansT pro_plan ;;
    db_insert plansT enterprise_plan ;;
    ret {| seed_success := true; message := "Plans seeded successfully" |}.

Definition subscribe_stripe (plan : Id) (stripe : string) : CreateSubscriptionArgs :=
  {| cs_memberId := alice; cs_planId := plan; cs_billingPeriod := monthly;
     cs_stripeSubscriptionId := Some stripe; cs_stripeCustomerId := Some "cus_1";
     cs_trialDays := None |}.

Definition stripe_object (id : string) : StripeSubscription :=
  {| stripe_id := id; stripe_status := "canceled"; current_period_start := 0;
     current_period_end := 0; cancel_at_period_end := false |}.

(** * API integrations and data sources ([convex/apiIntegrations.ts])

    This module deletes documents, so its two tables keep a deleted
    document's place: a table is the list, in creation order, of its
    documents, [None] marking a deleted one; a document's [_id] is still
    its position. *)

Inductive Provider :=
  | rest_api | graphql | postgres | mysql | mongodb | airtable | google_sheets
  | stripe | salesforce | hubspot | shopify | firebase | supabase | custom.

Inductive IntegrationStatus :=
  | status_active | status_inactive | status_error | status_testing.

Global Instance IntegrationStatus_eq_dec : EqDecision IntegrationStatus.
Proof. solve_decision. Defined.

Inductive AuthType :=
  | auth_none | auth_api_key | auth_bearer_token | auth_oauth2 | auth_basic_auth.

Record IntegrationConfig := {
  baseUrl : option string;
  authType : option AuthType;
  apiKey : option string;
  apiKeyHeader : option string;
  bearerToken : option string;
  basicAuthUsername : option string;
  basicAuthPassword : option string;
  oauth2AccessToken : option string;
  oauth2RefreshToken : option string;
  oauth2TokenExpiry : option Z;
  host : option string;
  port : option Z;
  database : option string;
  username : option string;
  password : option string;
  connectionString : option string;
  headers : Metadata;
  timeout : option Z;
  retryAttempts : option Z;
}.

Record ApiIntegration := {
  int_memberId : Id;
  int_name : string;
  int_provider : Provider;
  int_status : IntegrationStatus;
  int_config : IntegrationConfig;
  totalRequests : Z;
  failedRequests : Z;
  int_lastUsedAt : option Z;
  lastErrorAt : option Z;
  lastErrorMessage : option string;
  int_createdAt : Z;
  int_updatedAt : Z;
}.

Inductive QueryType :=
  | rest_get | rest_post | rest_put | rest_delete
  | graphql_query | graphql_mutation
  | sql_select | sql_insert | sql_update | sql_delete.

Record ApiQuery := {
  q_memberId : Id;
  q_integrationId : Id;
  q_name : string;
  q_description : option string;
  q_queryType : QueryType;
  q_endpoint : option string;
  q_query : option string;
  q_variables : Metadata;
  q_requestBody : Metadata;
  q_cacheEnabled : bool;
  q_cacheTTL : option Z;
  usageCount : Z;
  q_lastUsedAt : option Z;
  q_createdAt : Z;
  q_updatedAt : Z;
}.

(** [plan.maxApiIntegrations]: a number or the literal "unlimited". *)
Inductive Limit :=
  | limit (n : Z)
  | unlimited.

(** Of a plan this module reads one field. *)
Record PlanLimits := {
  maxApiIntegrations : Limit;
}.

(** The tables this module reads and writes. *)
Record IntegrationsDb := {
  idb_subscriptions : list Subscription;
  idb_plans : list PlanLimits;
  apiIntegrations : list (option ApiIntegration);
  apiQueries : list (option ApiQuery);
}.

Definition Handler (A : Type) := IntegrationsDb → Outcome A * IntegrationsDb.

Definition hret {A} (a : A) : Handler A := λ db, (Returned a, db).

Definition hthrow {A} (e : JsError) : Handler A := λ db, (Thrown e, db).

Definition hbind {A B} (m : Handler A) (k : A → Handler B) : Handler B :=
  λ db, match m db with
        | (Returned a, db') => k a db'
        | (Thrown e, db') => (Thrown e, db')
        end.

Notation "'let+' x ':=' m 'in' k" := (hbind m (λ x, k))
  (at level 10, x pattern, m at level 100, k at level 200).
Notation "m ';;+' k" := (hbind m (λ _, k))
  (at level 100, k at level 200, right associativity).

(** A table with deletions. *)
Record Store (A : Type) := {
  docs : IntegrationsDb → list (option A);
  with_docs : list (option A) → IntegrationsDb → IntegrationsDb;
}.
Arguments docs {A} _ _.
Arguments with_docs {A} _ _ _.

Definition apiIntegrationsT : Store ApiIntegration :=
  {| docs := apiIntegrations;
     with_docs l db :=
       {| idb_subscriptions := idb_subscriptions db; idb_plans := idb_plans db;
          apiIntegrations := l; apiQueries := apiQueries db |} |}.

Definition apiQueriesT : Store ApiQuery :=
  {| docs := apiQueries;
     with_docs l db :=
       {| idb_subscriptions := idb_subscriptions db; idb_plans := idb_plans db;
          apiIntegrations := apiIntegrations db; apiQueries := l |} |}.

(** The document stored under an id, if it was created and not deleted. *)
Definition stored {A} (l : list (option A)) (id : Id) : option A :=
  match l !! id with
  | Some (Some doc) => Some doc
  | _ => None
  end.

(** The documents of a table that are not deleted, with their ids. *)
Definition live {A} (l : list (option A)) : list (Id * A) :=
  omap (λ p : Id * option A, pair p.1 <$> p.2) (imap pair l).

Definition store_insert {A} (T : Store A) (doc : A) : Handler Id :=
  λ db, (Returned (length (docs T db)), with_docs T (docs T db ++ [Some doc]) db).

Definition store_get {A} (T : Store A) (id : Id) : Handler (option A) :=
  λ db, (Returned (stored (docs T db) id), db).

Definition store_patch {A} (T : Store A) (id : Id) (upd : A → A) : Handler unit :=
  λ db, match stored (docs T db) id with
        | Some doc =>
            (Returned tt, with_docs T (<[id := Some (upd doc)]> (docs T db)) db)
        | None => (Thrown (Error "Update on nonexistent document"), db)
        end.

(** [ctx.db.delete(id)]; deleting a missing document throws. *)
Definition store_delete {A} (T : Store A) (id : Id) : Handler unit :=
  λ db, match stored (docs T db) id with
        | Some _ => (Returned tt, with_docs T (<[id := None]> (docs T db)) db)
        | None => (Thrown (Error "Delete on nonexistent document"), db)
        end.

Fixpoint hfor_each {A} (xs : list A) (body : A → Handler unit) : Handler unit :=
  match xs with
  | [] => hret tt
  | x :: xs' => body x ;;+ hfor_each xs' body
  end.

(** Index order for keys that are strings, compared by [String.leb]. *)
Fixpoint insert_by_name {A} (key : A → string) (x : A) (l : list A) : list A :=
  match l with
  | [] => [x]
  | y :: l' =>
      if String.leb (key x) (key y) then x :: y :: l'
      else y :: insert_by_name key x l'
  end.

Definition name_order {A} (key : A → string) (l : list A) : list A :=
  foldr (insert_by_name key) [] l.

(** The place of an integration status in the order of the index:
    "active" < "error" < "inactive" < "testing". *)
Definition integration_status_rank (s : IntegrationStatus) : Z :=
  match s with
  | status_active => 0
  | status_error => 1
  | status_inactive => 2
  | status_testing => 3
  end.

(** [query("apiIntegrations").withIndex("byMemberId", q => q.eq("memberId",
    memberId))]: the member's integrations in the order of the index on
    [memberId, status]. *)
Definition integrations_of (memberId : Id) (db : IntegrationsDb)
  : list (Id * ApiIntegration) :=
  index_order (λ p, integration_status_rank (int_status p.2))
    (filter (λ p, int_memberId p.2 = memberId) (live (apiIntegrations db))).

(** [query("apiQueries").withIndex("byIntegration", q =>
    q.eq("integrationId", integrationId)).collect()]: the queries of an
    integration in the order of the index on [integrationId, name]. *)
Definition queries_of (integrationId : Id) (db : IntegrationsDb)
  : list (Id * ApiQuery) :=
  name_order (λ p, q_name p.2)
    (filter (λ p, q_integrationId p.2 = integrationId) (live (apiQueries db))).

(** [secret ? "***" : undefined] *)
Definition mask (secret : option string) : option string :=
  match secret with
  | Some s => if decide (s = "") then None else Some "***"
  | None => None
  end.

(** Remove sensitive data before returning *)
Definition redact (integration : ApiIntegration) : ApiIntegration :=
  let config := int_config integration in
  {| int_memberId := int_memberId integration;
     int_name := int_name integration;
     int_provider := int_provider integration;
     int_status := int_status integration;
     int_config :=
       {| baseUrl := baseUrl config; authType := authType config;
          apiKey := mask (apiKey config);
          apiKeyHeader := apiKeyHeader config;
          bearerToken := mask (bearerToken config);
          basicAuthUsername := basicAuthUsername config;
          basicAuthPassword := mask (basicAuthPassword config);
          oauth2AccessToken := mask (oauth2AccessToken config);
          oauth2RefreshToken := mask (oauth2RefreshToken config);
          oauth2TokenExpiry := oauth2TokenExpiry config;
          host := host config; port := port config;
          database := database config; username := username config;
          password := mask (password config);
          connectionString := connectionString config;
          headers := headers config; timeout := timeout config;
          retryAttempts := retryAttempts config |};
     totalRequests := totalRequests integration;
     failedRequests := failedRequests integration;
     int_lastUsedAt := int_lastUsedAt integration;
     lastErrorAt := lastErrorAt integration;
     lastErrorMessage := lastErrorMessage integration;
     int_createdAt := int_createdAt integration;
     int_updatedAt := int_updatedAt integration |}.

Definition IntegrationNotFound : JsError := Error "Integration not found".

(** [const integration = await ctx.db.get(integrationId); if (!integration
    || integration.memberId !== memberId) throw new Error("Integration not
    found")] *)
Definition owned_integration (integrationId memberId : Id) : Handler ApiIntegration :=
  let+ integration := store_get apiIntegrationsT integrationId in
  match integration with
  | Some integration =>
      if decide (int_memberId integration = memberId) then hret integration
      else hthrow IntegrationNotFound
  | None => hthrow IntegrationNotFound
  end.

(** Get all API integrations for a member *)
Definition getApiIntegrations (memberId : Id) (status : option IntegrationStatus)
    (db : IntegrationsDb) : list ApiIntegration :=
  let query := integrations_of memberId db in
  let query :=
    match status with
    | Some status => filter (λ p, int_status p.2 = status) query
    | None => query
    end in
  (λ p, redact p.2) <$> query.

(** Get a specific API integration *)
Definition getApiIntegration (integrationId memberId : Id) : Handler ApiIntegration :=
  let+ integration := owned_integration integrationId memberId in
  hret (redact integration).

(** Helper function to get integration with secrets (internal only) *)
Definition getIntegrationWithSecrets (integrationId memberId : Id)
    (db : IntegrationsDb) : option ApiIntegration :=
  match stored (apiIntegrations db) integrationId with
  | Some integration =>
      if decide (int_memberId integration = memberId) then Some integration
      else None
  | None => None
  end.



Record IntegrationUpdates := {
  upd_name : option string;
  upd_status : option IntegrationStatus;
  upd_config : option IntegrationConfig;
}.

(** [{ ...updates, updatedAt: Date.now() }] applied to a stored document. *)
Definition apply_updates (updates : IntegrationUpdates) (now : Z)
    (doc : ApiIntegration) : ApiIntegration :=
  {| int_memberId := int_memberId doc;
     int_name := default (int_name doc) (upd_name updates);
     int_provider := int_provider doc;
     int_status := default (int_status doc) (upd_status updates);
     int_config := default (int_config doc) (upd_config updates);
     totalRequests := totalRequests doc;
     failedRequests := failedRequests doc;
     int_lastUsedAt := int_lastUsedAt doc;
     lastErrorAt := lastErrorAt doc;
     lastErrorMessage := lastErrorMessage doc;
     int_createdAt := int_createdAt doc;
     int_updatedAt := now |}.

(** Update an API integration *)
Definition updateApiIntegration (now : Z) (integrationId memberId : Id)
    (updates : IntegrationUpdates) : Handler Success :=
  let+ _ := owned_integration integrationId memberId in
  store_patch apiIntegrationsT integrationId (apply_updates updates now) ;;+
  hret {| ok := true |}.

(** Delete an API integration *)
Definition deleteApiIntegration (integrationId memberId : Id) : Handler Success :=
  let+ _ := owned_integration integrationId memberId in
  let+ queries := (λ db, (Returned (queries_of integrationId db), db)) in
  hfor_each queries (λ query, store_delete apiQueriesT query.1) ;;+
  store_delete apiIntegrationsT integrationId ;;+
  hret {| ok := true |}.

(** Get saved queries for an integration *)
Definition getApiQueries (integrationId memberId : Id) : Handler (list (Id * ApiQuery)) :=
  let+ _ := owned_integration integrationId memberId in
  λ db, (Returned (queries_of integrationId db), db).

(** Create a saved query.  [queryData] carries the caller's fields; its
    member, integration, counter and timestamps are overwritten. *)
Definition createApiQuery (now : Z) (memberId integrationId : Id)
    (queryData : ApiQuery) : Handler Id :=
  let+ _ := owned_integration integrationId memberId in
  store_insert apiQueriesT
    {| q_memberId := memberId; q_integrationId := integrationId;
       q_name := q_name queryData; q_description := q_description queryData;
       q_queryType := q_queryType queryData;
       q_endpoint := q_endpoint queryData; q_query := q_query queryData;
       q_variables := q_variables queryData;
       q_requestBody := q_requestBody queryData;
       q_cacheEnabled := q_cacheEnabled queryData;
       q_cacheTTL := q_cacheTTL queryData;
       usageCount := 0; q_lastUsedAt := None;
       q_createdAt := now; q_updatedAt := now |}.

Definition getApiQueryById (queryId memberId : Id) (db : IntegrationsDb)
  : option ApiQuery :=
  match stored (apiQueries db) queryId with
  | Some query =>
      if decide (q_memberId query = memberId) then Some query else None
  | None => None
  end.

(** The patch of [updateIntegrationStats], computed from the document
    read before it. *)
Definition stats_patch (integration : ApiIntegration) (success : bool)
    (errorMessage : option string) (now : Z) (doc : ApiIntegration)
  : ApiIntegration :=
  {| int_memberId := int_memberId doc; int_name := int_name doc;
     int_provider := int_provider doc; int_status := int_status doc;
     int_config := int_config doc;
     totalRequests := totalRequests integration + 1;
     failedRequests :=
       if success then failedRequests integration
       else failedRequests integration + 1;
     int_lastUsedAt := Some now;
     lastErrorAt := if success then lastErrorAt integration else Some now;
     lastErrorMessage :=
       if success then lastErrorMessage integration else errorMessage;
     int_createdAt := int_createdAt doc;
     int_updatedAt := now |}.

Definition updateIntegrationStats (now : Z) (integrationId : Id) (success : bool)
    (errorMessage : option string) : Handler unit :=
  let+ integration := store_get apiIntegrationsT integrationId in
  match integration with
  | None => hret tt
  | Some integration =>
      store_patch apiIntegrationsT integrationId
        (stats_patch integration success errorMessage now)
  end.

(** [now_used] and [now_updated] are the two readings of the clock. *)
Definition updateQueryUsage (now_used now_updated : Z) (queryId : Id)
  : Handler unit :=
  let+ query := store_get apiQueriesT queryId in
  match query with
  | None => hret tt
  | Some query =>
      store_patch apiQueriesT queryId
        (λ doc,
           {| q_memberId := q_memberId doc;
              q_integrationId := q_integrationId doc;
              q_name := q_name doc; q_description := q_description doc;
              q_queryType := q_queryType doc; q_endpoint := q_endpoint doc;
              q_query := q_query doc; q_variables := q_variables doc;
              q_requestBody := q_requestBody doc;
              q_cacheEnabled := q_cacheEnabled doc;
              q_cacheTTL := q_cacheTTL doc;
              usageCount := usageCount query + 1;
              q_lastUsedAt := Some now_used;
              q_createdAt := q_createdAt doc;
              q_updatedAt := now_updated |})
  end.

(** The credit cost [executeApiQuery] charges for a query that ran for
    [executionTime] milliseconds: [Math.ceil(executionTime / 100) + 1]. *)
Definition query_credit_cost (executionTime : Z) : Z :=
  - ((- executionTime) / 100) + 1.

(** The number of the member's integrations that count against the plan's
    limit: those whose status is not "inactive". *)
Definition counted_integrations (memberId : Id) (db : IntegrationsDb) : nat :=
  length (filter (λ p, int_status p.2 ≠ status_inactive)
            (integrations_of memberId db)).

(** The integration [createApiIntegration] inserts. *)
Definition new_integration (now : Z) (memberId : Id) (name : string)
    (provider : Provider) (config : IntegrationConfig) : ApiIntegration :=
  {| int_memberId := memberId; int_name := name;
     int_provider := provider; int_status := status_testing;
     int_config := config;
     totalRequests := 0; failedRequests := 0;
     int_lastUsedAt := None; lastErrorAt := None;
     lastErrorMessage := None;
     int_createdAt := now; int_updatedAt := now |}.

(** The secrets of a connection configuration. *)
Definition secrets (config : IntegrationConfig) : list (option string) :=
  [apiKey config; bearerToken config; password config;
   basicAuthPassword config; oauth2AccessToken config;
   oauth2RefreshToken config].

(** A call of [updateIntegrationStats]: clock reading, outcome, message. *)
Record StatsCall := {
  call_now : Z;
  call_success : bool;
  call_errorMessage : option string;
}.

Definition run_stats (integrationId : Id) (calls : list StatsCall)
    (db : IntegrationsDb) : IntegrationsDb :=
  foldl (λ d c,
           (updateIntegrationStats (call_now c) integrationId
              (call_success c) (call_errorMessage c) d).2)
    db calls.

Definition failures (calls : list StatsCall) : nat :=
  length (filter (λ c, call_success c = false) calls).

Definition plain_config : IntegrationConfig :=
  {| baseUrl := Some "https://example.test"; authType := Some auth_api_key;
     apiKey := Some "k-123"; apiKeyHeader := None; bearerToken := Some "";
     basicAuthUsername := None; basicAuthPassword := None;
     oauth2AccessToken := None; oauth2RefreshToken := None;
     oauth2TokenExpiry := None; host := None; port := None;
     database := None; username := None; password := None;
     connectionString := None; headers := None; timeout := None;
     retryAttempts := None |}.

Definition sample_query (integrationId : Id) (name : string) : ApiQuery :=
  {| q_memberId := 7%nat; q_integrationId := integrationId; q_name := name;
     q_description := None; q_queryType := rest_get; q_endpoint := None;
     q_query := None; q_variables := None; q_requestBody := None;
     q_cacheEnabled := false; q_cacheTTL := None; usageCount := 0;
     q_lastUsedAt := None; q_createdAt := 0; q_updatedAt := 0 |}.

(** Alice on a plan that allows two integrations, with one integration
    that has two saved queries, and one query of a deleted integration. *)
Definition integrations_db : IntegrationsDb :=
  {| idb_subscriptions := [alice_subscription];
     idb_plans := [{| maxApiIntegrations := limit 2 |}];
     apiIntegrations := [None; Some (new_integration 0 7%nat "crm" rest_api plain_config)];
     apiQueries := [Some (sample_query 1 "b"); Some (sample_query 0 "x");
                    Some (sample_query 1 "a")] |}.

(** The saved query [createApiQuery] inserts. *)
Definition new_query (now : Z) (memberId integrationId : Id) (queryData : ApiQuery)
  : ApiQuery :=
  {| q_memberId := memberId; q_integrationId := integrationId;
     q_name := q_name queryData; q_description := q_description queryData;
     q_queryType := q_queryType queryData;
     q_endpoint := q_endpoint queryData; q_query := q_query queryData;
     q_variables := q_variables queryData;
     q_requestBody := q_requestBody queryData;
     q_cacheEnabled := q_cacheEnabled queryData;
     q_cacheTTL := q_cacheTTL queryData;
     usageCount := 0; q_lastUsedAt := None;
     q_createdAt := now; q_updatedAt := now |}.

(** * Credits as JavaScript numbers

    The handlers above compute credits in [Z].  The code computes them on
    [v.number()] values, which are IEEE 754 binary64 numbers: sums and
    differences are rounded to 53 significant bits, and amounts need not
    be integers.  This part models the two ledger mutations on binary64
    numbers, with the arithmetic of the Standard Library's [SpecFloat];
    the two models agree as long as every amount is an integer and the
    absolute values of the amounts add up to less than 2^53. *)

(** A JavaScript number. *)
Definition number : Type := spec_float.

(** [a + b], [a - b], [-a], [a / b], [a < b] and [a === b] on numbers. *)
Definition num_add : number → number → number := SFadd 53 1024.
Definition num_sub : number → number → number := SFsub 53 1024.
Definition num_neg : number → number := SFopp.
Definition num_div : number → number → number := SFdiv 53 1024.
Definition num_ltb : number → number → bool := SFltb.
Definition num_eqb : number → number → bool := SFeqb.

(** The number an integer literal denotes (the nearest binary64 value). *)
Definition of_Z (z : Z) : number := binary_normalize 53 1024 z 0 false.

(** [Number.isSafeInteger]: integers of magnitude below 2^53. *)
Definition safe (z : Z) : Prop := Z.abs z < 2 ^ 53.

(** [x] is the integer [z]; zero has two representations, [0] and [-0]. *)
Definition represents (x : number) (z : Z) : Prop :=
  x = of_Z z ∨ (z = 0 ∧ x = S754_zero true).

(** The binary64 value of the integer with sign [s] and magnitude [p],
    for [p] below 2^53: [p] shifted left to 53 bits. *)
Definition canonical (s : bool) (p : positive) : number :=
  S754_finite s (Nat.iter (Z.to_nat (53 - Zpos (digits2_pos p))) xO p)
    (Zpos (digits2_pos p) - 53).

Module Binary64.

Record CreditBalance := {
  cb_memberId : Id;
  balance : number;
  lifetimeEarned : number;
  lifetimeSpent : number;
  lastResetAt : Z;
  cb_updatedAt : Z;
}.

Record CreditTransaction := {
  tx_memberId : Id;
  tx_amount : number;
  balanceAfter : number;
  tx_type : TransactionType;
  tx_description : string;
  tx_subscriptionId : option Id;
  tx_chatId : option Id;
  tx_usageRecordId : option Id;
  tx_metadata : Metadata;
  tx_createdAt : Z;
}.

(** The two tables the ledger mutations read and write. *)
Record Ledger := {
  creditBalances : list CreditBalance;
  creditTransactions : list CreditTransaction;
}.

Definition empty : Ledger :=
  {| creditBalances := []; creditTransactions := [] |}.

Record CreditResult := {
  success : bool;
  newBalance : number;
}.

Record AddCreditsArgs := {
  add_memberId : Id;
  add_amount : number;
  add_type : AllocationType;
  add_description : string;
  add_subscriptionId : option Id;
  add_metadata : Metadata;
}.

Record DeductCreditsArgs := {
  ded_memberId : Id;
  ded_amount : number;
  ded_description : string;
  ded_chatId : option Id;
  ded_usageRecordId : option Id;
  ded_metadata : Metadata;
}.

(** The query [q.eq("memberId", memberId)] on [creditBalances], [.first()]. *)
Definition balance_row (memberId : Id) (db : Ledger) : option (Id * CreditBalance) :=
  list_find (λ r, cb_memberId r = memberId) (creditBalances db).

(** Add credits to user's account.  The balance document is inserted, or
    patched at its [_id], and read back; then the transaction is
    inserted. *)
Definition addCredits (now : Z) (args : AddCreditsArgs) (db : Ledger)
  : Outcome CreditResult * Ledger :=
  let memberId := add_memberId args in
  let amount := add_amount args in
  let written :=
    match balance_row memberId db with
    | None =>
        let doc :=
          {| cb_memberId := memberId; balance := amount;
             lifetimeEarned := amount; lifetimeSpent := of_Z 0;
             lastResetAt := now; cb_updatedAt := now |} in
        (doc, creditBalances db ++ [doc])
    | Some (_id, b) =>
        let doc :=
          {| cb_memberId := cb_memberId b;
             balance := num_add (balance b) amount;
             lifetimeEarned := num_add (lifetimeEarned b) amount;
             lifetimeSpent := lifetimeSpent b;
             lastResetAt := lastResetAt b; cb_updatedAt := now |} in
        (doc, <[_id := doc]> (creditBalances db))
    end in
  (Returned {| success := true; newBalance := balance written.1 |},
   {| creditBalances := written.2;
      creditTransactions := creditTransactions db ++
        [{| tx_memberId := memberId; tx_amount := amount;
            balanceAfter := balance written.1;
            tx_type := transaction_type_of (add_type args);
            tx_description := add_description args;
            tx_subscriptionId := add_subscriptionId args;
            tx_chatId := None; tx_usageRecordId := None;
            tx_metadata := add_metadata args; tx_createdAt := now |}] |}).

(** Deduct credits for usage *)
Definition deductCredits (now : Z) (args : DeductCreditsArgs) (db : Ledger)
  : Outcome CreditResult * Ledger :=
  match balance_row (ded_memberId args) db with
  | None => (Thrown InsufficientCredits, db)
  | Some (_id, b) =>
      if num_ltb (balance b) (ded_amount args)
      then (Thrown InsufficientCredits, db)
      else
        let newBalance := num_sub (balance b) (ded_amount args) in
        (Returned {| success := true; newBalance := newBalance |},
         {| creditBalances :=
              <[_id := {| cb_memberId := cb_memberId b; balance := newBalance;
                          lifetimeEarned := lifetimeEarned b;
                          lifetimeSpent :=
                            num_add (lifetimeSpent b) (ded_amount args);
                          lastResetAt := lastResetAt b;
                          cb_updatedAt := now |}]> (creditBalances db);
            creditTransactions := creditTransactions db ++
              [{| tx_memberId := ded_memberId args;
                  tx_amount := num_neg (ded_amount args);
                  balanceAfter := newBalance;
                  tx_type := usage_deduction;
                  tx_description := ded_description args;
                  tx_subscriptionId := None;
                  tx_chatId := ded_chatId args;
                  tx_usageRecordId := ded_usageRecordId args;
                  tx_metadata := ded_metadata args; tx_createdAt := now |}] |})
  end.

(** Get user's credit balance: the member's row, or zeros. *)
Definition getCreditBalance (memberId : Id) (db : Ledger) : number * number * number :=
  match balance_row memberId db with
  | Some (_, b) => (balance b, lifetimeEarned b, lifetimeSpent b)
  | None => (of_Z 0, of_Z 0, of_Z 0)
  end.

Definition current_balance (memberId : Id) (db : Ledger) : number :=
  (getCreditBalance memberId db).1.1.

(** Get credit transaction history *)
Definition getCreditTransactions (memberId : Id) (limit : option nat) (db : Ledger)
  : list CreditTransaction :=
  take (default 50%nat limit)
    (reverse
       (index_order tx_createdAt
          (filter (λ t, tx_memberId t = memberId) (creditTransactions db)))).

Inductive LedgerOp :=
  | OpAdd (now : Z) (args : AddCreditsArgs)
  | OpDeduct (now : Z) (args : DeductCreditsArgs).

(** The ledger after one operation, whether it returned or threw. *)
Definition apply_op (op : LedgerOp) (db : Ledger) : Ledger :=
  match op with
  | OpAdd now args => (addCredits now args db).2
  | OpDeduct now args => (deductCredits now args db).2
  end.

Definition run_ops (ops : list LedgerOp) (db : Ledger) : Ledger :=
  foldl (λ d op, apply_op op d) db ops.

Definition op_amount (op : LedgerOp) : number :=
  match op with
  | OpAdd _ args => add_amount args
  | OpDeduct _ args => ded_amount args
  end.

(** [txs.reduce((sum, t) => sum + t.amount, 0)] *)
Definition total_amount (txs : list CreditTransaction) : number :=
  foldl (λ sum t, num_add sum (tx_amount t)) (of_Z 0) txs.

(** The amounts of a member's transactions, added up in the order the
    transactions were written. *)
Definition sum_amounts (memberId : Id) (txs : list CreditTransaction) : number :=
  total_amount (filter (λ t, tx_memberId t = memberId) txs).

(** [balance === lifetimeEarned - lifetimeSpent] *)
Definition balance_equation (b : CreditBalance) : Prop :=
  num_eqb (balance b) (num_sub (lifetimeEarned b) (lifetimeSpent b)) = true.

(** The balance document written by the first [addCredits] of a member,
    and the one after [addCredits] patched [b]. *)
Definition created_balance (now : Z) (args : AddCreditsArgs) : CreditBalance :=
  {| cb_memberId := add_memberId args; balance := add_amount args;
     lifetimeEarned := add_amount args; lifetimeSpent := of_Z 0;
     lastResetAt := now; cb_updatedAt := now |}.

Definition credited_balance (now : Z) (args : AddCreditsArgs) (b : CreditBalance)
  : CreditBalance :=
  {| cb_memberId := cb_memberId b;
     balance := num_add (balance b) (add_amount args);
     lifetimeEarned := num_add (lifetimeEarned b) (add_amount args);
     lifetimeSpent := lifetimeSpent b;
     lastResetAt := lastResetAt b; cb_updatedAt := now |}.

(** Sample calls: a bonus for Alice and a charge on her. *)
Definition grant (amount : number) : AddCreditsArgs :=
  {| add_memberId := alice; add_amount := amount; add_type := alloc_bonus;
     add_description := "bonus"; add_subscriptionId := None;
     add_metadata := None |}.

Definition charge (amount : number) : DeductCreditsArgs :=
  {| ded_memberId := alice; ded_amount := amount;
     ded_description := "api_call usage"; ded_chatId := None;
     ded_usageRecordId := None; ded_metadata := None |}.

(** [1/10] and [2/10], the numbers JavaScript writes [0.1] and [0.2]. *)
Definition tenth : number := num_div (of_Z 1) (of_Z 10).
Definition fifth : number := num_div (of_Z 2) (of_Z 10).

End Binary64.

(** ** The integer ledger as a view of the binary64 ledger *)

Definition balance_represents (f : Binary64.CreditBalance) (d : CreditBalance)
  : Prop :=
  Binary64.cb_memberId f = cb_memberId d
  ∧ represents (Binary64.balance f) (balance d)
  ∧ represents (Binary64.lifetimeEarned f) (lifetimeEarned d)
  ∧ represents (Binary64.lifetimeSpent f) (lifetimeSpent d).

Definition transaction_represents (f : Binary64.CreditTransaction)
    (d : CreditTransaction) : Prop :=
  Binary64.tx_memberId f = tx_memberId d
  ∧ represents (Binary64.tx_amount f) (tx_amount d)
  ∧ represents (Binary64.balanceAfter f) (balanceAfter d)
  ∧ Binary64.tx_createdAt f = tx_createdAt d.

Definition ledger_represents (f : Binary64.Ledger) (d : Db) : Prop :=
  Forall2 balance_represents (Binary64.creditBalances f) (creditBalances d)
  ∧ Forall2 transaction_represents
      (Binary64.creditTransactions f) (creditTransactions d).

(** The arguments on integers that arguments on numbers stand for when
    their amount is the integer [z]. *)
Definition exact_add (args : Binary64.AddCreditsArgs) (z : Z) : AddCreditsArgs :=
  {| add_memberId := Binary64.add_memberId args; add_amount := z;
     add_type := Binary64.add_type args;
     add_description := Binary64.add_description args;
     add_subscriptionId := Binary64.add_subscriptionId args;
     add_metadata := Binary64.add_metadata args |}.

Definition exact_deduct (args : Binary64.DeductCreditsArgs) (z : Z)
  : DeductCreditsArgs :=
  {| ded_memberId := Binary64.ded_memberId args; ded_amount := z;
     ded_description := Binary64.ded_description args;
     ded_chatId := Binary64.ded_chatId args;
     ded_usageRecordId := Binary64.ded_usageRecordId args;
     ded_metadata := Binary64.ded_metadata args |}.

Definition exact_op (op : Binary64.LedgerOp) (z : Z) : LedgerOp :=
  match op with
  | Binary64.OpAdd now args => OpAdd now (exact_add args z)
  | Binary64.OpDeduct now args => OpDeduct now (exact_deduct args z)
  end.

(** The amounts of the operations [ops] are the integers [amounts]. *)
Definition integer_amounts (ops : list Binary64.LedgerOp) (amounts : list Z)
  : Prop :=
  Forall2 (λ op z, represents (Binary64.op_amount op) z) ops amounts.

(** The absolute values of a list of integers, added up. *)
Definition magnitude (zs : list Z) : Z := foldr (λ z acc, Z.abs z + acc) 0 zs.

(** Every stored total, and the amounts of the log together, are within
    the bound [B]. *)
Definition within (B : Z) (d : Db) : Prop :=
  Forall (λ b, Z.abs (balance b) ≤ B ∧ Z.abs (lifetimeEarned b) ≤ B
               ∧ Z.abs (lifetimeSpent b) ≤ B) (creditBalances d)
  ∧ magnitude (tx_amount <$> creditTransactions d) ≤ B.

(** ** Sample runs on numbers *)

Definition binary64_sample_ops : list Binary64.LedgerOp :=
  [Binary64.OpAdd 1 (Binary64.grant (of_Z 150));
   Binary64.OpDeduct 2 (Binary64.charge (of_Z 100));
   Binary64.OpDeduct 3 (Binary64.charge (of_Z 100))].

(** [Number.MAX_SAFE_INTEGER] *)
Definition max_safe_integer : Z := 2 ^ 53 - 1.

(** Grant 2^53 - 1, charge 2^53 - 1, grant 2. *)
Definition rounding_ops : list Binary64.LedgerOp :=
  [Binary64.OpAdd 1 (Binary64.grant (of_Z max_safe_integer));
   Binary64.OpDeduct 2 (Binary64.charge (of_Z max_safe_integer));
   Binary64.OpAdd 3 (Binary64.grant (of_Z 2))].

(** Grant 0.1, charge 0.1, grant 0.2. *)
Definition fraction_ops : list Binary64.LedgerOp :=
  [Binary64.OpAdd 1 (Binary64.grant Binary64.tenth);
   Binary64.OpDeduct 2 (Binary64.charge Binary64.tenth);
   Binary64.OpAdd 3 (Binary64.grant Binary64.fifth)].

(** ** Exact values *)

(** The integer a number is, if it is one. *)
Definition to_Z (x : number) : option Z :=
  match x with
  | S754_zero _ => Some 0
  | S754_finite s m e =>
      if 0 <=? e then Some (cond_Zopp s (Zpos m * 2 ^ e))
      else if Zpos m mod 2 ^ (- e) =? 0
           then Some (cond_Zopp s (Zpos m / 2 ^ (- e)))
           else None
  | _ => None
  end.

(** The exact sum of the amounts of a list of transactions, when all of
    them are integers. *)
Definition exact_total (txs : list Binary64.CreditTransaction) : option Z :=
  foldr (λ t acc,
           match to_Z (Binary64.tx_amount t), acc with
           | Some z, Some s => Some (z + s)
           | _, _ => None
           end) (Some 0) txs.

(** The transactions of a member, oldest first. *)
Definition transactions_of (memberId : Id) (db : Binary64.Ledger)
  : list Binary64.CreditTransaction :=
  filter (λ t, Binary64.tx_memberId t = memberId) (Binary64.creditTransactions db).

(** Grant 2^53, then grant 1. *)
Definition overflow_ops : list Binary64.LedgerOp :=
  [Binary64.OpAdd 1 (Binary64.grant (of_Z (2 ^ 53)));
   Binary64.OpAdd 2 (Binary64.grant (of_Z 1))].

(** [3/10], the number JavaScript writes [0.3]. *)
Definition three_tenths : number := num_div (of_Z 3) (of_Z 10).

(** Grant 0.1, grant 0.2, grant 0.3. *)
Definition fraction_grants : list Binary64.LedgerOp :=
  [Binary64.OpAdd 1 (Binary64.grant Binary64.tenth);
   Binary64.OpAdd 2 (Binary64.grant Binary64.fifth);
   Binary64.OpAdd 3 (Binary64.grant three_tenths)].

(** * Verification *)

(** ** What one ledger call does *)

Section LedgerEquations.
Variable db : Db.
Variable now : Z.

Lemma addCredits_absent args :
  list_find (λ r, cb_memberId r = add_memberId args) (creditBalances db) = None →
  addCredits now args db =
    (Returned {| success := true; newBalance := add_amount args |},
     ledger_write db (creditBalances db ++ [created_balance now args])
       (credit_transaction now args (add_amount args))).
Proof.
  intros Hnone.
  unfold addCredits, balance_of_member, db_first, bind; simpl.
  rewrite Hnone; simpl.
  unfold db_get, db_insert, bind; simpl.
  rewrite list_lookup_middle by reflexivity.
  reflexivity.
Qed.

Lemma addCredits_present args i b :
  list_find (λ r, cb_memberId r = add_memberId args) (creditBalances db)
    = Some (i, b) →
  addCredits now args db =
    (Returned {| success := true; newBalance := balance b + add_amount args |},
     ledger_write db (<[i := credited_balance now args b]> (creditBalances db))
       (credit_transaction now args (balance b + add_amount args))).
Proof.
  intros Hsome.
  pose proof Hsome as (Hi & _ & _)%list_find_Some.
  unfold addCredits, balance_of_member, db_first, bind; simpl.
  rewrite Hsome; simpl.
  unfold db_patch, db_get, db_insert, bind; simpl.
  rewrite Hi; simpl.
  rewrite list_lookup_insert_eq by eauto using lookup_lt_Some.
  reflexivity.
Qed.

Lemma deductCredits_absent args :
  list_find (λ r, cb_memberId r = ded_memberId args) (creditBalances db) = None →
  deductCredits now args db = (Thrown InsufficientCredits, db).
Proof.
  intros Hnone.
  unfold deductCredits, balance_of_member, db_first, bind; simpl.
  by rewrite Hnone.
Qed.

Lemma deductCredits_short args i b :
  list_find (λ r, cb_memberId r = ded_memberId args) (creditBalances db)
    = Some (i, b) →
  balance b < ded_amount args →
  deductCredits now args db = (Thrown InsufficientCredits, db).
Proof.
  intros Hsome Hlt.
  unfold deductCredits, balance_of_member, db_first, bind; simpl.
  rewrite Hsome; simpl.
  apply Z.ltb_lt in Hlt. by rewrite Hlt.
Qed.

Lemma deductCredits_covered args i b :
  list_find (λ r, cb_memberId r = ded_memberId args) (creditBalances db)
    = Some (i, b) →
  ded_amount args ≤ balance b →
  deductCredits now args db =
    (Returned {| success := true; newBalance := balance b - ded_amount args |},
     ledger_write db (<[i := debited_balance now args b]> (creditBalances db))
       (debit_transaction now args (balance b - ded_amount args))).
Proof.
  intros Hsome Hle.
  pose proof Hsome as (Hi & _ & _)%list_find_Some.
  unfold deductCredits, balance_of_member, db_first, bind; simpl.
  rewrite Hsome; simpl.
  destruct (Z.ltb_spec (balance b) (ded_amount args)) as [?|_]; [lia|].
  unfold db_patch, db_insert, bind; simpl.
  by rewrite Hi.
Qed.
End LedgerEquations.

(** ** Finding the first matching row after a write *)

Section FindAfterWrite.
Context {A : Type} (P : A → Prop) `{!∀ x, Decision (P x)}.

Lemma find_insert_self (l : list A) i b x :
  list_find P l = Some (i, b) → P x →
  list_find P (<[i := x]> l) = Some (i, x).
Proof.
  intros (Hi & _ & Hleast)%list_find_Some Hx.
  apply list_find_insert_Some. right; left.
  split_and!; eauto using lookup_lt_Some.
Qed.

Lemma find_insert_other (l : list A) i b x :
  l !! i = Some b → ¬ P b → ¬ P x →
  list_find P (<[i := x]> l) = list_find P l.
Proof.
  revert i. induction l as [|y l IH]; intros [|i] Hi Hb Hx; simplify_eq/=.
  - by rewrite !decide_False.
  - case_decide; [done|]. by rewrite (IH i).
Qed.

Lemma find_snoc_other (l : list A) x :
  ¬ P x → list_find P (l ++ [x]) = list_find P l.
Proof.
  intros Hx. induction l as [|y l IH]; simpl.
  - by rewrite decide_False.
  - case_decide; [done|]. by rewrite IH.
Qed.

Lemma find_snoc_fresh (l : list A) x :
  list_find P l = None → P x →
  list_find P (l ++ [x]) = Some (length l, x).
Proof.
  intros Hnone Hx. rewrite list_find_app_r by done. simpl.
  rewrite decide_True by done. simpl. done.
Qed.
End FindAfterWrite.

(** ** The rows after one ledger operation *)

Lemma allocateMonthlyCredits_skips now m sid db :
  (∀ sub, subscriptions db !! sid = Some sub →
          subscriptionPlans db !! sub_planId sub = None) →
  allocateMonthlyCredits now m sid db = (Returned tt, db).
Proof.
  intros Hskip. unfold allocateMonthlyCredits, db_get, bind, ret; simpl.
  destruct (subscriptions db !! sid) as [sub|]; [|done].
  by rewrite Hskip.
Qed.

Lemma allocateMonthlyCredits_grants now m sid db sub plan :
  subscriptions db !! sid = Some sub →
  subscriptionPlans db !! sub_planId sub = Some plan →
  allocateMonthlyCredits now m sid db =
    let r := addCredits now
               (monthly_args m sid plan (credits_to_add plan (balance_row m db))) db in
    (match r.1 with Returned _ => Returned tt | Thrown e => Thrown e end, r.2).
Proof.
  intros Hsub Hplan.
  unfold allocateMonthlyCredits, db_get, bind at 1 2; simpl.
  rewrite Hsub, Hplan.
  unfold balance_of_member, db_first, bind at 1; simpl.
  unfold credits_to_add, balance_row, monthly_args, bind, ret.
  destruct (list_find _ (creditBalances db)) as [[i b]|]; simpl;
    repeat case_match; simplify_eq/=; done.
Qed.

Lemma addCredits_step now args db : ledger_step db (addCredits now args db).2.
Proof.
  destruct (balance_row (add_memberId args) db) as [[i b]|] eqn:Hrow.
  - rewrite (addCredits_present _ _ _ _ _ Hrow). by eapply step_credited.
  - rewrite (addCredits_absent _ _ _ Hrow). by eapply step_created.
Qed.

Lemma deductCredits_step now args db : ledger_step db (deductCredits now args db).2.
Proof.
  destruct (balance_row (ded_memberId args) db) as [[i b]|] eqn:Hrow.
  - destruct (Z.lt_ge_cases (balance b) (ded_amount args)).
    + rewrite (deductCredits_short _ _ _ _ _ Hrow) by done. constructor.
    + rewrite (deductCredits_covered _ _ _ _ _ Hrow) by done.
      by eapply step_debited.
  - rewrite (deductCredits_absent _ _ _ Hrow). constructor.
Qed.

Lemma allocateMonthlyCredits_step now m sid db :
  ledger_step db (allocateMonthlyCredits now m sid db).2.
Proof.
  destruct (subscriptions db !! sid) as [sub|] eqn:Hsub.
  - destruct (subscriptionPlans db !! sub_planId sub) as [plan|] eqn:Hplan.
    + rewrite (allocateMonthlyCredits_grants _ _ _ _ _ _ Hsub Hplan); simpl.
      apply addCredits_step.
    + rewrite allocateMonthlyCredits_skips; [constructor|].
      intros sub' Hsub'. by simplify_eq.
  - rewrite allocateMonthlyCredits_skips; [constructor|].
    intros sub' Hsub'. by simplify_eq.
Qed.

Lemma apply_op_step op db : ledger_step db (apply_op op db).
Proof.
  destruct op; simpl;
    auto using addCredits_step, deductCredits_step, allocateMonthlyCredits_step.
Qed.

Lemma run_ops_snoc ops op db :
  run_ops (ops ++ [op]) db = apply_op op (run_ops ops db).
Proof. unfold run_ops. by rewrite foldl_app. Qed.

(** An invariant of single steps holds after every prefix of a run. *)
Lemma run_ops_invariant (I : Db → Prop) :
  (∀ db db', I db → ledger_step db db' → I db') →
  ∀ ops db n, I db → I (run_ops (take n ops) db).
Proof.
  intros Hstep ops db n Hdb.
  induction (take n ops) as [|op done' IH] using rev_ind; [done|].
  rewrite run_ops_snoc. eauto using apply_op_step.
Qed.

Lemma ledger_step_consistent db db' :
  ledger_consistent db → ledger_step db db' → ledger_consistent db'.
Proof.
  unfold ledger_consistent.
  intros Hdb [|now args Hrow|now args i b Hrow|now args i b Hrow Hle]; simpl;
    [done|..].
  - apply Forall_app; split; [done|].
    constructor; [|constructor]. unfold balance_equation; simpl. lia.
  - apply list_find_Some in Hrow as (Hi & _ & _).
    apply Forall_insert; [done|].
    pose proof (Forall_lookup_1 _ _ _ _ Hdb Hi) as Hb.
    unfold balance_equation in *; simpl. lia.
  - apply list_find_Some in Hrow as (Hi & _ & _).
    apply Forall_insert; [done|].
    pose proof (Forall_lookup_1 _ _ _ _ Hdb Hi) as Hb.
    unfold balance_equation in *; simpl. lia.
Qed.

(** ** Rejected deductions *)

(** C2: [deductCredits] throws "Insufficient credits" exactly when the
    member has no balance row or the row's balance is strictly less than the
    requested amount; it throws nothing else, and when it throws the
    database (balance rows and transaction log included) is unchanged. *)
Theorem deductCredits_rejects_exactly (now : Z) (args : DeductCreditsArgs) (db : Db) :
  ((deductCredits now args db).1 = Thrown InsufficientCredits ↔
     balance_row (ded_memberId args) db = None
     ∨ ∃ i b, balance_row (ded_memberId args) db = Some (i, b)
              ∧ balance b < ded_amount args)
  ∧ (∀ e, (deductCredits now args db).1 = Thrown e →
          e = InsufficientCredits ∧ (deductCredits now args db).2 = db).
Proof.
  destruct (balance_row (ded_memberId args) db) as [[i b]|] eqn:Hrow.
  - destruct (Z.lt_ge_cases (balance b) (ded_amount args)) as [Hlt|Hge].
    + rewrite (deductCredits_short _ _ _ _ _ Hrow Hlt); simpl.
      split; [|by intros e [= <-]].
      split; [|done]. intros _. right. by exists i, b.
    + rewrite (deductCredits_covered _ _ _ _ _ Hrow Hge); simpl.
      split; [|done].
      split; [done|]. intros [[=]|(i' & b' & [= -> ->] & Hlt)]. lia.
  - rewrite (deductCredits_absent _ _ _ Hrow); simpl.
    split; [|by intros e [= <-]].
    split; [by left|done].
Qed.

(** ** Reconciling the transaction log with the balance *)

Lemma sum_amounts_snoc m txs t :
  sum_amounts m (txs ++ [t]) =
    sum_amounts m txs + (if decide (tx_memberId t = m) then tx_amount t else 0).
Proof.
  induction txs as [|t' txs IH]; simpl.
  - case_decide; lia.
  - rewrite IH. repeat case_decide; lia.
Qed.

Lemma current_balance_row m db :
  current_balance m db =
    match balance_row m db with Some (_, b) => balance b | None => 0 end.
Proof.
  unfold current_balance, getCreditBalance, balance_row.
  by destruct (list_find _ _) as [[??]|].
Qed.

Lemma current_balance_ledger_write m db bals t :
  current_balance m (ledger_write db bals t) =
    match list_find (λ r, cb_memberId r = m) bals with
    | Some (_, b) => balance b
    | None => 0
    end.
Proof. by rewrite current_balance_row. Qed.

(** What a step does to the log and to the balances readers see. *)
Lemma ledger_step_effect db db' :
  ledger_step db db' →
  db' = db
  ∨ ∃ t, creditTransactions db' = creditTransactions db ++ [t]
         ∧ balanceAfter t = current_balance (tx_memberId t) db'
         ∧ current_balance (tx_memberId t) db'
             = current_balance (tx_memberId t) db + tx_amount t
         ∧ ∀ m, m ≠ tx_memberId t → current_balance m db' = current_balance m db.
Proof.
  intros [|now args Hrow|now args i b Hrow|now args i b Hrow Hle];
    [by left|right; eexists; (split; [reflexivity|])..]; simpl.
  - rewrite !current_balance_ledger_write, current_balance_row, Hrow.
    rewrite find_snoc_fresh by done. split_and!; [done|simpl; lia|].
    intros m Hm. rewrite current_balance_ledger_write, current_balance_row.
    rewrite find_snoc_other by (simpl; congruence). done.
  - pose proof Hrow as (Hi & Hb & _)%list_find_Some.
    rewrite !current_balance_ledger_write, current_balance_row, Hrow.
    rewrite (find_insert_self _ _ _ _ _ Hrow) by done.
    split_and!; [done..|].
    intros m Hm. rewrite current_balance_ledger_write, current_balance_row.
    rewrite (find_insert_other _ _ _ _ _ Hi) by (simpl; congruence). done.
  - pose proof Hrow as (Hi & Hb & _)%list_find_Some.
    rewrite !current_balance_ledger_write, current_balance_row, Hrow.
    rewrite (find_insert_self _ _ _ _ _ Hrow) by done.
    split_and!; [done|simpl; lia|].
    intros m Hm. rewrite current_balance_ledger_write, current_balance_row.
    rewrite (find_insert_other _ _ _ _ _ Hi) by (simpl; congruence). done.
Qed.

Lemma ledger_step_reconciles db db' :
  ledger_reconciles db → ledger_step db db' → ledger_reconciles db'.
Proof.
  intros [Hlog Hsnap] [->|(t & Htx & Hafter & Hbal & Hothers)]%ledger_step_effect;
    [done|].
  assert (log_reconciles db') as Hlog'.
  { intros m. rewrite Htx, sum_amounts_snoc.
    case_decide as Hm.
    - subst m. rewrite Hbal, Hlog. done.
    - rewrite Hothers by done. rewrite Hlog. lia. }
  split; [done|].
  intros pre t' post Heq. rewrite Htx in Heq.
  destruct (decide (post = [])) as [->|Hpost].
  - apply app_inj_tail in Heq as [<- <-].
    rewrite Hafter, <- Htx. apply Hlog'.
  - destruct (exists_last Hpost) as (post' & last' & ->).
    rewrite app_comm_cons, app_assoc in Heq.
    apply app_inj_tail in Heq as [Heq _]. by apply (Hsnap _ _ post').
Qed.

(** ** Non-negative balances *)

Lemma ledger_step_frame db db' :
  ledger_step db db' →
  subscriptionPlans db' = subscriptionPlans db
  ∧ subscriptions db' = subscriptions db
  ∧ usageRecords db' = usageRecords db.
Proof. by intros []. Qed.












(** ** Monthly allocation with rollover *)




(** ** Usage recording *)

(** [deductCredits] either returns after one ledger write or throws
    "Insufficient credits" without writing. *)
Lemma deductCredits_outcome now args db :
  (∃ r bals t, deductCredits now args db = (Returned r, ledger_write db bals t))
  ∨ deductCredits now args db = (Thrown InsufficientCredits, db).
Proof.
  destruct (balance_row (ded_memberId args) db) as [[i b]|] eqn:Hrow.
  - destruct (Z.lt_ge_cases (balance b) (ded_amount args)) as [Hlt|Hge].
    + right. by apply (deductCredits_short _ _ _ _ _ Hrow).
    + left. rewrite (deductCredits_covered _ _ _ _ _ Hrow Hge). eauto.
  - right. by apply deductCredits_absent.
Qed.

Lemma recordUsage_unfold now now_deduct args db :
  recordUsage now now_deduct args db =
    let id := length (usageRecords db) in
    match deductCredits now_deduct (deduction_for_usage args id)
            (usage_inserted now args db) with
    | (Returned _, db1) =>
        (Returned {| ru_success := true; usageRecordId := id |}, db1)
    | (Thrown e, db1) =>
        match db_patch usageRecordsT id
                (with_metadata (Some (failure_metadata args e))) db1 with
        | (Returned _, db2) => (Thrown e, db2)
        | (Thrown e', db2) => (Thrown e', db2)
        end
    end.
Proof.
  unfold recordUsage, bind at 1, db_insert; simpl.
  unfold bind at 1, try_catch.
  change (with_rows usageRecordsT _ db) with (usage_inserted now args db).
  change {| ded_memberId := _ |}
    with (deduction_for_usage args (length (usageRecords db))).
  destruct (deductCredits _ _ _) as [[r|e] db1]; [done|].
  unfold bind, throw.
  change (λ doc : UsageRecord, _)
    with (with_metadata (Some (failure_metadata args e))).
  by destruct (db_patch _ _ _ _) as [[[]|e'] db2].
Qed.

(** C7: the handler of [recordUsage] inserts one usage record and, when
    [deductCredits] throws, patches that record's metadata to hold
    [creditDeductionFailed: true] and [error: String(error)] next to the
    caller's keys, writes no balance and no transaction, and throws the
    same error.  But [recordUsage] is a mutation, so the error it throws
    undoes the insert and the patch: the call leaves the database as it
    found it, with no usage record of the failed attempt. *)
Theorem recordUsage_failure_is_rolled_back
    (now now_deduct : Z) (args : RecordUsageArgs) (db : Db) (e : JsError) :
  (deductCredits now_deduct
     (deduction_for_usage args (length (usageRecords db)))
     (usage_inserted now args db)).1 = Thrown e →
  (∃ db1 md,
     recordUsage now now_deduct args db = (Thrown e, db1)
     ∧ usageRecords db1
       = usageRecords db ++ [with_metadata (Some md) (usage_record now args)]
     ∧ md !! "creditDeductionFailed" = Some (JsBool true)
     ∧ md !! "error" = Some (JsString (String_of e))
     ∧ (∀ k, k ≠ "creditDeductionFailed" → k ≠ "error" →
             md !! k = spread (ru_metadata args) !! k)
     ∧ creditBalances db1 = creditBalances db
     ∧ creditTransactions db1 = creditTransactions db)
  ∧ mutation (recordUsage now now_deduct args) db = (Thrown e, db)
  ∧ usageRecords (mutation (recordUsage now now_deduct args) db).2
    = usageRecords db.
Proof.
  intros Hthrown.
  assert (recordUsage now now_deduct args db
          = (Thrown e,
             with_rows usageRecordsT
               (usageRecords db ++
                  [with_metadata (Some (failure_metadata args e))
                     (usage_record now args)]) db)) as Hrun.
  { rewrite recordUsage_unfold. cbv zeta.
    destruct (deductCredits_outcome now_deduct
                (deduction_for_usage args (length (usageRecords db)))
                (usage_inserted now args db)) as [(r & bals & t & Hrun)|Hrun];
      rewrite Hrun in Hthrown |- *; simpl in Hthrown; simplify_eq.
    unfold db_patch; simpl.
    rewrite list_lookup_middle by done. simpl.
    by rewrite insert_app_r_alt, Nat.sub_diag by done. }
  split_and!.
  - eexists _, (failure_metadata args e). split; [exact Hrun|]. simpl.
    unfold failure_metadata. split_and!; try done.
    + rewrite lookup_insert_ne by done. apply lookup_insert_eq.
    + apply lookup_insert_eq.
    + intros k Hk1 Hk2. by rewrite !lookup_insert_ne.
  - unfold mutation. by rewrite Hrun.
  - unfold mutation. by rewrite Hrun.
Qed.

Lemma recordUsage_failure_is_rolled_back_witness :
  usageRecords (starter_db None) = []
  ∧ (∃ db1, recordUsage 5 6 (sample_usage 99999) (starter_db None)
            = (Thrown InsufficientCredits, db1)
            ∧ length (usageRecords db1) = 1%nat)
  ∧ mutation (recordUsage 5 6 (sample_usage 99999)) (starter_db None)
    = (Thrown InsufficientCredits, starter_db None).
Proof.
  destruct (recordUsage_failure_is_rolled_back 5 6 (sample_usage 99999)
              (starter_db None) InsufficientCredits eq_refl)
    as ((db1 & md & Hrun & Hrecords & _) & Hcommitted & _).
  split_and!; [reflexivity| |exact Hcommitted].
  exists db1. split; [exact Hrun|]. by rewrite Hrecords.
Defined.

(** ** Subscriptions *)

(** The cancel loop, run on the rows [rest] that follow the already
    visited rows [visited]. *)
Lemma cancel_loop m now rest :
  ∀ visited db,
    subscriptions db = visited ++ rest →
    for_each
      (filter (λ p, active_of m p.2)
         (imap (λ i s, ((length visited + i)%nat, s)) rest))
      (λ sub, db_patch subscriptionsT sub.1 (set_status cancelled now)) db
    = (Returned tt,
       with_rows subscriptionsT (visited ++ (cancel_if_active m now <$> rest)) db).
Proof.
  induction rest as [|s rest IH]; intros visited db Hrows; simpl.
  - unfold ret. f_equal. destruct db; simpl in *. by rewrite Hrows.
  - rewrite filter_cons. unfold cancel_if_active at 1; simpl.
    assert (∀ v : Subscription,
              imap ((λ i s0, ((length visited + i)%nat, s0)) ∘ S) rest
              = imap (λ i s0, ((length (visited ++ [v]) + i)%nat, s0)) rest)
      as Hshift.
    { intros v. apply imap_ext. intros i x _. simpl.
      rewrite length_app. simpl. f_equal. lia. }
    case_decide as Hactive.
    + simpl. unfold bind at 1, db_patch at 1; simpl.
      rewrite Hrows, Nat.add_0_r, list_lookup_middle by done.
      rewrite insert_app_r_alt, Nat.sub_diag by done. simpl.
      rewrite (Hshift (set_status cancelled now s)).
      rewrite IH by (simpl; by rewrite <- app_assoc).
      simpl. by rewrite <- app_assoc.
    + rewrite (Hshift s).
      rewrite IH by (by rewrite <- app_assoc).
      by rewrite <- app_assoc.
Qed.

Lemma cancel_loop_all m now db :
  for_each (filter (λ p, active_of m p.2) (imap pair (subscriptions db)))
    (λ sub, db_patch subscriptionsT sub.1 (set_status cancelled now)) db
  = (Returned tt,
     with_rows subscriptionsT (cancel_if_active m now <$> subscriptions db) db).
Proof.
  exact (cancel_loop m now (subscriptions db) [] db eq_refl).
Qed.

Lemma createSubscription_found now args db plan :
  subscriptionPlans db !! cs_planId args = Some plan →
  createSubscription now args db =
    (Returned (length (subscriptions db)),
     (schedule_allocation (cs_memberId args) (length (subscriptions db))
        (with_rows subscriptionsT
           ((cancel_if_active (cs_memberId args) now <$> subscriptions db)
              ++ [new_subscription now args]) db)).2).
Proof.
  intros Hplan.
  unfold createSubscription, bind at 1, db_get; simpl. rewrite Hplan.
  unfold bind at 1, db_collect; simpl.
  unfold bind at 1.
  rewrite cancel_loop_all.
  simpl. unfold bind, db_insert, schedule_allocation, ret; simpl.
  by rewrite length_fmap.
Qed.

Lemma cancel_if_active_inactive m now s :
  ¬ active_of m (cancel_if_active m now s).
Proof.
  unfold cancel_if_active. case_decide; [|done].
  unfold active_of; simpl. by intros [_ ?].
Qed.

(** C8: when the plan exists, [createSubscription] returns, and in the
    resulting table every pre-existing subscription is still there under
    its id (nothing is deleted), the member's previously active ones with
    status "cancelled" and only [status] and [updatedAt] changed, all
    others untouched; the new subscription is appended after them; and at
    most one subscription of the member is active, which can only be the
    new one. *)
Theorem createSubscription_cancels_active
    (now : Z) (args : CreateSubscriptionArgs) (db : Db) (plan : Plan) :
  subscriptionPlans db !! cs_planId args = Some plan →
  ∃ db',
    createSubscription now args db = (Returned (length (subscriptions db)), db')
    ∧ length (subscriptions db') = S (length (subscriptions db))
    ∧ (∀ i s, subscriptions db !! i = Some s →
              subscriptions db' !! i
              = Some (if decide (active_of (cs_memberId args) s)
                      then set_status cancelled now s else s))
    ∧ (∀ i s, subscriptions db !! i = Some s →
              active_of (cs_memberId args) s →
              ∃ s', subscriptions db' !! i = Some s'
                    ∧ sub_status s' = cancelled)
    ∧ subscriptions db' !! length (subscriptions db)
      = Some (new_subscription now args)
    ∧ at_most_one_active (cs_memberId args) (subscriptions db')
    ∧ (∀ i s, subscriptions db' !! i = Some s →
              active_of (cs_memberId args) s →
              i = length (subscriptions db)).
Proof.
  intros Hplan. rewrite (createSubscription_found _ _ _ _ Hplan).
  eexists. split; [reflexivity|]. simpl.
  set (m := cs_memberId args).
  set (old := cancel_if_active m now <$> subscriptions db).
  assert (length old = length (subscriptions db)) as Hlen
    by apply length_fmap.
  assert (∀ i s, (old ++ [new_subscription now args]) !! i = Some s →
                 active_of m s → i = length (subscriptions db)) as Honly.
  { intros i s Hi Hactive.
    apply lookup_app_Some in Hi as [Hi|[Hge Hi]].
    - subst old. apply list_lookup_fmap_Some in Hi as (s0 & -> & _).
      by apply cancel_if_active_inactive in Hactive.
    - apply list_lookup_singleton_Some in Hi as [Hi _]. lia. }
  split_and!.
  - rewrite length_app. simpl. lia.
  - intros i s Hi. rewrite lookup_app_l by (rewrite Hlen; eauto using lookup_lt_Some).
    subst old. rewrite list_lookup_fmap, Hi. done.
  - intros i s Hi Hactive.
    exists (set_status cancelled now s). split; [|done].
    rewrite lookup_app_l by (rewrite Hlen; eauto using lookup_lt_Some).
    subst old. rewrite list_lookup_fmap, Hi. simpl.
    unfold cancel_if_active. by rewrite decide_True.
  - rewrite <- Hlen. by apply list_lookup_middle.
  - intros i j si sj Hi Hj Hai Haj.
    rewrite (Honly i si), (Honly j sj); done.
  - done.
Qed.

Lemma createSubscription_cancels_active_witness :
  ∃ db',
    createSubscription 100 (subscribe 0) (starter_db (Some 5000))
      = (Returned 1%nat, db')
    ∧ at_most_one_active alice (subscriptions db').
Proof.
  destruct (createSubscription_cancels_active 100 (subscribe 0)
              (starter_db (Some 5000)) (starter (Some 5000)) eq_refl)
    as (db' & Hrun & _ & _ & _ & _ & Hone & _).
  exists db'. split; [exact Hrun|exact Hone].
Defined.

Lemma db_patch_found {A} (T : Table A) id upd db doc :
  rows T db !! id = Some doc →
  db_patch T id upd db
    = (Returned tt, with_rows T (<[id := upd doc]> (rows T db)) db).
Proof. intros Hdoc. unfold db_patch. by rewrite Hdoc. Qed.

Lemma cancelSubscription_found now id immediate db s :
  subscriptions db !! id = Some s →
  cancelSubscription now id immediate db =
    (Returned {| ok := true |},
     with_rows subscriptionsT
       (<[id := if immediate then set_status cancelled now s
                else set_cancelAtPeriodEnd true now s]> (subscriptions db)) db).
Proof.
  intros Hs. unfold cancelSubscription, bind at 1, db_get; simpl.
  rewrite Hs. unfold bind.
  destruct immediate; by rewrite (db_patch_found subscriptionsT _ _ _ s).
Qed.

Lemma updateSubscriptionStatus_found now id status flag db s :
  subscriptions db !! id = Some s →
  updateSubscriptionStatus now id status flag db =
    (Returned {| ok := true |},
     with_rows subscriptionsT
       (<[id := set_cancelAtPeriodEnd (nullish_or flag false) now
                  (set_status status now s)]> (subscriptions db)) db).
Proof.
  intros Hs. unfold updateSubscriptionStatus, bind.
  by rewrite (db_patch_found subscriptionsT _ _ _ s).
Qed.

(** The outcome of [deductCredits] is decided by the balance rows alone. *)
Lemma deductCredits_outcome_frame now args db db' :
  creditBalances db' = creditBalances db →
  (deductCredits now args db').1 = (deductCredits now args db).1.
Proof.
  intros Hsame.
  assert (balance_row (ded_memberId args) db'
          = balance_row (ded_memberId args) db) as Hrow'
    by (unfold balance_row; by rewrite Hsame).
  destruct (balance_row (ded_memberId args) db) as [[i b]|] eqn:Hrow.
  - destruct (Z.lt_ge_cases (balance b) (ded_amount args)) as [Hlt|Hge].
    + by rewrite (deductCredits_short _ _ _ _ _ Hrow Hlt),
        (deductCredits_short _ _ _ _ _ Hrow' Hlt).
    + by rewrite (deductCredits_covered _ _ _ _ _ Hrow Hge),
        (deductCredits_covered _ _ _ _ _ Hrow' Hge).
  - by rewrite (deductCredits_absent _ _ _ Hrow),
      (deductCredits_absent _ _ _ Hrow').
Qed.

(** C9: for an existing subscription, [cancelSubscription] with
    [immediate = false] sets [cancelAtPeriodEnd] to true and leaves
    [status] as it was, writes no balance and no transaction, and every
    [deductCredits] call has the same outcome after it as before it (so a
    deduction the balance covers still succeeds); with [immediate = true]
    it sets [status] to "cancelled". *)
Theorem cancelSubscription_deferred_keeps_status
    (now : Z) (id : Id) (db : Db) (s : Subscription) :
  subscriptions db !! id = Some s →
  (∃ db' s',
     cancelSubscription now id false db = (Returned {| ok := true |}, db')
     ∧ subscriptions db' !! id = Some s'
     ∧ sub_cancelAtPeriodEnd s' = true
     ∧ sub_status s' = sub_status s
     ∧ creditBalances db' = creditBalances db
     ∧ creditTransactions db' = creditTransactions db
     ∧ (∀ now' args,
          (deductCredits now' args db').1 = (deductCredits now' args db).1)
     ∧ (∀ now' args i b,
          balance_row (ded_memberId args) db = Some (i, b) →
          ded_amount args ≤ balance b →
          (deductCredits now' args db').1
          = Returned {| success := true;
                        newBalance := balance b - ded_amount args |}))
  ∧ (∃ db' s',
       cancelSubscription now id true db = (Returned {| ok := true |}, db')
       ∧ subscriptions db' !! id = Some s'
       ∧ sub_status s' = cancelled).
Proof.
  intros Hs. pose proof (lookup_lt_Some _ _ _ Hs) as Hlt.
  split.
  - rewrite (cancelSubscription_found _ _ _ _ _ Hs).
    do 2 eexists. split; [reflexivity|]. simpl.
    rewrite list_lookup_insert_eq by done.
    split_and!; try done.
    + intros now' args. by apply deductCredits_outcome_frame.
    + intros now' args i b Hrow Hle.
      rewrite (deductCredits_outcome_frame _ _ db) by done.
      by rewrite (deductCredits_covered _ _ _ _ _ Hrow Hle).
  - rewrite (cancelSubscription_found _ _ _ _ _ Hs).
    do 2 eexists. split; [reflexivity|]. simpl.
    by rewrite list_lookup_insert_eq by done.
Qed.

Lemma cancelSubscription_deferred_keeps_status_witness :
  ∃ db' s',
    cancelSubscription 100 0 false (starter_db (Some 5000))
      = (Returned {| ok := true |}, db')
    ∧ subscriptions db' !! 0%nat = Some s'
    ∧ sub_cancelAtPeriodEnd s' = true
    ∧ sub_status s' = active
    ∧ (deductCredits 101 (charge 100) db').1
      = Returned {| success := true; newBalance := 7900 |}.
Proof.
  destruct (cancelSubscription_deferred_keeps_status 100 0
              (starter_db (Some 5000)) alice_subscription eq_refl)
    as [(db' & s' & Hrun & Hs' & Hflag & Hstatus & _ & _ & Hsame & _) _].
  exists db', s'.
  split_and!; [exact Hrun|exact Hs'|exact Hflag|exact Hstatus|].
  exact (Hsame 101 (charge 100)).
Defined.

(** C10: for an existing subscription, [updateSubscriptionStatus] called
    without [cancelAtPeriodEnd] writes [cancelAtPeriodEnd = false] (and the
    given status); so after a deferred cancellation has set the flag, a
    status patch that does not pass the flag clears it. *)
Theorem updateSubscriptionStatus_clears_cancel_flag
    (now : Z) (id : Id) (status : SubscriptionStatus) (db : Db)
    (s : Subscription) :
  subscriptions db !! id = Some s →
  (∃ db' s',
     updateSubscriptionStatus now id status None db
       = (Returned {| ok := true |}, db')
     ∧ subscriptions db' !! id = Some s'
     ∧ sub_cancelAtPeriodEnd s' = false
     ∧ sub_status s' = status)
  ∧ (∀ earlier, ∃ db1 s1 db2 s2,
       cancelSubscription earlier id false db = (Returned {| ok := true |}, db1)
       ∧ subscriptions db1 !! id = Some s1
       ∧ sub_cancelAtPeriodEnd s1 = true
       ∧ updateSubscriptionStatus now id status None db1
         = (Returned {| ok := true |}, db2)
       ∧ subscriptions db2 !! id = Some s2
       ∧ sub_cancelAtPeriodEnd s2 = false).
Proof.
  intros Hs. pose proof (lookup_lt_Some _ _ _ Hs) as Hlt.
  split.
  - rewrite (updateSubscriptionStatus_found _ _ _ _ _ _ Hs).
    do 2 eexists. split; [reflexivity|]. simpl.
    by rewrite list_lookup_insert_eq by done.
  - intros earlier.
    rewrite (cancelSubscription_found _ _ _ _ _ Hs).
    eexists _, (set_cancelAtPeriodEnd true earlier s), _, _.
    split; [reflexivity|]. simpl.
    assert (<[id := set_cancelAtPeriodEnd true earlier s]> (subscriptions db) !! id
            = Some (set_cancelAtPeriodEnd true earlier s)) as Hs1
      by (by apply list_lookup_insert_eq).
    split; [exact Hs1|]. split; [done|].
    rewrite (updateSubscriptionStatus_found _ _ _ _ _
               (set_cancelAtPeriodEnd true earlier s)) by exact Hs1.
    split; [reflexivity|]. simpl.
    rewrite list_lookup_insert_eq by (by rewrite length_insert).
    done.
Qed.

Lemma updateSubscriptionStatus_clears_cancel_flag_witness :
  ∃ db' s',
    updateSubscriptionStatus 100 0 past_due None (starter_db (Some 5000))
      = (Returned {| ok := true |}, db')
    ∧ subscriptions db' !! 0%nat = Some s'
    ∧ sub_cancelAtPeriodEnd s' = false.
Proof.
  destruct (updateSubscriptionStatus_clears_cancel_flag 100 0 past_due
              (starter_db (Some 5000)) alice_subscription eq_refl)
    as [(db' & s' & Hrun & Hs' & Hflag & _) _].
  exists db', s'. split_and!; [exact Hrun|exact Hs'|exact Hflag].
Defined.

(** * More of the billing module *)

(** ** Index order *)

Section IndexOrder.
Context {A : Type} (key : A → Z).

Lemma insert_by_Permutation x (l : list A) : insert_by key x l ≡ₚ x :: l.
Proof.
  induction l as [|y l IH]; simpl; [done|].
  destruct (key x <=? key y); [done|].
  rewrite IH. apply Permutation_swap.
Qed.

Lemma index_order_Permutation (l : list A) : index_order key l ≡ₚ l.
Proof.
  induction l as [|x l IH]; simpl; [done|].
  by rewrite insert_by_Permutation, IH.
Qed.

Lemma insert_by_sorted x (l : list A) :
  StronglySorted (λ a b, key a ≤ key b) l →
  StronglySorted (λ a b, key a ≤ key b) (insert_by key x l).
Proof.
  induction 1 as [|y l Hl IH Hy]; simpl.
  - repeat constructor.
  - destruct (Z.leb_spec (key x) (key y)) as [Hle|Hgt].
    + constructor; [by constructor|].
      constructor; [done|].
      eapply Forall_impl; [exact Hy|]. simpl. intros; lia.
    + constructor; [done|].
      rewrite insert_by_Permutation. constructor; [lia|done].
Qed.

Lemma index_order_sorted (l : list A) :
  StronglySorted (λ a b, key a ≤ key b) (index_order key l).
Proof.
  induction l as [|x l IH]; simpl; [constructor|].
  by apply insert_by_sorted.
Qed.
End IndexOrder.

Lemma ssorted_snoc {A} (R : A → A → Prop) (l : list A) x :
  StronglySorted R l → Forall (λ y, R y x) l → StronglySorted R (l ++ [x]).
Proof.
  induction 1 as [|y l Hl IH Hy]; intros Hx; simpl.
  - repeat constructor.
  - apply Forall_cons in Hx as [Hyx Hx].
    constructor; [by apply IH|].
    apply Forall_app; split; [done|]. by constructor.
Qed.

Lemma ssorted_reverse {A} (R : A → A → Prop) (l : list A) :
  StronglySorted R l → StronglySorted (λ a b, R b a) (reverse l).
Proof.
  induction 1 as [|y l Hl IH Hy]; [constructor|].
  rewrite reverse_cons. apply ssorted_snoc; [done|].
  by apply Forall_reverse.
Qed.

Lemma ssorted_take {A} (R : A → A → Prop) (l : list A) n :
  StronglySorted R l → StronglySorted R (take n l).
Proof.
  intros Hl. revert n.
  induction Hl as [|y l Hl IH Hy]; intros [|n]; simpl; try constructor.
  - apply IH.
  - by apply Forall_take.
Qed.
(** ** Transaction history *)

Lemma total_amount_Permutation (l k : list CreditTransaction) :
  l ≡ₚ k → total_amount l = total_amount k.
Proof.
  induction 1 as [|x l k _ IH|x y l|l k j _ IH1 _ IH2]; simpl; lia.
Qed.

Lemma sum_amounts_filter m txs :
  sum_amounts m txs = total_amount (filter (λ t, tx_memberId t = m) txs).
Proof.
  induction txs as [|t txs IH]; simpl; [done|].
  rewrite filter_cons. case_decide; simpl; by rewrite IH.
Qed.

Lemma getCreditTransactions_all m limit db :
  (length (filter (λ t, tx_memberId t = m) (creditTransactions db))
     ≤ default 50 limit)%nat →
  getCreditTransactions m limit db
    ≡ₚ filter (λ t, tx_memberId t = m) (creditTransactions db).
Proof.
  intros Hlen. unfold getCreditTransactions.
  rewrite take_ge.
  - by rewrite reverse_Permutation, index_order_Permutation.
  - by rewrite length_reverse, (index_order_Permutation _ _).
Qed.

(** X1: [getCreditTransactions] returns at most [limit] transactions (50
    when the limit is omitted), each one a stored transaction of the
    member, newest first by [createdAt]; when the member has no more than
    [limit] transactions it returns all of them. *)
Theorem getCreditTransactions_newest_first
    (m : Id) (limit : option nat) (db : Db) :
  (length (getCreditTransactions m limit db) ≤ default 50 limit)%nat
  ∧ (∀ t, t ∈ getCreditTransactions m limit db →
          t ∈ creditTransactions db ∧ tx_memberId t = m)
  ∧ StronglySorted (λ a b, tx_createdAt b ≤ tx_createdAt a)
      (getCreditTransactions m limit db)
  ∧ ((length (filter (λ t, tx_memberId t = m) (creditTransactions db))
        ≤ default 50 limit)%nat →
     getCreditTransactions m limit db
       ≡ₚ filter (λ t, tx_memberId t = m) (creditTransactions db)).
Proof.
  split_and!.
  - unfold getCreditTransactions. rewrite length_take. lia.
  - intros t Ht. unfold getCreditTransactions in Ht.
    apply elem_of_take in Ht as (i & Ht & _).
    apply list_elem_of_lookup_2 in Ht.
    rewrite elem_of_reverse, (index_order_Permutation _ _) in Ht.
    by apply list_elem_of_filter in Ht as [? ?].
  - unfold getCreditTransactions.
    apply ssorted_take, (ssorted_reverse (λ a b, tx_createdAt a ≤ tx_createdAt b)).
    apply index_order_sorted.
  - apply getCreditTransactions_all.
Qed.

(** ** Usage statistics *)







(** ** Subscriptions: failures and the current subscription *)

Lemma createSubscription_missing now args db :
  subscriptionPlans db !! cs_planId args = None →
  createSubscription now args db = (Thrown PlanNotFound, db).
Proof.
  intros Hplan. unfold createSubscription, bind, db_get; simpl.
  by rewrite Hplan.
Qed.

Lemma cancelSubscription_missing now id immediate db :
  subscriptions db !! id = None →
  cancelSubscription now id immediate db = (Thrown SubscriptionNotFound, db).
Proof.
  intros Hs. unfold cancelSubscription, bind, db_get; simpl. by rewrite Hs.
Qed.

(** X4: [createSubscription] throws exactly when the plan id names no plan;
    the error is then "Plan not found" and nothing has been written: no
    subscription was cancelled or inserted and no allocation scheduled. *)
Theorem createSubscription_fails_only_without_plan
    (now : Z) (args : CreateSubscriptionArgs) (db : Db) :
  ((∃ e, (createSubscription now args db).1 = Thrown e)
     ↔ subscriptionPlans db !! cs_planId args = None)
  ∧ (∀ e, (createSubscription now args db).1 = Thrown e →
          e = PlanNotFound ∧ (createSubscription now args db).2 = db).
Proof.
  destruct (subscriptionPlans db !! cs_planId args) as [plan|] eqn:Hplan.
  - rewrite (createSubscription_found _ _ _ _ Hplan); simpl.
    split; [|done]. split; [by intros [e ?]|done].
  - rewrite (createSubscription_missing _ _ _ Hplan); simpl.
    split; [by split; eauto|]. by intros e [= <-].
Qed.

(** X5: [cancelSubscription] throws exactly when the subscription id names
    no subscription, with "Subscription not found" and without writing;
    when it returns, the number of subscriptions is unchanged, every other
    subscription is untouched, and so are plans, balances, transactions and
    usage records. *)
Theorem cancelSubscription_touches_one_row
    (now : Z) (id : Id) (immediate : bool) (db : Db) :
  ((∃ e, (cancelSubscription now id immediate db).1 = Thrown e)
     ↔ subscriptions db !! id = None)
  ∧ (∀ e, (cancelSubscription now id immediate db).1 = Thrown e →
          e = SubscriptionNotFound
          ∧ (cancelSubscription now id immediate db).2 = db)
  ∧ (∀ r db',
       cancelSubscription now id immediate db = (Returned r, db') →
       length (subscriptions db') = length (subscriptions db)
       ∧ (∀ j, j ≠ id → subscriptions db' !! j = subscriptions db !! j)
       ∧ subscriptionPlans db' = subscriptionPlans db
       ∧ creditBalances db' = creditBalances db
       ∧ creditTransactions db' = creditTransactions db
       ∧ usageRecords db' = usageRecords db
       ∧ scheduled db' = scheduled db).
Proof.
  destruct (subscriptions db !! id) as [s|] eqn:Hs.
  - rewrite (cancelSubscription_found _ _ _ _ _ Hs); simpl.
    split_and!; [by split; [intros [e ?]|]|done|].
    intros r db' [= _ <-]; simpl.
    rewrite length_insert. split_and!; try done.
    intros j Hj. by rewrite list_lookup_insert_ne.
  - rewrite (cancelSubscription_missing _ _ _ _ Hs); simpl.
    split_and!; [by split; eauto|by intros e [= <-]|done].
Qed.

Lemma find_active_after_create m now (old : list Subscription) new :
  list_find (active_of m) ((cancel_if_active m now <$> old) ++ [new]) =
    if decide (active_of m new) then Some (length old, new) else None.
Proof.
  assert (list_find (active_of m) (cancel_if_active m now <$> old) = None)
    as Hnone.
  { apply list_find_None, Forall_fmap, Forall_forall.
    intros s _. apply cancel_if_active_inactive. }
  case_decide as Hnew.
  - rewrite find_snoc_fresh by done. by rewrite length_fmap.
  - by rewrite find_snoc_other.
Qed.

(** X6: after a [createSubscription] that found its plan,
    [getCurrentSubscription] returns the new subscription together with
    that plan if the new subscription is active, and returns nothing if it
    is trialing, whatever subscriptions the member had before (they are
    cancelled).  The new subscription is active when no trial days were
    given or zero were, and trialing when a non-zero number was given (at
    a non-zero clock reading). *)
Theorem current_subscription_after_create
    (now : Z) (args : CreateSubscriptionArgs) (db : Db) (plan : Plan) :
  subscriptionPlans db !! cs_planId args = Some plan →
  getCurrentSubscription (cs_memberId args) (createSubscription now args db).2 =
    (if decide (sub_status (new_subscription now args) = active)
     then Some (length (subscriptions db), new_subscription now args, Some plan)
     else None)
  ∧ (cs_trialDays args = None ∨ cs_trialDays args = Some 0 →
     sub_status (new_subscription now args) = active)
  ∧ (∀ days, cs_trialDays args = Some days → days ≠ 0 → now ≠ 0 →
             sub_status (new_subscription now args) = trialing).
Proof.
  intros Hplan. rewrite (createSubscription_found _ _ _ _ Hplan). simpl.
  split_and!.
  - unfold getCurrentSubscription; simpl.
    rewrite find_active_after_create.
    case_decide as Hnew; case_decide as Hst; try done.
    + simpl. by rewrite Hplan.
    + by destruct Hnew.
    + destruct Hnew. by split.
  - intros [Hd|Hd]; simpl; by rewrite Hd.
  - intros days Hd Hdays Hnow; simpl. rewrite Hd. simpl.
    unfold truthy.
    rewrite (proj2 (Z.eqb_neq days 0) Hdays). simpl.
    unfold truthy. by rewrite (proj2 (Z.eqb_neq now 0) Hnow).
Qed.

Lemma current_subscription_after_create_witness :
  getCurrentSubscription alice
    (createSubscription 100 (subscribe 0) (starter_db (Some 5000))).2
  = Some (1%nat, new_subscription 100 (subscribe 0), Some (starter (Some 5000))).
Proof.
  exact (proj1 (current_subscription_after_create 100 (subscribe 0)
                  (starter_db (Some 5000)) (starter (Some 5000)) eq_refl)).
Defined.

(** ** Monthly allocation: the remaining cases *)






(** ** Usage recording: the charged path *)



(** ** Ledger: isolation, sign of deductions, uniqueness, append-only log *)

Lemma addCredits_isolated now args db m :
  m ≠ add_memberId args →
  balance_row m (addCredits now args db).2 = balance_row m db
  ∧ filter (λ t, tx_memberId t = m) (creditTransactions (addCredits now args db).2)
    = filter (λ t, tx_memberId t = m) (creditTransactions db).
Proof.
  intros Hm.
  destruct (balance_row (add_memberId args) db) as [[i b]|] eqn:Hrow.
  - pose proof Hrow as (Hi & Hb & _)%list_find_Some.
    rewrite (addCredits_present _ _ _ _ _ Hrow). unfold balance_row; simpl.
    rewrite (find_insert_other _ _ _ _ _ Hi) by (simpl; congruence).
    rewrite filter_app, filter_cons_False, filter_nil, app_nil_r
      by (simpl; congruence).
    done.
  - rewrite (addCredits_absent _ _ _ Hrow). unfold balance_row; simpl.
    rewrite find_snoc_other by (simpl; congruence).
    rewrite filter_app, filter_cons_False, filter_nil, app_nil_r
      by (simpl; congruence).
    done.
Qed.

Lemma deductCredits_isolated now args db m :
  m ≠ ded_memberId args →
  balance_row m (deductCredits now args db).2 = balance_row m db
  ∧ filter (λ t, tx_memberId t = m) (creditTransactions (deductCredits now args db).2)
    = filter (λ t, tx_memberId t = m) (creditTransactions db).
Proof.
  intros Hm.
  destruct (balance_row (ded_memberId args) db) as [[i b]|] eqn:Hrow.
  - destruct (Z.lt_ge_cases (balance b) (ded_amount args)) as [Hlt|Hge].
    + by rewrite (deductCredits_short _ _ _ _ _ Hrow Hlt).
    + pose proof Hrow as (Hi & Hb & _)%list_find_Some.
      rewrite (deductCredits_covered _ _ _ _ _ Hrow Hge).
      unfold balance_row; simpl.
      rewrite (find_insert_other _ _ _ _ _ Hi) by (simpl; congruence).
      rewrite filter_app, filter_cons_False, filter_nil, app_nil_r
        by (simpl; congruence).
      done.
  - by rewrite (deductCredits_absent _ _ _ Hrow).
Qed.

Lemma allocateMonthlyCredits_isolated now member sid db m :
  m ≠ member →
  balance_row m (allocateMonthlyCredits now member sid db).2 = balance_row m db
  ∧ filter (λ t, tx_memberId t = m)
      (creditTransactions (allocateMonthlyCredits now member sid db).2)
    = filter (λ t, tx_memberId t = m) (creditTransactions db).
Proof.
  intros Hm.
  destruct (subscriptions db !! sid) as [sub|] eqn:Hsub.
  - destruct (subscriptionPlans db !! sub_planId sub) as [plan|] eqn:Hplan.
    + rewrite (allocateMonthlyCredits_grants _ _ _ _ _ _ Hsub Hplan); simpl.
      by apply addCredits_isolated.
    + rewrite allocateMonthlyCredits_skips; [done|].
      intros sub' Hsub'. by simplify_eq.
  - rewrite allocateMonthlyCredits_skips; [done|].
    intros sub' Hsub'. by simplify_eq.
Qed.

(** X10: a ledger operation addressed to one member leaves every other
    member alone: the other member's balance row, and so the balance,
    lifetime totals a reader sees, and the other member's transactions are
    the same after any sequence of operations none of which addresses
    that member. *)
Theorem ledger_operations_are_per_member
    (ops : list LedgerOp) (db : Db) (m : Id) :
  Forall (λ op, op_member op ≠ m) ops →
  balance_row m (run_ops ops db) = balance_row m db
  ∧ getCreditBalance m (run_ops ops db) = getCreditBalance m db
  ∧ filter (λ t, tx_memberId t = m) (creditTransactions (run_ops ops db))
    = filter (λ t, tx_memberId t = m) (creditTransactions db).
Proof.
  intros Hops.
  assert (balance_row m (run_ops ops db) = balance_row m db
          ∧ filter (λ t, tx_memberId t = m) (creditTransactions (run_ops ops db))
            = filter (λ t, tx_memberId t = m) (creditTransactions db))
    as [Hrow Htx].
  { induction ops as [|op ops IH] using rev_ind; [done|].
    apply Forall_app in Hops as [Hops [Hop _]%Forall_cons].
    destruct (IH Hops) as [IHrow IHtx].
    rewrite run_ops_snoc.
    assert (m ≠ op_member op) as Hne by congruence.
    destruct op as [now args|now args|now member sid]; simpl in *.
    - destruct (addCredits_isolated now args (run_ops ops db) m Hne)
        as [-> ->]. done.
    - destruct (deductCredits_isolated now args (run_ops ops db) m Hne)
        as [-> ->]. done.
    - destruct (allocateMonthlyCredits_isolated now member sid
                  (run_ops ops db) m Hne) as [-> ->]. done. }
  split_and!; [done| |done].
  unfold getCreditBalance. unfold balance_row in Hrow. by rewrite Hrow.
Qed.

Lemma ledger_operations_are_per_member_witness :
  getCreditBalance 8%nat (run_ops sample_ops (starter_db None))
  = getCreditBalance 8%nat (starter_db None).
Proof.
  refine (proj1 (proj2 (ledger_operations_are_per_member sample_ops
                          (starter_db None) 8%nat _))).
  repeat constructor; simpl; discriminate.
Defined.



Lemma ledger_step_rows db db' :
  ledger_step db db' →
  (∀ j b, creditBalances db !! j = Some b →
          ∃ b', creditBalances db' !! j = Some b'
                ∧ cb_memberId b' = cb_memberId b)
  ∧ (∀ j b', creditBalances db' !! j = Some b' →
             (∃ b, creditBalances db !! j = Some b
                   ∧ cb_memberId b = cb_memberId b')
             ∨ (j = length (creditBalances db)
                ∧ balance_row (cb_memberId b') db = None)).
Proof.
  intros [|now args Hrow|now args i b0 Hrow|now args i b0 Hrow Hle]; simpl.
  - split; intros j b Hj; eauto.
  - split.
    + intros j b Hj. exists b. split; [|done]. by apply lookup_app_l_Some.
    + intros j b' [Hj|[Hge Hj]]%lookup_app_Some; [eauto|].
      apply list_lookup_singleton_Some in Hj as [Hj <-].
      right. split; [lia|done].
  - pose proof Hrow as (Hi & _ & _)%list_find_Some.
    split.
    + intros j b Hj. destruct (decide (j = i)) as [->|Hne].
      * rewrite list_lookup_insert_eq by eauto using lookup_lt_Some.
        eexists. split; [reflexivity|]. simpl. congruence.
      * rewrite list_lookup_insert_ne by done. eauto.
    + intros j b' [(-> & <- & _)|[Hne Hj]]%list_lookup_insert_Some; eauto.
  - pose proof Hrow as (Hi & _ & _)%list_find_Some.
    split.
    + intros j b Hj. destruct (decide (j = i)) as [->|Hne].
      * rewrite list_lookup_insert_eq by eauto using lookup_lt_Some.
        eexists. split; [reflexivity|]. simpl. congruence.
      * rewrite list_lookup_insert_ne by done. eauto.
    + intros j b' [(-> & <- & _)|[Hne Hj]]%list_lookup_insert_Some; eauto.
Qed.

Lemma balance_row_None_no_row m db j b :
  balance_row m db = None → creditBalances db !! j = Some b → cb_memberId b ≠ m.
Proof.
  intros Hnone Hj. unfold balance_row in Hnone.
  apply list_find_None in Hnone.
  exact (Forall_lookup_1 _ _ _ _ Hnone Hj).
Qed.

Lemma ledger_step_unique db db' :
  one_row_per_member db → ledger_step db db' → one_row_per_member db'.
Proof.
  intros Hdb Hstep. destruct (ledger_step_rows _ _ Hstep) as [_ Hback].
  intros i j bi bj Hi Hj Hsame.
  destruct (Hback i bi Hi) as [(ai & Hai & Hmi)|[-> Hni]],
           (Hback j bj Hj) as [(aj & Haj & Hmj)|[-> Hnj]]; try done.
  - apply (Hdb i j ai aj); congruence.
  - exfalso. apply (balance_row_None_no_row _ _ _ _ Hnj Hai). congruence.
  - exfalso. apply (balance_row_None_no_row _ _ _ _ Hni Haj). congruence.
Qed.

(** X12: starting from a database with at most one balance row per member
    (the empty one, for instance), every sequence of ledger operations
    keeps at most one balance row per member; no balance row is ever
    removed or handed to another member. *)
Theorem one_balance_row_per_member (ops : list LedgerOp) (db0 : Db) (n : nat) :
  one_row_per_member db0 →
  one_row_per_member (run_ops (take n ops) db0)
  ∧ (∀ j b, creditBalances db0 !! j = Some b →
            ∃ b', creditBalances (run_ops (take n ops) db0) !! j = Some b'
                  ∧ cb_memberId b' = cb_memberId b).
Proof.
  intros H0. split.
  - apply (run_ops_invariant one_row_per_member); [|done].
    intros db db'. apply ledger_step_unique.
  - apply (run_ops_invariant
             (λ db, ∀ j b, creditBalances db0 !! j = Some b →
                           ∃ b', creditBalances db !! j = Some b'
                                 ∧ cb_memberId b' = cb_memberId b));
      [|by eauto].
    intros db db' Hdb Hstep j b Hj.
    destruct (Hdb j b Hj) as (b1 & Hb1 & Hm1).
    destruct (proj1 (ledger_step_rows _ _ Hstep) j b1 Hb1) as (b2 & Hb2 & Hm2).
    exists b2. split; [done|congruence].
Qed.

Lemma one_balance_row_per_member_witness :
  one_row_per_member emptyDb
  ∧ one_row_per_member (run_ops (take 3 sample_ops) emptyDb).
Proof.
  assert (one_row_per_member emptyDb) as H0.
  { intros i j bi bj Hi. destruct i; discriminate Hi. }
  split; [exact H0|].
  exact (proj1 (one_balance_row_per_member sample_ops emptyDb 3 H0)).
Defined.

Lemma ledger_step_log db db' :
  ledger_step db db' →
  creditTransactions db `prefix_of` creditTransactions db'
  ∧ (length (creditTransactions db') ≤ S (length (creditTransactions db)))%nat.
Proof.
  intros []; simpl; rewrite ?length_app; simpl;
    (split; [by (done || apply prefix_app_r)|lia]).
Qed.

(** X13: the transaction log is append-only: after any sequence of ledger
    operations the log that was there is still there, unchanged, as a
    prefix; each operation appends at most one transaction; and ledger
    operations write no plan, no subscription and no usage record. *)
Theorem transaction_log_append_only (ops : list LedgerOp) (db0 : Db) :
  creditTransactions db0 `prefix_of` creditTransactions (run_ops ops db0)
  ∧ (length (creditTransactions (run_ops ops db0))
       ≤ length (creditTransactions db0) + length ops)%nat
  ∧ subscriptionPlans (run_ops ops db0) = subscriptionPlans db0
  ∧ subscriptions (run_ops ops db0) = subscriptions db0
  ∧ usageRecords (run_ops ops db0) = usageRecords db0.
Proof.
  induction ops as [|op ops IH] using rev_ind; [by split_and!; simpl; try lia|].
  destruct IH as (Hpre & Hlen & Hplans & Hsubs & Husage).
  rewrite run_ops_snoc, length_app. simpl.
  pose proof (apply_op_step op (run_ops ops db0)) as Hstep.
  destruct (ledger_step_log _ _ Hstep) as [Hpre' Hlen'].
  destruct (ledger_step_frame _ _ Hstep) as (-> & -> & ->).
  split_and!; [by etrans|lia|done..].
Qed.

(** ** Stripe webhook *)

Lemma handleSubscriptionUpdate_eq now s db :
  handleSubscriptionUpdate now s db =
    match by_stripe_id (stripe_id s) db with
    | Some (i, doc) =>
        match status_of_string (stripe_status s) with
        | Some status =>
            (Returned tt,
             with_rows subscriptionsT
               (<[i := stripe_updated now s status doc]> (subscriptions db)) db)
        | None => (Thrown SchemaValidationError, db)
        end
    | None => (Returned tt, db)
    end.
Proof.
  unfold handleSubscriptionUpdate, by_stripe_id, bind, db_first; simpl.
  destruct (list_find _ (subscriptions db)) as [[i doc]|] eqn:Hfind; [|done].
  apply list_find_Some in Hfind as (Hi & _ & _).
  destruct (status_of_string _) as [status|]; [|done].
  by rewrite (db_patch_found subscriptionsT _ _ _ doc).
Qed.

Lemma handleSubscriptionDeleted_eq now s db :
  handleSubscriptionDeleted now s db =
    (Returned tt,
     match by_stripe_id (stripe_id s) db with
     | Some (i, doc) =>
         with_rows subscriptionsT
           (<[i := set_status cancelled now doc]> (subscriptions db)) db
     | None => db
     end).
Proof.
  unfold handleSubscriptionDeleted, by_stripe_id, bind, db_first; simpl.
  destruct (list_find _ (subscriptions db)) as [[i doc]|] eqn:Hfind; [|done].
  apply list_find_Some in Hfind as (Hi & _ & _).
  by rewrite (db_patch_found subscriptionsT _ _ _ doc).
Qed.

Lemma handleInvoicePaymentFailed_eq now invoice db :
  handleInvoicePaymentFailed now invoice db =
    (Returned tt,
     match member_of_customer (inv_customer invoice) db with
     | Some m =>
         match list_find (active_of m) (subscriptions db) with
         | Some (i, doc) =>
             with_rows subscriptionsT
               (<[i := set_status past_due now doc]> (subscriptions db)) db
         | None => db
         end
     | None => db
     end).
Proof.
  unfold handleInvoicePaymentFailed, member_of_customer, bind at 1; simpl.
  destruct (list_find _ (index_order _ _)) as [[j s]|]; [|done].
  unfold bind, db_first; simpl.
  destruct (list_find _ (subscriptions db)) as [[i doc]|] eqn:Hfind; [|done].
  apply list_find_Some in Hfind as (Hi & _ & _).
  by rewrite (db_patch_found subscriptionsT _ _ _ doc).
Qed.

Lemma handleInvoicePaid_eq now invoice st :
  handleInvoicePaid now invoice st =
    (Returned tt,
     {| core := core st;
        payments := payments st ++
          match member_of_customer (inv_customer invoice) (core st) with
          | Some m =>
              [{| pay_memberId := m;
                  pay_amount := inv_amount_paid invoice;
                  pay_currency := inv_currency invoice;
                  pay_status := succeeded;
                  pay_paymentMethod := card;
                  pay_stripePaymentIntentId := inv_payment_intent invoice;
                  pay_stripeChargeId := inv_charge invoice;
                  pay_description :=
                    or_else_string (inv_description invoice) "Subscription payment";
                  pay_createdAt := now |}]
          | None => []
          end |}).
Proof.
  unfold handleInvoicePaid, member_of_customer, on_core; simpl.
  destruct (list_find _ (index_order _ _)) as [[j s]|]; simpl; [done|].
  by rewrite app_nil_r.
Qed.

(** The member a customer id resolves to is the member of a subscription
    that carries it; it resolves to none exactly when no subscription
    carries it. *)
Lemma member_of_customer_spec customer db :
  match member_of_customer customer db with
  | Some m =>
      ∃ s, s ∈ subscriptions db
           ∧ sub_stripeCustomerId s = Some customer ∧ sub_memberId s = m
  | None =>
      ∀ s, s ∈ subscriptions db → sub_stripeCustomerId s ≠ Some customer
  end.
Proof.
  unfold member_of_customer; simpl.
  destruct (list_find _ (index_order _ _)) as [[j s]|] eqn:Hfind.
  - apply list_find_Some in Hfind as (Hj & Hc & _).
    apply list_elem_of_lookup_2 in Hj.
    rewrite (index_order_Permutation _ _) in Hj. eauto.
  - apply list_find_None in Hfind. rewrite Forall_forall in Hfind.
    intros s Hs. apply Hfind. by rewrite (index_order_Permutation _ _).
Qed.

(** X14: [handleStripeWebhook] never writes a credit balance, a credit
    transaction, a usage record, a plan or a scheduled allocation, and
    never adds or removes a subscription, whatever the event and whether
    it returns or throws.  It throws exactly on a
    "customer.subscription.created" or "customer.subscription.updated"
    event for a stored subscription whose status is none of the five
    literals of the schema (Stripe's own "canceled" is none of them); it
    then has written nothing.  On every other event it returns success
    (events are those of [StripeEvent]: the optional fields of an invoice
    are strings or absent).  An event of an unhandled type changes
    nothing at all, and only an "invoice.paid" event can add a payment. *)
Theorem webhook_never_touches_ledger
    (now : Z) (event : StripeEvent) (st : BillingDb) :
  ∃ out st',
    handleStripeWebhook now event st = (out, st')
    ∧ creditBalances (core st') = creditBalances (core st)
    ∧ creditTransactions (core st') = creditTransactions (core st)
    ∧ usageRecords (core st') = usageRecords (core st)
    ∧ subscriptionPlans (core st') = subscriptionPlans (core st)
    ∧ scheduled (core st') = scheduled (core st)
    ∧ length (subscriptions (core st')) = length (subscriptions (core st))
    ∧ (∀ type, event = unhandled_event type → st' = st)
    ∧ ((∀ object, event ≠ invoice_paid object) → payments st' = payments st)
    ∧ (out = Returned {| ok := true |} ∨ out = Thrown SchemaValidationError)
    ∧ (out = Thrown SchemaValidationError ↔
         ∃ object, (event = customer_subscription_created object
                    ∨ event = customer_subscription_updated object)
                   ∧ status_of_string (stripe_status object) = None
                   ∧ by_stripe_id (stripe_id object) (core st) ≠ None)
    ∧ (out = Thrown SchemaValidationError → st' = st)
    ∧ status_of_string "canceled" = None.
Proof.
  assert (∀ s,
    ∃ out db',
      handleSubscriptionUpdate now s (core st) = (out, db')
      ∧ creditBalances db' = creditBalances (core st)
      ∧ creditTransactions db' = creditTransactions (core st)
      ∧ usageRecords db' = usageRecords (core st)
      ∧ subscriptionPlans db' = subscriptionPlans (core st)
      ∧ scheduled db' = scheduled (core st)
      ∧ length (subscriptions db') = length (subscriptions (core st))
      ∧ (out = Returned tt ∨ out = Thrown SchemaValidationError)
      ∧ (out = Thrown SchemaValidationError ↔
           status_of_string (stripe_status s) = None
           ∧ by_stripe_id (stripe_id s) (core st) ≠ None)
      ∧ (out = Thrown SchemaValidationError → db' = core st)) as Hupdate.
  { intros s. rewrite handleSubscriptionUpdate_eq.
    destruct (by_stripe_id _ _) as [[i doc]|].
    - destruct (status_of_string _) as [status|]; eexists _, _;
        (split; [reflexivity|]); simpl; rewrite ?length_insert;
        split_and!; try done; auto.
      split; [done|]. by intros [? _].
    - eexists _, _. split; [reflexivity|]. split_and!; try done; auto.
      split; [done|]. by intros [_ ?]. }
  unfold handleStripeWebhook.
  destruct event as [s|s|s|invoice|invoice|type]; unfold on_core.
  - destruct (Hupdate s)
      as (out & db' & -> & ? & ? & ? & ? & ? & ? & Hout & Hiff & Hsame).
    destruct Hout as [->| ->]; eexists _, _; (split; [reflexivity|]); simpl;
      split_and!; try done; auto.
    + split; [done|]. intros (s' & [[= <-]|[=]] & Hs). by apply Hiff in Hs.
    + split; [|done]. intros _. exists s. split; [by left|]. by apply Hiff.
    + intros _. destruct st. simpl in *. by rewrite Hsame.
  - destruct (Hupdate s)
      as (out & db' & -> & ? & ? & ? & ? & ? & ? & Hout & Hiff & Hsame).
    destruct Hout as [->| ->]; eexists _, _; (split; [reflexivity|]); simpl;
      split_and!; try done; auto.
    + split; [done|]. intros (s' & [[=]|[= <-]] & Hs). by apply Hiff in Hs.
    + split; [|done]. intros _. exists s. split; [by right|]. by apply Hiff.
    + intros _. destruct st. simpl in *. by rewrite Hsame.
  - rewrite handleSubscriptionDeleted_eq. eexists _, _. split; [reflexivity|].
    destruct (by_stripe_id _ _) as [[i doc]|]; simpl;
      rewrite ?length_insert; split_and!; try done; auto;
      (split; [done|]); by intros (? & [[=]|[=]] & _).
  - rewrite handleInvoicePaid_eq. eexists _, _. split; [reflexivity|]. simpl.
    split_and!; try done; auto.
    + intros Hne. by destruct (Hne invoice).
    + split; [done|]. by intros (? & [[=]|[=]] & _).
  - rewrite handleInvoicePaymentFailed_eq. eexists _, _. split; [reflexivity|].
    destruct (member_of_customer _ _) as [m|].
    + destruct (list_find _ _) as [[i doc]|]; simpl;
        rewrite ?length_insert; split_and!; try done; auto;
        (split; [done|]); by intros (? & [[=]|[=]] & _).
    + simpl. split_and!; try done; auto.
      split; [done|]. by intros (? & [[=]|[=]] & _).
  - exists (Returned {| ok := true |}), st. split_and!; try done; auto.
    split; [done|]. by intros (? & [[=]|[=]] & _).
Qed.

(** X15: an "invoice.paid" event records exactly one payment, with status
    "succeeded", the invoice's amount and a non-empty description, for the
    member of a subscription that carries the invoice's customer id; when
    no subscription carries that customer id it records nothing.  The
    billing tables are left as they were: paying an invoice allocates no
    credits. *)
Theorem invoice_paid_records_payment
    (now : Z) (invoice : StripeInvoice) (st : BillingDb) :
  ∃ st',
    handleStripeWebhook now (invoice_paid invoice) st
      = (Returned {| ok := true |}, st')
    ∧ core st' = core st
    ∧ ((∀ s, s ∈ subscriptions (core st) →
             sub_stripeCustomerId s ≠ Some (inv_customer invoice)) →
       payments st' = payments st)
    ∧ ((∃ s, s ∈ subscriptions (core st)
             ∧ sub_stripeCustomerId s = Some (inv_customer invoice)) →
       ∃ p s,
         payments st' = payments st ++ [p]
         ∧ pay_status p = succeeded
         ∧ pay_amount p = inv_amount_paid invoice
         ∧ pay_description p ≠ ""
         ∧ s ∈ subscriptions (core st)
         ∧ sub_stripeCustomerId s = Some (inv_customer invoice)
         ∧ pay_memberId p = sub_memberId s).
Proof.
  unfold handleStripeWebhook. rewrite handleInvoicePaid_eq.
  eexists. split; [reflexivity|]. simpl.
  pose proof (member_of_customer_spec (inv_customer invoice) (core st)) as Hspec.
  destruct (member_of_customer _ _) as [m|].
  - destruct Hspec as (s & Hs & Hc & Hm).
    split_and!; [done| |].
    + intros Hnone. by destruct (Hnone s Hs).
    + intros _. eexists _, s. split; [reflexivity|]. simpl.
      split_and!; try done.
      unfold or_else_string. destruct (inv_description invoice) as [d|]; [|done].
      by case_decide.
  - split_and!; [done|by rewrite app_nil_r|].
    intros (s & Hs & Hc). by destruct (Hspec s Hs).
Qed.

(** X16: an "invoice.payment_failed" event whose customer resolves to a
    member with an active subscription sets that member's oldest active
    subscription to "past_due" and changes no other subscription; when the
    customer is unknown or the member has no active subscription the
    event changes nothing. *)
Theorem payment_failed_marks_past_due
    (now : Z) (invoice : StripeInvoice) (st : BillingDb) :
  ∃ st',
    handleStripeWebhook now (invoice_payment_failed invoice) st
      = (Returned {| ok := true |}, st')
    ∧ payments st' = payments st
    ∧ match member_of_customer (inv_customer invoice) (core st) with
      | Some m =>
          match list_find (active_of m) (subscriptions (core st)) with
          | Some (i, doc) =>
              subscriptions (core st') !! i = Some (set_status past_due now doc)
              ∧ (∀ j, j ≠ i →
                      subscriptions (core st') !! j
                      = subscriptions (core st) !! j)
              ∧ (∀ k doc', list_find (active_of m) (subscriptions (core st'))
                           = Some (k, doc') → (i < k)%nat)
          | None => st' = st
          end
      | None => st' = st
      end.
Proof.
  unfold handleStripeWebhook, on_core. rewrite handleInvoicePaymentFailed_eq.
  eexists. split; [reflexivity|]. simpl. split; [done|].
  destruct (member_of_customer _ _) as [m|]; [|by destruct st].
  destruct (list_find _ _) as [[i doc]|] eqn:Hfind; [|by destruct st].
  pose proof Hfind as (Hi & Hact & Hleast)%list_find_Some. simpl.
  split_and!.
  - apply list_lookup_insert_eq. eauto using lookup_lt_Some.
  - intros j Hj. by rewrite list_lookup_insert_ne.
  - intros k doc' (Hk & Hact' & _)%list_find_Some.
    destruct (decide (k = i)) as [->|Hne].
    + rewrite list_lookup_insert_eq in Hk by eauto using lookup_lt_Some.
      simplify_eq. by destruct Hact' as [_ ?].
    + rewrite list_lookup_insert_ne in Hk by done.
      destruct (decide (k < i)%nat) as [Hlt|]; [|lia].
      by destruct (Hleast k doc' Hk Hlt).
Qed.

Lemma cancel_if_active_stripe_id m now s :
  sub_stripeSubscriptionId (cancel_if_active m now s) = sub_stripeSubscriptionId s.
Proof. unfold cancel_if_active. by case_decide. Qed.

(** X17: a subscription created with a Stripe subscription id that no
    earlier subscription carries is the one a later
    "customer.subscription.deleted" event for that id finds: the event
    sets it to "cancelled", and the member is then left without a current
    subscription. *)
Theorem stripe_deletion_cancels_created
    (now later : Z) (args : CreateSubscriptionArgs) (db : Db) (plan : Plan)
    (object : StripeSubscription) (paid : list Payment) :
  subscriptionPlans db !! cs_planId args = Some plan →
  cs_stripeSubscriptionId args = Some (stripe_id object) →
  (∀ s, s ∈ subscriptions db →
        sub_stripeSubscriptionId s ≠ Some (stripe_id object)) →
  ∃ st',
    handleStripeWebhook later (customer_subscription_deleted object)
      {| core := (createSubscription now args db).2; payments := paid |}
      = (Returned {| ok := true |}, st')
    ∧ subscriptions (core st') !! length (subscriptions db)
      = Some (set_status cancelled later (new_subscription now args))
    ∧ getCurrentSubscription (cs_memberId args) (core st') = None.
Proof.
  intros Hplan Hid Hfresh.
  rewrite (createSubscription_found _ _ _ _ Hplan).
  unfold handleStripeWebhook, on_core. rewrite handleSubscriptionDeleted_eq.
  set (m := cs_memberId args).
  set (old := cancel_if_active m now <$> subscriptions db).
  assert (length old = length (subscriptions db)) as Hlen by apply length_fmap.
  assert (list_find (λ doc, sub_stripeSubscriptionId doc = Some (stripe_id object))
            (old ++ [new_subscription now args])
          = Some (length old, new_subscription now args)) as Hfind.
  { apply find_snoc_fresh; [|done].
    apply list_find_None, Forall_fmap, Forall_forall. intros s Hs. simpl.
    rewrite cancel_if_active_stripe_id. by apply Hfresh. }
  unfold by_stripe_id; simpl. fold m. fold old. rewrite Hfind.
  eexists. split; [reflexivity|]. simpl.
  rewrite insert_app_r_alt, Nat.sub_diag by done. simpl.
  split.
  - rewrite <- Hlen. by apply list_lookup_middle.
  - unfold getCurrentSubscription; simpl. fold m.
    assert (list_find (active_of m)
              (old ++ [set_status cancelled later (new_subscription now args)])
            = None) as ->; [|done].
    apply list_find_None, Forall_app. split.
    + apply Forall_fmap, Forall_forall. intros s _.
      apply cancel_if_active_inactive.
    + constructor; [|done]. by intros [_ ?].
Qed.

Lemma stripe_deletion_cancels_created_witness :
  ∃ st',
    handleStripeWebhook 200 (customer_subscription_deleted (stripe_object "sub_1"))
      {| core := (createSubscription 100 (subscribe_stripe 0 "sub_1")
                    (starter_db (Some 5000))).2;
         payments := [] |}
      = (Returned {| ok := true |}, st')
    ∧ getCurrentSubscription alice (core st') = None.
Proof.
  destruct (stripe_deletion_cancels_created 100 200 (subscribe_stripe 0 "sub_1")
              (starter_db (Some 5000)) (starter (Some 5000))
              (stripe_object "sub_1") [] eq_refl eq_refl)
    as (st' & Hrun & _ & Hnone).
  { intros s Hs. apply list_elem_of_singleton in Hs. subst s. discriminate. }
  exists st'. split; [exact Hrun|exact Hnone].
Defined.

(** ** Seeding *)

(** X18: [seedSubscriptionPlans] writes only into an empty catalogue: on a
    catalogue that has a plan it returns "Plans already exist" and changes
    nothing; on an empty one it inserts the four plans in order and
    touches no other table; so running it twice leaves the database as
    running it once. *)
Theorem seedSubscriptionPlans_idempotent (db : Db) :
  (subscriptionPlans db ≠ [] →
   seedSubscriptionPlans db
     = (Returned {| seed_success := true; message := "Plans already exist" |}, db))
  ∧ (subscriptionPlans db = [] →
     ∃ db',
       seedSubscriptionPlans db
         = (Returned {| seed_success := true;
                        message := "Plans seeded successfully" |}, db')
       ∧ subscriptionPlans db'
         = [free_plan; starter_plan; pro_plan; enterprise_plan]
       ∧ subscriptions db' = subscriptions db
       ∧ creditBalances db' = creditBalances db
       ∧ creditTransactions db' = creditTransactions db
       ∧ usageRecords db' = usageRecords db)
  ∧ (seedSubscriptionPlans (seedSubscriptionPlans db).2).2
    = (seedSubscriptionPlans db).2
  ∧ (seedSubscriptionPlans (seedSubscriptionPlans db).2).1
    = Returned {| seed_success := true; message := "Plans already exist" |}.
Proof.
  assert (∀ d, subscriptionPlans d ≠ [] →
               seedSubscriptionPlans d
               = (Returned {| seed_success := true;
                              message := "Plans already exist" |}, d))
    as Hguard.
  { intros d Hd. unfold seedSubscriptionPlans, bind, db_collect_all; simpl.
    destruct (subscriptionPlans d); [done|]. done. }
  assert (subscriptionPlans db = [] →
          seedSubscriptionPlans db
          = (Returned {| seed_success := true;
                         message := "Plans seeded successfully" |},
             with_rows plansT
               [free_plan; starter_plan; pro_plan; enterprise_plan] db))
    as Hseed.
  { intros Hd.
    unfold seedSubscriptionPlans, bind, db_collect_all, db_insert, ret; simpl.
    rewrite Hd. simpl. by rewrite Hd. }
  split_and!.
  - apply Hguard.
  - intros Hd. rewrite (Hseed Hd). eexists. by split_and!.
  - destruct (decide (subscriptionPlans db = [])) as [Hd|Hd].
    + rewrite (Hseed Hd). by rewrite Hguard.
    + rewrite (Hguard db) by done. simpl. by rewrite (Hguard db).
  - destruct (decide (subscriptionPlans db = [])) as [Hd|Hd].
    + rewrite (Hseed Hd). by rewrite Hguard.
    + rewrite (Hguard db) by done. simpl. by rewrite (Hguard db).
Qed.

(** * API integrations *)

(** ** Tables with deletions *)

Lemma stored_Some {A} (l : list (option A)) i d :
  stored l i = Some d ↔ l !! i = Some (Some d).
Proof.
  unfold stored. destruct (l !! i) as [[d'|]|]; naive_solver.
Qed.

Lemma live_snoc {A} (l : list (option A)) o :
  live (l ++ [o]) =
    live l ++ match o with Some d => [(length l, d)] | None => [] end.
Proof.
  unfold live. rewrite imap_app, omap_app. f_equal. simpl.
  rewrite Nat.add_0_r. by destruct o.
Qed.

Lemma elem_of_live {A} (l : list (option A)) i d :
  (i, d) ∈ live l ↔ l !! i = Some (Some d).
Proof.
  unfold live. rewrite list_elem_of_omap. split.
  - intros ([j o] & (k & o' & [= -> ->] & Hk)%elem_of_lookup_imap & Hf).
    simpl in Hf. destruct o' as [d'|]; simplify_eq/=. done.
  - intros Hi. exists (i, Some d). split; [|done].
    apply elem_of_lookup_imap. eauto.
Qed.

Lemma NoDup_live {A} (l : list (option A)) : NoDup (live l).
Proof.
  induction l as [|o l IH] using rev_ind; [constructor|].
  rewrite live_snoc. apply NoDup_app. split_and!; [done| |].
  - intros [i d] Hin Hlast. apply elem_of_live in Hin.
    apply lookup_lt_Some in Hin.
    destruct o as [d'|]; [|by apply not_elem_of_nil in Hlast].
    apply list_elem_of_singleton in Hlast. simplify_eq. lia.
  - destruct o; [apply NoDup_singleton|constructor].
Qed.

Lemma insert_by_name_Permutation {A} (key : A → string) x (l : list A) :
  insert_by_name key x l ≡ₚ x :: l.
Proof.
  induction l as [|y l IH]; simpl; [done|].
  destruct (String.leb (key x) (key y)); [done|].
  rewrite IH. apply Permutation_swap.
Qed.

Lemma name_order_Permutation {A} (key : A → string) (l : list A) :
  name_order key l ≡ₚ l.
Proof.
  induction l as [|x l IH]; simpl; [done|].
  by rewrite insert_by_name_Permutation, IH.
Qed.

Lemma elem_of_queries_of integrationId db j q :
  (j, q) ∈ queries_of integrationId db ↔
    stored (apiQueries db) j = Some q ∧ q_integrationId q = integrationId.
Proof.
  unfold queries_of.
  rewrite (name_order_Permutation _ _), list_elem_of_filter, elem_of_live, stored_Some.
  simpl. tauto.
Qed.

Lemma elem_of_integrations_of memberId db j a :
  (j, a) ∈ integrations_of memberId db ↔
    stored (apiIntegrations db) j = Some a ∧ int_memberId a = memberId.
Proof.
  unfold integrations_of.
  rewrite (index_order_Permutation _ _), list_elem_of_filter, elem_of_live, stored_Some.
  simpl. tauto.
Qed.

(** ** Creating an integration *)



(** ** Integration statistics *)

Lemma store_patch_found {A} (T : Store A) id upd db doc :
  stored (docs T db) id = Some doc →
  store_patch T id upd db
    = (Returned tt, with_docs T (<[id := Some (upd doc)]> (docs T db)) db).
Proof. intros Hdoc. unfold store_patch. by rewrite Hdoc. Qed.

Lemma stored_insert_eq {A} (l : list (option A)) i d o :
  stored l i = Some d → stored (<[i := o]> l) i = o.
Proof.
  intros Hi%stored_Some. unfold stored.
  rewrite list_lookup_insert_eq by eauto using lookup_lt_Some.
  by destruct o.
Qed.

Lemma stored_insert_ne {A} (l : list (option A)) i j o :
  j ≠ i → stored (<[i := o]> l) j = stored l j.
Proof. intros Hne. unfold stored. by rewrite list_lookup_insert_ne. Qed.

Lemma updateIntegrationStats_found now id success msg db d :
  stored (apiIntegrations db) id = Some d →
  updateIntegrationStats now id success msg db =
    (Returned tt,
     with_docs apiIntegrationsT
       (<[id := Some (stats_patch d success msg now d)]> (apiIntegrations db)) db).
Proof.
  intros Hd. unfold updateIntegrationStats, hbind, store_get; simpl.
  rewrite Hd. by rewrite (store_patch_found apiIntegrationsT _ _ _ d).
Qed.

Lemma run_stats_effect id calls :
  ∀ db d,
    stored (apiIntegrations db) id = Some d →
    ∃ d',
      stored (apiIntegrations (run_stats id calls db)) id = Some d'
      ∧ totalRequests d' = totalRequests d + Z.of_nat (length calls)
      ∧ failedRequests d' = failedRequests d + Z.of_nat (failures calls)
      ∧ int_memberId d' = int_memberId d
      ∧ int_status d' = int_status d
      ∧ int_config d' = int_config d
      ∧ (Forall (λ c, call_success c = true) calls →
         lastErrorAt d' = lastErrorAt d
         ∧ lastErrorMessage d' = lastErrorMessage d)
      ∧ (∀ j, j ≠ id →
              stored (apiIntegrations (run_stats id calls db)) j
              = stored (apiIntegrations db) j)
      ∧ apiQueries (run_stats id calls db) = apiQueries db.
Proof.
  unfold run_stats, failures.
  induction calls as [|c calls IH]; intros db d Hd; simpl.
  - exists d. split_and!; try done; lia.
  - rewrite (updateIntegrationStats_found _ _ _ _ _ _ Hd). simpl.
    set (d1 := stats_patch d (call_success c) (call_errorMessage c) (call_now c) d).
    set (db1 := {| idb_subscriptions := _ |}).
    assert (stored (apiIntegrations db1) id = Some d1) as Hd1
      by (simpl; by eapply stored_insert_eq).
    destruct (IH db1 d1 Hd1)
      as (d' & Hd' & Htotal & Hfailed & Hm & Hst & Hcfg & Herr & Hothers & Hq).
    exists d'. rewrite filter_cons. split_and!; try done.
    + rewrite Htotal. simpl. lia.
    + rewrite Hfailed. simpl. destruct (call_success c); simpl; lia.
    + intros [Hc Hcalls]%Forall_cons. destruct (Herr Hcalls) as [-> ->].
      simpl. by rewrite Hc.
    + intros j Hj. rewrite (Hothers j Hj). simpl. by apply stored_insert_ne.
Qed.

(** X20: after any series of [updateIntegrationStats] calls on a stored
    integration, its [totalRequests] has grown by the number of calls and
    its [failedRequests] by the number of calls that reported a failure,
    so [0 <= failedRequests <= totalRequests] is kept; owner, status and
    configuration are untouched; calls that all report success leave the
    last error as it was; no other integration and no saved query
    changes. *)
Theorem integration_counters_track_calls
    (id : Id) (calls : list StatsCall) (db : IntegrationsDb) (d : ApiIntegration) :
  stored (apiIntegrations db) id = Some d →
  ∃ d',
    stored (apiIntegrations (run_stats id calls db)) id = Some d'
    ∧ totalRequests d' = totalRequests d + Z.of_nat (length calls)
    ∧ failedRequests d' = failedRequests d + Z.of_nat (failures calls)
    ∧ (0 ≤ failedRequests d ≤ totalRequests d →
       0 ≤ failedRequests d' ≤ totalRequests d')
    ∧ int_memberId d' = int_memberId d
    ∧ int_status d' = int_status d
    ∧ int_config d' = int_config d
    ∧ (Forall (λ c, call_success c = true) calls →
       lastErrorAt d' = lastErrorAt d
       ∧ lastErrorMessage d' = lastErrorMessage d)
    ∧ (∀ j, j ≠ id →
            stored (apiIntegrations (run_stats id calls db)) j
            = stored (apiIntegrations db) j)
    ∧ apiQueries (run_stats id calls db) = apiQueries db.
Proof.
  intros Hd.
  destruct (run_stats_effect id calls db d Hd)
    as (d' & Hd' & Htotal & Hfailed & Hm & Hst & Hcfg & Herr & Hothers & Hq).
  exists d'. split_and!; try done.
  intros Hbounds.
  assert (failures calls ≤ length calls)%nat by apply length_filter. lia.
Qed.

Lemma integration_counters_track_calls_witness :
  ∃ d',
    stored (apiIntegrations
              (run_stats 1
                 [{| call_now := 5; call_success := true;
                     call_errorMessage := None |};
                  {| call_now := 6; call_success := false;
                     call_errorMessage := Some "HTTP 500" |}]
                 integrations_db)) 1 = Some d'
    ∧ totalRequests d' = 2
    ∧ failedRequests d' = 1.
Proof.
  destruct (integration_counters_track_calls 1
              [{| call_now := 5; call_success := true;
                  call_errorMessage := None |};
               {| call_now := 6; call_success := false;
                  call_errorMessage := Some "HTTP 500" |}]
              integrations_db
              (new_integration 0 7%nat "crm" rest_api plain_config) eq_refl)
    as (d' & Hd' & Htotal & Hfailed & _).
  exists d'. split_and!; [exact Hd'|exact Htotal|exact Hfailed].
Defined.

(** ** Ownership and deletion *)

Lemma owned_integration_found id m db d :
  stored (apiIntegrations db) id = Some d → int_memberId d = m →
  owned_integration id m db = (Returned d, db).
Proof.
  intros Hd Hm. unfold owned_integration, hbind, store_get; simpl.
  rewrite Hd. by rewrite decide_True.
Qed.

Lemma owned_integration_refused id m db :
  stored (apiIntegrations db) id = None
  ∨ (∃ d, stored (apiIntegrations db) id = Some d ∧ int_memberId d ≠ m) →
  owned_integration id m db = (Thrown IntegrationNotFound, db).
Proof.
  unfold owned_integration, hbind, store_get; simpl.
  intros [->|(d & -> & Hm)]; [done|]. by rewrite decide_False.
Qed.

(** X21: an integration that does not exist, was deleted, or belongs to
    another member cannot be read or changed through the member-scoped
    operations: [getApiIntegration], [updateApiIntegration],
    [deleteApiIntegration], [getApiQueries] and [createApiQuery] all throw
    "Integration not found" and write nothing, and
    [getIntegrationWithSecrets] returns nothing. *)
Theorem integrations_are_member_scoped
    (now : Z) (id m : Id) (updates : IntegrationUpdates) (queryData : ApiQuery)
    (db : IntegrationsDb) :
  stored (apiIntegrations db) id = None
  ∨ (∃ d, stored (apiIntegrations db) id = Some d ∧ int_memberId d ≠ m) →
  getApiIntegration id m db = (Thrown IntegrationNotFound, db)
  ∧ updateApiIntegration now id m updates db = (Thrown IntegrationNotFound, db)
  ∧ deleteApiIntegration id m db = (Thrown IntegrationNotFound, db)
  ∧ getApiQueries id m db = (Thrown IntegrationNotFound, db)
  ∧ createApiQuery now m id queryData db = (Thrown IntegrationNotFound, db)
  ∧ getIntegrationWithSecrets id m db = None.
Proof.
  intros Hforeign.
  pose proof (owned_integration_refused id m db Hforeign) as Hrefused.
  unfold getApiIntegration, updateApiIntegration, deleteApiIntegration,
    getApiQueries, createApiQuery, hbind.
  rewrite Hrefused. split_and!; try done.
  unfold getIntegrationWithSecrets.
  destruct Hforeign as [->|(d & -> & Hm)]; [done|]. by rewrite decide_False.
Qed.

Lemma integrations_are_member_scoped_witness :
  deleteApiIntegration 1 8 integrations_db
    = (Thrown IntegrationNotFound, integrations_db)
  ∧ deleteApiIntegration 0 7 integrations_db
    = (Thrown IntegrationNotFound, integrations_db).
Proof.
  split.
  - refine (proj1 (proj2 (proj2
              (integrations_are_member_scoped 0 1 8
                 {| upd_name := None; upd_status := None; upd_config := None |}
                 (sample_query 1 "a") integrations_db _)))).
    right. eexists. split; [reflexivity|]. simpl. discriminate.
  - refine (proj1 (proj2 (proj2
              (integrations_are_member_scoped 0 0 7
                 {| upd_name := None; upd_status := None; upd_config := None |}
                 (sample_query 1 "a") integrations_db _)))).
    left. reflexivity.
Defined.

Lemma store_delete_found {A} (T : Store A) id db doc :
  stored (docs T db) id = Some doc →
  store_delete T id db
    = (Returned tt, with_docs T (<[id := None]> (docs T db)) db).
Proof. intros Hdoc. unfold store_delete. by rewrite Hdoc. Qed.

Lemma stored_delete {A} (l : list (option A)) i j :
  stored (<[i := None]> l) j = if decide (j = i) then None else stored l j.
Proof.
  case_decide as Hj; [subst j|by apply stored_insert_ne].
  unfold stored. destruct (decide (i < length l)%nat).
  - by rewrite list_lookup_insert_eq.
  - rewrite list_insert_ge by lia. by rewrite lookup_ge_None_2 by lia.
Qed.

Lemma queries_of_nil id db :
  (∀ j q, stored (apiQueries db) j = Some q → q_integrationId q ≠ id) →
  queries_of id db = [].
Proof.
  intros Hnone. destruct (queries_of id db) as [|[j q] rest] eqn:Hrest; [done|].
  assert ((j, q) ∈ queries_of id db) as [Hj Hid]%elem_of_queries_of
    by (rewrite Hrest; apply list_elem_of_here).
  by destruct (Hnone j q Hj).
Qed.

(** Deleting, one after the other, distinct stored queries. *)
Lemma delete_queries_loop (xs : list (Id * ApiQuery)) :
  ∀ db,
    NoDup xs →
    (∀ j q, (j, q) ∈ xs → stored (apiQueries db) j = Some q) →
    ∃ db',
      hfor_each xs (λ query, store_delete apiQueriesT query.1) db
        = (Returned tt, db')
      ∧ apiIntegrations db' = apiIntegrations db
      ∧ idb_subscriptions db' = idb_subscriptions db
      ∧ idb_plans db' = idb_plans db
      ∧ length (apiQueries db') = length (apiQueries db)
      ∧ ∀ j, stored (apiQueries db') j =
             if decide (j ∈ xs.*1) then None else stored (apiQueries db) j.
Proof.
  induction xs as [|[i q] xs IH]; intros db Hnodup Hlive; simpl.
  - exists db. by split_and!.
  - apply NoDup_cons in Hnodup as [Hfresh Hnodup].
    pose proof (Hlive i q (list_elem_of_here _ _)) as Hi.
    unfold hbind at 1.
    rewrite (store_delete_found apiQueriesT i db q Hi). simpl.
    set (db1 := {| idb_subscriptions := _ |}).
    destruct (IH db1 Hnodup) as (db' & Hrun & Hint & Hsub & Hplan & Hlen & Hq).
    { intros j q' Hin. simpl. rewrite stored_delete.
      rewrite decide_False; [by apply Hlive, list_elem_of_further|].
      intros ->. apply Hfresh.
      pose proof (Hlive i q' (list_elem_of_further _ _ _ Hin)) as Hi'.
      by simplify_eq. }
    exists db'. split_and!; try done.
    + rewrite Hlen. simpl. apply length_insert.
    + intros j. rewrite Hq. simpl. rewrite stored_delete.
      assert (j ∈ ((i, q) :: xs).*1 ↔ j = i ∨ j ∈ xs.*1) as Hmem
        by (rewrite fmap_cons; apply elem_of_cons).
      destruct (decide (j ∈ xs.*1)) as [Hin|Hin].
      * rewrite decide_True by (apply Hmem; by right). done.
      * destruct (decide (j = i)) as [->|Hne].
        -- rewrite decide_True by (apply Hmem; by left). done.
        -- rewrite decide_False by (rewrite Hmem; by intros [?|?]). done.
Qed.

(** X22: when the member owns the integration, [deleteApiIntegration]
    returns and leaves neither the integration nor any saved query that
    pointed to it: the integration's id stores nothing, a saved query
    survives exactly when it belonged to another integration, every
    other integration is untouched, and no id is reused (the tables keep
    their length). *)
Theorem deleteApiIntegration_cascades
    (id m : Id) (db : IntegrationsDb) (d : ApiIntegration) :
  stored (apiIntegrations db) id = Some d →
  int_memberId d = m →
  ∃ db',
    deleteApiIntegration id m db = (Returned {| ok := true |}, db')
    ∧ stored (apiIntegrations db') id = None
    ∧ (∀ j, j ≠ id →
            stored (apiIntegrations db') j = stored (apiIntegrations db) j)
    ∧ (∀ j, stored (apiQueries db') j =
            match stored (apiQueries db) j with
            | Some q => if decide (q_integrationId q = id) then None else Some q
            | None => None
            end)
    ∧ queries_of id db' = []
    ∧ length (apiIntegrations db') = length (apiIntegrations db)
    ∧ length (apiQueries db') = length (apiQueries db)
    ∧ idb_subscriptions db' = idb_subscriptions db
    ∧ idb_plans db' = idb_plans db.
Proof.
  intros Hd Hm.
  unfold deleteApiIntegration, hbind at 1.
  rewrite (owned_integration_found _ _ _ _ Hd Hm).
  unfold hbind at 1. unfold hbind at 1.
  destruct (delete_queries_loop (queries_of id db) db)
    as (db1 & -> & Hint & Hsub & Hplan & Hlen & Hq).
  { unfold queries_of. rewrite (name_order_Permutation _ _).
    apply NoDup_filter, NoDup_live. }
  { intros j q Hin. by apply elem_of_queries_of in Hin as [? _]. }
  assert (∀ j, stored (apiQueries db1) j =
               match stored (apiQueries db) j with
               | Some q => if decide (q_integrationId q = id) then None else Some q
               | None => None
               end) as Hq'.
  { intros j. rewrite Hq.
    destruct (stored (apiQueries db) j) as [q|] eqn:Hj.
    - case_decide as Hin; case_decide as Hint'; try done.
      + apply list_elem_of_fmap in Hin as ([j' q'] & -> & Hin).
        apply elem_of_queries_of in Hin as [Hj' ?]. simpl in *.
        by simplify_eq.
      + destruct Hin. apply list_elem_of_fmap. exists (j, q).
        split; [done|]. by apply elem_of_queries_of.
    - by case_decide. }
  unfold hbind.
  rewrite (store_delete_found apiIntegrationsT id db1 d)
    by (simpl; by rewrite Hint).
  eexists. split; [reflexivity|]. simpl. rewrite Hint.
  split_and!; try done.
  - by rewrite stored_delete, decide_True.
  - intros j Hj. by rewrite stored_delete, decide_False.
  - apply queries_of_nil. intros j q Hj. simpl in Hj.
    rewrite Hq' in Hj. destruct (stored (apiQueries db) j); [|done].
    case_decide; by simplify_eq.
  - apply length_insert.
Qed.

Lemma deleteApiIntegration_cascades_witness :
  ∃ db',
    deleteApiIntegration 1 7 integrations_db = (Returned {| ok := true |}, db')
    ∧ stored (apiIntegrations db') 1 = None
    ∧ queries_of 1 db' = [].
Proof.
  destruct (deleteApiIntegration_cascades 1 7 integrations_db
              (new_integration 0 7%nat "crm" rest_api plain_config)
              eq_refl eq_refl)
    as (db' & Hrun & Hgone & _ & _ & Hnone & _).
  exists db'. split_and!; [exact Hrun|exact Hgone|exact Hnone].
Defined.

(** ** What the member-facing queries return *)

Lemma mask_redacted secret : mask secret = None ∨ mask secret = Some "***".
Proof. unfold mask. destruct secret; [case_decide|]; auto. Qed.

Lemma mask_absent secret :
  mask secret = None ↔ secret = None ∨ secret = Some "".
Proof.
  unfold mask. destruct secret as [s|]; [|by split; auto].
  case_decide; split; try done; [by subst; auto|].
  intros [?|?]; by simplify_eq.
Qed.

(** X23: the integrations handed back to a client never carry a secret:
    in every integration [getApiIntegration] and [getApiIntegrations]
    return, each of [apiKey], [bearerToken], [password],
    [basicAuthPassword], [oauth2AccessToken] and [oauth2RefreshToken] is
    absent or the literal "***", and each is absent exactly when the
    stored secret is absent or empty.  [getApiIntegrations] returns
    exactly the redacted stored integrations of the member, of the
    requested status if one is given.  All other fields,
    [connectionString] and [headers] among them, are returned as
    stored. *)
Theorem integrations_are_returned_redacted
    (m : Id) (status : option IntegrationStatus) (db : IntegrationsDb) :
  (∀ a, Forall (λ s, s = None ∨ s = Some "***") (secrets (int_config (redact a))))
  ∧ (∀ a,
       let returned := int_config (redact a) in
       let kept := int_config a in
       (apiKey returned = None ↔ apiKey kept = None ∨ apiKey kept = Some "")
       ∧ (bearerToken returned = None
          ↔ bearerToken kept = None ∨ bearerToken kept = Some "")
       ∧ (password returned = None
          ↔ password kept = None ∨ password kept = Some "")
       ∧ (basicAuthPassword returned = None
          ↔ basicAuthPassword kept = None ∨ basicAuthPassword kept = Some "")
       ∧ (oauth2AccessToken returned = None
          ↔ oauth2AccessToken kept = None ∨ oauth2AccessToken kept = Some "")
       ∧ (oauth2RefreshToken returned = None
          ↔ oauth2RefreshToken kept = None ∨ oauth2RefreshToken kept = Some ""))
  ∧ (∀ id a, stored (apiIntegrations db) id = Some a → int_memberId a = m →
             getApiIntegration id m db = (Returned (redact a), db))
  ∧ (∀ r, r ∈ getApiIntegrations m status db ↔
          ∃ j a, stored (apiIntegrations db) j = Some a
                 ∧ int_memberId a = m
                 ∧ (∀ s, status = Some s → int_status a = s)
                 ∧ r = redact a)
  ∧ (∀ a, connectionString (int_config (redact a)) = connectionString (int_config a)
          ∧ headers (int_config (redact a)) = headers (int_config a)
          ∧ basicAuthUsername (int_config (redact a))
            = basicAuthUsername (int_config a)
          ∧ int_status (redact a) = int_status a
          ∧ int_memberId (redact a) = int_memberId a).
Proof.
  split_and!.
  - intros a. unfold secrets; simpl.
    repeat (constructor; [apply mask_redacted|]). constructor.
  - intros a. simpl. split_and!; apply mask_absent.
  - intros id a Ha Hm. unfold getApiIntegration, hbind.
    by rewrite (owned_integration_found _ _ _ _ Ha Hm).
  - intros r. unfold getApiIntegrations. rewrite list_elem_of_fmap.
    destruct status as [st|].
    + split.
      * intros ([j a] & -> & [Hst Hin]%list_elem_of_filter).
        apply elem_of_integrations_of in Hin as [Ha Hm].
        exists j, a. split_and!; try done. by intros s [= <-].
      * intros (j & a & Ha & Hm & Hst & ->). exists (j, a). split; [done|].
        apply list_elem_of_filter. split; [by apply Hst|].
        by apply elem_of_integrations_of.
    + split.
      * intros ([j a] & -> & Hin).
        apply elem_of_integrations_of in Hin as [Ha Hm].
        exists j, a. by split_and!.
      * intros (j & a & Ha & Hm & _ & ->). exists (j, a). split; [done|].
        by apply elem_of_integrations_of.
  - by intros a.
Qed.

(** ** The cost of a data-source query *)

(** X24: the credit cost of a data-source query, [Math.ceil(executionTime
    / 100) + 1], is one credit plus one credit for every started 100 ms:
    for a non-negative execution time it is at least 1, it is the least
    [c] with [executionTime <= 100 * (c - 1)], and it never decreases when
    the execution time grows. *)
Theorem query_credit_cost_bounds (executionTime : Z) :
  0 ≤ executionTime →
  1 ≤ query_credit_cost executionTime
  ∧ executionTime ≤ 100 * (query_credit_cost executionTime - 1)
  ∧ 100 * (query_credit_cost executionTime - 2) < executionTime
  ∧ (∀ later, executionTime ≤ later →
              query_credit_cost executionTime ≤ query_credit_cost later)
  ∧ (executionTime = 0 → query_credit_cost executionTime = 1).
Proof.
  intros Hpos. unfold query_credit_cost.
  split_and!.
  - Z.to_euclidean_division_equations. lia.
  - Z.to_euclidean_division_equations. lia.
  - Z.to_euclidean_division_equations. lia.
  - intros later Hlater. Z.to_euclidean_division_equations. lia.
  - by intros ->.
Qed.

Lemma query_credit_cost_bounds_witness :
  1 ≤ query_credit_cost 250 ∧ query_credit_cost 250 = 4.
Proof.
  split; [|reflexivity].
  assert (0 ≤ 250) as Hpos by (vm_compute; discriminate).
  exact (proj1 (query_credit_cost_bounds 250 Hpos)).
Defined.

(** ** Saved queries *)

(** X25: a saved query created for an integration the member owns is
    stored under a fresh id with a usage count of 0; [getApiQueryById]
    returns it to its member and to no other member; [getApiQueries]
    lists it, together with exactly the queries the integration had
    before; and one [updateQueryUsage] raises its usage count to 1. *)
Theorem saved_query_round_trip
    (now used updated : Z) (m id : Id) (queryData : ApiQuery)
    (db : IntegrationsDb) (d : ApiIntegration) :
  stored (apiIntegrations db) id = Some d →
  int_memberId d = m →
  ∃ db',
    createApiQuery now m id queryData db
      = (Returned (length (apiQueries db)), db')
    ∧ apiIntegrations db' = apiIntegrations db
    ∧ getApiQueryById (length (apiQueries db)) m db'
      = Some (new_query now m id queryData)
    ∧ (∀ m', m' ≠ m → getApiQueryById (length (apiQueries db)) m' db' = None)
    ∧ (∃ qs, getApiQueries id m db' = (Returned qs, db')
             ∧ ∀ p, p ∈ qs ↔
                    p = (length (apiQueries db), new_query now m id queryData)
                    ∨ p ∈ queries_of id db)
    ∧ (∃ q, stored (apiQueries
                      (updateQueryUsage used updated (length (apiQueries db)) db').2)
              (length (apiQueries db)) = Some q
            ∧ usageCount q = 1
            ∧ q_name q = q_name queryData).
Proof.
  intros Hd Hm.
  unfold createApiQuery, hbind.
  rewrite (owned_integration_found _ _ _ _ Hd Hm).
  fold (new_query now m id queryData).
  eexists. split; [reflexivity|]. simpl.
  set (db' := {| idb_subscriptions := _ |}).
  assert (stored (apiQueries db') (length (apiQueries db))
          = Some (new_query now m id queryData)) as Hnew.
  { apply stored_Some. simpl. by apply list_lookup_middle. }
  split_and!.
  - done.
  - unfold getApiQueryById. rewrite Hnew. simpl. by rewrite decide_True.
  - intros m' Hm'. unfold getApiQueryById. rewrite Hnew. simpl.
    by rewrite decide_False.
  - unfold getApiQueries, hbind.
    rewrite (owned_integration_found id m db' d) by done.
    eexists. split; [reflexivity|].
    intros [j q]. rewrite !elem_of_queries_of, !stored_Some.
    subst db'; simpl.
    rewrite lookup_app_Some, list_lookup_singleton_Some.
    split.
    + intros [[Hj|(Hge & Hj & Hq)] Hid].
      * by right.
      * left. injection Hq as <-. f_equal. lia.
    + intros [[= -> ->]|[Hj Hid]].
      * split; [|done]. right. split_and!; [lia|lia|done].
      * split; [|done]. by left.
  - unfold updateQueryUsage, hbind, store_get; simpl.
    change (stored (apiQueries db ++ [Some (new_query now m id queryData)])
              (length (apiQueries db)))
      with (stored (apiQueries db') (length (apiQueries db))).
    rewrite Hnew.
    rewrite (store_patch_found apiQueriesT _ _ db' (new_query now m id queryData))
      by done.
    simpl. eexists. split; [by eapply stored_insert_eq|]. done.
Qed.

Lemma saved_query_round_trip_witness :
  ∃ db',
    createApiQuery 9 7 1 (sample_query 5 "c") integrations_db
      = (Returned 3%nat, db')
    ∧ getApiQueryById 3 7 db' = Some (new_query 9 7 1 (sample_query 5 "c")).
Proof.
  destruct (saved_query_round_trip 9 10 10 7 1 (sample_query 5 "c")
              integrations_db
              (new_integration 0 7%nat "crm" rest_api plain_config)
              eq_refl eq_refl)
    as (db' & Hrun & _ & Hget & _).
  exists db'. split; [exact Hrun|exact Hget].
Defined.

(** ** Updating an integration *)

Lemma updateApiIntegration_owned now id m updates db d :
  stored (apiIntegrations db) id = Some d → int_memberId d = m →
  updateApiIntegration now id m updates db =
    (Returned {| ok := true |},
     with_docs apiIntegrationsT
       (<[id := Some (apply_updates updates now d)]> (apiIntegrations db)) db).
Proof.
  intros Hd Hm. unfold updateApiIntegration, hbind.
  rewrite (owned_integration_found _ _ _ _ Hd Hm).
  by rewrite (store_patch_found apiIntegrationsT _ _ _ d).
Qed.

(** The integrations that count against the limit, before sorting. *)
Lemma counted_integrations_length m db :
  counted_integrations m db =
    length (filter (λ p, int_status p.2 ≠ status_inactive)
              (filter (λ p, int_memberId p.2 = m) (live (apiIntegrations db)))).
Proof.
  unfold counted_integrations, integrations_of.
  by rewrite (index_order_Permutation _ _).
Qed.

Lemma counted_integrations_reactivate m db id d d' :
  stored (apiIntegrations db) id = Some d →
  int_status d = status_inactive →
  int_memberId d' = m → int_status d' ≠ status_inactive →
  counted_integrations m
    (with_docs apiIntegrationsT (<[id := Some d']> (apiIntegrations db)) db)
  = S (counted_integrations m db).
Proof.
  intros Hd%stored_Some Hinactive Hm Hactive.
  rewrite !counted_integrations_length. simpl.
  assert (filter (λ p : Id * ApiIntegration, int_status p.2 ≠ status_inactive)
            (filter (λ p : Id * ApiIntegration, int_memberId p.2 = m)
               (live (<[id := Some d']> (apiIntegrations db))))
          ≡ₚ (id, d')
             :: filter (λ p : Id * ApiIntegration, int_status p.2 ≠ status_inactive)
                  (filter (λ p : Id * ApiIntegration, int_memberId p.2 = m)
                     (live (apiIntegrations db)))) as Hperm.
  { apply list.NoDup_Permutation.
    - apply NoDup_filter, NoDup_filter, NoDup_live.
    - apply NoDup_cons. split; [|apply NoDup_filter, NoDup_filter, NoDup_live].
      rewrite !list_elem_of_filter, elem_of_live. simpl.
      intros (_ & _ & Hin). rewrite Hd in Hin. by simplify_eq.
    - intros [j a]. rewrite elem_of_cons, !list_elem_of_filter, !elem_of_live.
      rewrite list_lookup_insert_Some. simpl. split.
      + intros (Hst & Hmem & [(-> & [= ->] & _)|[Hne Hj]]); [by left|by right].
      + intros [[= -> ->]|(Hst & Hmem & Hj)].
        * split_and!; [done..|]. left. split_and!; eauto using lookup_lt_Some.
        * split_and!; [done..|]. right. split; [|done].
          intros ->. rewrite Hd in Hj. by simplify_eq. }
  by rewrite Hperm.
Qed.

(** X26: for the owner, [updateApiIntegration] returns and rewrites only
    the named fields of that one integration (an omitted field keeps its
    value; owner, provider and counters never change), leaving every other
    integration and every saved query alone.  It does not look at the
    plan: setting an inactive integration to another status raises the
    number of integrations that count against [maxApiIntegrations] by
    one, whatever the limit is. *)
Theorem updateApiIntegration_ignores_limit
    (now : Z) (id m : Id) (updates : IntegrationUpdates)
    (db : IntegrationsDb) (d : ApiIntegration) :
  stored (apiIntegrations db) id = Some d →
  int_memberId d = m →
  ∃ db' d',
    updateApiIntegration now id m updates db = (Returned {| ok := true |}, db')
    ∧ stored (apiIntegrations db') id = Some d'
    ∧ int_name d' = default (int_name d) (upd_name updates)
    ∧ int_status d' = default (int_status d) (upd_status updates)
    ∧ int_config d' = default (int_config d) (upd_config updates)
    ∧ int_memberId d' = int_memberId d
    ∧ int_provider d' = int_provider d
    ∧ totalRequests d' = totalRequests d
    ∧ failedRequests d' = failedRequests d
    ∧ (∀ j, j ≠ id →
            stored (apiIntegrations db') j = stored (apiIntegrations db) j)
    ∧ apiQueries db' = apiQueries db
    ∧ (int_status d = status_inactive →
       (∃ s, upd_status updates = Some s ∧ s ≠ status_inactive) →
       counted_integrations m db' = S (counted_integrations m db)).
Proof.
  intros Hd Hm.
  rewrite (updateApiIntegration_owned _ _ _ _ _ _ Hd Hm).
  do 2 eexists. split; [reflexivity|]. simpl.
  split; [by eapply stored_insert_eq|].
  split_and!; try done.
  - intros j Hj. by apply stored_insert_ne.
  - intros Hinactive (s & Hs & Hactive).
    apply (counted_integrations_reactivate m db id d); try done.
    simpl. by rewrite Hs.
Qed.

Lemma updateApiIntegration_ignores_limit_witness :
  ∃ db' d',
    updateApiIntegration 9 1 7
      {| upd_name := None; upd_status := Some status_active; upd_config := None |}
      integrations_db = (Returned {| ok := true |}, db')
    ∧ stored (apiIntegrations db') 1 = Some d'
    ∧ int_status d' = status_active
    ∧ int_name d' = "crm".
Proof.
  destruct (updateApiIntegration_ignores_limit 9 1 7
              {| upd_name := None; upd_status := Some status_active;
                 upd_config := None |}
              integrations_db
              (new_integration 0 7%nat "crm" rest_api plain_config)
              eq_refl eq_refl)
    as (db' & d' & Hrun & Hd' & Hname & Hstatus & _).
  exists db', d'. split_and!; [exact Hrun|exact Hd'|exact Hstatus|exact Hname].
Defined.

(** * Binary64 arithmetic on safe integers *)

(** ** Rounding an integer that fits in 53 bits *)

Lemma iter_pos_nat {A} (f : A → A) n x :
  iter_pos f n x = Nat.iter (Pos.to_nat n) f x.
Proof.
  revert x. induction n as [n IH|n IH|]; intros x.
  - change (iter_pos f n~1 x) with (iter_pos f n (iter_pos f n (f x))).
    rewrite !IH, Pos2Nat.inj_xI, <- Nat.iter_add, <- Nat.iter_succ_r.
    f_equal. lia.
  - change (iter_pos f n~0 x) with (iter_pos f n (iter_pos f n x)).
    rewrite !IH, Pos2Nat.inj_xO, <- Nat.iter_add. f_equal. lia.
  - done.
Qed.

Lemma Pos_iter_nat {A} (f : A → A) n x :
  Pos.iter f x n = Nat.iter (Pos.to_nat n) f x.
Proof. apply Pos2Nat.inj_iter. Qed.

Lemma Zpos_shl k p : Zpos (Nat.iter k xO p) = Zpos p * 2 ^ Z.of_nat k.
Proof.
  induction k as [|k IH]; [simpl; lia|].
  rewrite Nat2Z.inj_succ, Z.pow_succ_r by lia. simpl Nat.iter.
  rewrite Pos2Z.inj_xO, IH. lia.
Qed.

Lemma digits_shl k p :
  Zpos (digits2_pos (Nat.iter k xO p)) = Zpos (digits2_pos p) + Z.of_nat k.
Proof.
  induction k as [|k IH]; [simpl; lia|].
  rewrite Nat2Z.inj_succ. simpl. rewrite Pos2Z.inj_succ, IH. lia.
Qed.

Lemma digits_bounds p :
  2 ^ (Zpos (digits2_pos p) - 1) ≤ Zpos p < 2 ^ Zpos (digits2_pos p).
Proof.
  induction p as [p IH|p IH|]; simpl digits2_pos; [| |simpl; lia].
  - rewrite Pos2Z.inj_succ, (Pos2Z.inj_xI p).
    replace (Z.succ (Zpos (digits2_pos p)) - 1) with (Z.succ (Zpos (digits2_pos p) - 1)) by lia.
    rewrite !Z.pow_succ_r by lia.
    revert IH. generalize (2 ^ (Z.pos (digits2_pos p) - 1)) (2 ^ Z.pos (digits2_pos p)).
    lia.
  - rewrite Pos2Z.inj_succ, (Pos2Z.inj_xO p).
    replace (Z.succ (Zpos (digits2_pos p)) - 1) with (Z.succ (Zpos (digits2_pos p) - 1)) by lia.
    rewrite !Z.pow_succ_r by lia.
    revert IH. generalize (2 ^ (Z.pos (digits2_pos p) - 1)) (2 ^ Z.pos (digits2_pos p)).
    lia.
Qed.

Lemma shr_1_shl k p :
  Nat.iter k shr_1 {| shr_m := Zpos (Nat.iter k xO p); shr_r := false; shr_s := false |}
  = {| shr_m := Zpos p; shr_r := false; shr_s := false |}.
Proof.
  induction k as [|k IH]; [done|].
  by rewrite Nat.iter_succ_r.
Qed.

Lemma shr_fexp_shifted p n e :
  Zpos (digits2_pos p) = 53 → -1074 ≤ e →
  shr_fexp 53 1024 (Zpos (Nat.iter n xO p)) e loc_Exact
  = ({| shr_m := Zpos p; shr_r := false; shr_s := false |}, e + Z.of_nat n).
Proof.
  intros Hd He. unfold shr_fexp, fexp, emin.
  change (Zdigits2 (Z.pos (Nat.iter n xO p)))
    with (Zpos (digits2_pos (Nat.iter n xO p))).
  rewrite digits_shl, Hd.
  replace (Z.max (53 + Z.of_nat n + e - 53) (3 - 1024 - 53) - e)
    with (Z.of_nat n) by lia.
  destruct n as [|n]; [by rewrite Z.add_0_r|].
  replace (Z.of_nat (S n)) with (Zpos (Pos.of_succ_nat n)) at 1 by lia.
  unfold shr. rewrite iter_pos_nat, SuccNat2Pos.id_succ.
  change (shr_record_of_loc (Z.pos (Nat.iter (S n) xO p)) loc_Exact)
    with {| shr_m := Zpos (Nat.iter (S n) xO p); shr_r := false; shr_s := false |}.
  by rewrite shr_1_shl.
Qed.

Lemma round_aux_shifted s p n e :
  Zpos (digits2_pos p) = 53 → -1074 ≤ e → e + Z.of_nat n ≤ 971 →
  binary_round_aux 53 1024 s (Zpos (Nat.iter n xO p)) e loc_Exact
  = S754_finite s p (e + Z.of_nat n).
Proof.
  intros Hd He Hn. unfold binary_round_aux.
  rewrite shr_fexp_shifted by done. simpl.
  rewrite (shr_fexp_shifted p 0) by (done || lia). simpl.
  rewrite Z.add_0_r.
  destruct (Z.leb_spec (e + Z.of_nat n) (1024 - 53)); [done|lia].
Qed.

Lemma round_aux_canonical s m e :
  Zpos (digits2_pos m) = 53 → -1074 ≤ e ≤ 971 →
  binary_round_aux 53 1024 s (Zpos m) e loc_Exact = S754_finite s m e.
Proof.
  intros Hd He. rewrite (round_aux_shifted s m 0) by (done || lia).
  f_equal. lia.
Qed.

Lemma binary_round_shl s q k :
  Zpos q < 2 ^ 53 → (k ≤ 1000)%nat →
  binary_round 53 1024 s (Nat.iter k xO q) (- Z.of_nat k) = canonical s q.
Proof.
  intros Hq Hk. pose proof (digits_bounds q) as [Hlo _].
  assert (Zpos (digits2_pos q) ≤ 53) as Hd.
  { destruct (Z.le_gt_cases (Zpos (digits2_pos q)) 53) as [|Hgt]; [done|].
    assert (2 ^ 53 ≤ 2 ^ (Zpos (digits2_pos q) - 1)); [|lia].
    apply Z.pow_le_mono_r; lia. }
  set (d := Zpos (digits2_pos q)) in *.
  set (p := Nat.iter (Z.to_nat (53 - d)) xO q).
  assert (Zpos (digits2_pos p) = 53) as Hp.
  { unfold p. rewrite digits_shl. fold d. lia. }
  unfold canonical. fold d. fold p.
  unfold binary_round, fexp, emin. rewrite digits_shl. fold d.
  replace (Z.max (d + Z.of_nat k + - Z.of_nat k - 53) (3 - 1024 - 53)) with (d - 53) by lia.
  unfold shl_align.
  destruct (d - 53 - - Z.of_nat k) as [|g|g] eqn:Hg.
  - assert (k = Z.to_nat (53 - d)) as -> by lia. fold p.
    rewrite round_aux_canonical by (assumption || lia). f_equal. lia.
  - assert (k = (Z.to_nat (Zpos g) + Z.to_nat (53 - d))%nat) as -> by lia.
    rewrite Nat.iter_add. fold p.
    rewrite round_aux_shifted by (assumption || lia). f_equal. lia.
  - rewrite Pos_iter_nat, <- Nat.iter_add.
    replace (Pos.to_nat g + k)%nat with (Z.to_nat (53 - d)) by lia. fold p.
    by rewrite round_aux_canonical by (assumption || lia).
Qed.

Lemma of_Z_pos p : Zpos p < 2 ^ 53 → of_Z (Zpos p) = canonical false p.
Proof. intros Hp. apply (binary_round_shl false p 0 Hp); lia. Qed.

Lemma of_Z_neg p : Zpos p < 2 ^ 53 → of_Z (Zneg p) = canonical true p.
Proof. intros Hp. apply (binary_round_shl true p 0 Hp); lia. Qed.

Lemma shl_align_value m e e' :
  e' ≤ e → Zpos (fst (shl_align m e e')) = Zpos m * 2 ^ (e - e').
Proof.
  intros He. unfold shl_align.
  destruct (e' - e) as [|g|g] eqn:Hg; simpl.
  - replace (e - e') with 0 by lia. lia.
  - lia.
  - rewrite Pos_iter_nat, Zpos_shl. do 2 f_equal. lia.
Qed.

Lemma normalize_scaled z k :
  safe z → (k ≤ 1000)%nat →
  binary_normalize 53 1024 (z * 2 ^ Z.of_nat k) (- Z.of_nat k) false = of_Z z.
Proof.
  unfold safe. intros Hz Hk. destruct z as [|q|q]; [done|..].
  - rewrite <- Zpos_shl. unfold of_Z. simpl binary_normalize.
    rewrite binary_round_shl, <- (binary_round_shl false q 0) by lia. done.
  - change (Zneg q) with (- Zpos q).
    rewrite Z.mul_opp_l, <- Zpos_shl. unfold of_Z. simpl binary_normalize.
    rewrite binary_round_shl, <- (binary_round_shl true q 0) by lia. done.
Qed.

Lemma canonical_value s p :
  Zpos p < 2 ^ 53 →
  ∃ m e, canonical s p = S754_finite s m e
         ∧ -52 ≤ e ≤ 0
         ∧ e = Zpos (digits2_pos p) - 53
         ∧ Zpos m = Zpos p * 2 ^ (- e).
Proof.
  intros Hp. pose proof (digits_bounds p) as [Hlo _].
  assert (Zpos (digits2_pos p) ≤ 53) as Hd.
  { destruct (Z.le_gt_cases (Zpos (digits2_pos p)) 53) as [|Hgt]; [done|].
    assert (2 ^ 53 ≤ 2 ^ (Zpos (digits2_pos p) - 1)); [|lia].
    apply Z.pow_le_mono_r; lia. }
  eexists _, _. split; [reflexivity|]. split_and!; [lia..|done|].
  rewrite Zpos_shl. do 2 f_equal. lia.
Qed.

Lemma cond_Zopp_mul s a b : cond_Zopp s a * b = cond_Zopp s (a * b).
Proof. destruct s; simpl; lia. Qed.

Lemma add_canonical sa a sb b :
  Zpos a < 2 ^ 53 → Zpos b < 2 ^ 53 →
  safe (cond_Zopp sa (Zpos a) + cond_Zopp sb (Zpos b)) →
  num_add (canonical sa a) (canonical sb b)
  = of_Z (cond_Zopp sa (Zpos a) + cond_Zopp sb (Zpos b)).
Proof.
  intros Ha Hb Hsum.
  destruct (canonical_value sa a Ha) as (ma & ea & -> & Hea & _ & Hma).
  destruct (canonical_value sb b Hb) as (mb & eb & -> & Heb & _ & Hmb).
  unfold num_add, SFadd.
  rewrite !shl_align_value by lia. rewrite Hma, Hmb.
  set (ez := Z.min ea eb).
  rewrite <- (normalize_scaled _ (Z.to_nat (- ez))) by (done || lia).
  f_equal; [|lia].
  rewrite Z.mul_add_distr_r, !cond_Zopp_mul. f_equal; f_equal.
  - rewrite <- !Z.mul_assoc, <- Z.pow_add_r by lia. do 2 f_equal. lia.
  - rewrite <- !Z.mul_assoc, <- Z.pow_add_r by lia. do 2 f_equal. lia.
Qed.

Lemma sub_canonical sa a sb b :
  Zpos a < 2 ^ 53 → Zpos b < 2 ^ 53 →
  safe (cond_Zopp sa (Zpos a) - cond_Zopp sb (Zpos b)) →
  num_sub (canonical sa a) (canonical sb b)
  = of_Z (cond_Zopp sa (Zpos a) - cond_Zopp sb (Zpos b)).
Proof.
  intros Ha Hb Hsum.
  destruct (canonical_value sa a Ha) as (ma & ea & -> & Hea & _ & Hma).
  destruct (canonical_value sb b Hb) as (mb & eb & -> & Heb & _ & Hmb).
  unfold num_sub, SFsub.
  rewrite !shl_align_value by lia. rewrite Hma, Hmb.
  set (ez := Z.min ea eb).
  rewrite <- (normalize_scaled _ (Z.to_nat (- ez))) by (done || lia).
  f_equal; [|lia].
  rewrite Z.mul_sub_distr_r, !cond_Zopp_mul. f_equal; f_equal.
  - rewrite <- !Z.mul_assoc, <- Z.pow_add_r by lia. do 2 f_equal. lia.
  - rewrite <- !Z.mul_assoc, <- Z.pow_add_r by lia. do 2 f_equal. lia.
Qed.

Lemma of_Z_signed s p :
  Zpos p < 2 ^ 53 → of_Z (cond_Zopp s (Zpos p)) = canonical s p.
Proof. destruct s; [apply of_Z_neg|apply of_Z_pos]. Qed.

Lemma represents_cases x z :
  represents x z → safe z →
  (z = 0 ∧ ∃ s, x = S754_zero s)
  ∨ ∃ s p, z = cond_Zopp s (Zpos p) ∧ Zpos p < 2 ^ 53 ∧ x = canonical s p.
Proof.
  unfold safe. intros [->|[-> ->]] Hz; [|left; eauto].
  destruct z as [|p|p].
  - left. split; [done|]. by exists false.
  - right. exists false, p. split_and!; [done|lia|]. apply of_Z_pos. lia.
  - right. exists true, p. split_and!; [done|lia|]. apply of_Z_neg. lia.
Qed.

Lemma represents_zero s : represents (S754_zero s) 0.
Proof. destruct s; [by right|by left]. Qed.

Lemma represents_canonical s p :
  Zpos p < 2 ^ 53 → represents (canonical s p) (cond_Zopp s (Zpos p)).
Proof. intros Hp. left. by rewrite of_Z_signed. Qed.

Lemma represents_of_Z z : represents (of_Z z) z.
Proof. by left. Qed.

Lemma safe_signed s p : safe (cond_Zopp s (Zpos p)) ↔ Zpos p < 2 ^ 53.
Proof. unfold safe. destruct s; simpl; lia. Qed.

Lemma add_exact x a y b :
  represents x a → represents y b → safe a → safe b → safe (a + b) →
  represents (num_add x y) (a + b).
Proof.
  intros Hx Hy Ha Hb Hab.
  destruct (represents_cases x a Hx Ha) as [[-> [sx ->]]|(sx & p & -> & Hp & ->)];
    destruct (represents_cases y b Hy Hb) as [[-> [sy ->]]|(sy & q & -> & Hq & ->)].
  - destruct sx, sy; apply represents_zero.
  - by apply represents_canonical.
  - rewrite Z.add_0_r. by apply represents_canonical.
  - left. by apply add_canonical.
Qed.

Lemma sub_exact x a y b :
  represents x a → represents y b → safe a → safe b → safe (a - b) →
  represents (num_sub x y) (a - b).
Proof.
  intros Hx Hy Ha Hb Hab.
  destruct (represents_cases x a Hx Ha) as [[-> [sx ->]]|(sx & p & -> & Hp & ->)];
    destruct (represents_cases y b Hy Hb) as [[-> [sy ->]]|(sy & q & -> & Hq & ->)].
  - destruct sx, sy; apply represents_zero.
  - replace (0 - cond_Zopp sy (Zpos q)) with (cond_Zopp (negb sy) (Zpos q))
      by (destruct sy; simpl; lia).
    by apply (represents_canonical (negb sy)).
  - rewrite Z.sub_0_r. by apply represents_canonical.
  - left. by apply sub_canonical.
Qed.

Lemma neg_exact x a :
  represents x a → safe a → represents (num_neg x) (- a).
Proof.
  intros Hx Ha.
  destruct (represents_cases x a Hx Ha) as [[-> [sx ->]]|(sx & p & -> & Hp & ->)].
  - apply represents_zero.
  - replace (- cond_Zopp sx (Zpos p)) with (cond_Zopp (negb sx) (Zpos p))
      by (destruct sx; simpl; lia).
    by apply (represents_canonical (negb sx)).
Qed.

Lemma compare_magnitudes a b :
  Zpos a < 2 ^ 53 → Zpos b < 2 ^ 53 →
  SFcompare (canonical false a) (canonical false b) = Some (Zpos a ?= Zpos b).
Proof.
  intros Ha Hb.
  destruct (canonical_value false a Ha) as (ma & ea & -> & Hea & Hda & Hma).
  destruct (canonical_value false b Hb) as (mb & eb & -> & Heb & Hdb & Hmb).
  pose proof (digits_bounds a) as [Hla Hua].
  pose proof (digits_bounds b) as [Hlb Hub].
  unfold SFcompare. f_equal.
  destruct (Z.compare_spec ea eb) as [Heq|Hlt|Hgt].
  - rewrite Pos.compare_cont_spec.
    replace (Pos.switch_Eq Eq (ma ?= mb)%positive) with (Zpos ma ?= Zpos mb)
      by (simpl; by destruct (ma ?= mb)%positive).
    rewrite Hma, Hmb, Heq. symmetry. apply Zmult_compare_compat_r.
    apply Z.lt_gt, Z.pow_pos_nonneg; lia.
  - symmetry. apply Z.compare_lt_iff.
    assert (2 ^ Zpos (digits2_pos a) ≤ 2 ^ (Zpos (digits2_pos b) - 1)); [|lia].
    apply Z.pow_le_mono_r; lia.
  - symmetry. apply Z.compare_gt_iff.
    assert (2 ^ Zpos (digits2_pos b) ≤ 2 ^ (Zpos (digits2_pos a) - 1)); [|lia].
    apply Z.pow_le_mono_r; lia.
Qed.

Lemma compare_exact x a y b :
  represents x a → represents y b → safe a → safe b →
  SFcompare x y = Some (a ?= b).
Proof.
  intros Hx Hy Ha Hb.
  destruct (represents_cases x a Hx Ha) as [[-> [sx ->]]|(sx & p & -> & Hp & ->)];
    destruct (represents_cases y b Hy Hb) as [[-> [sy ->]]|(sy & q & -> & Hq & ->)].
  - done.
  - by destruct sy.
  - by destruct sx.
  - pose proof (compare_magnitudes p q Hp Hq) as Hpq.
    unfold canonical, SFcompare in *.
    destruct sx, sy; [|done..|done].
    injection Hpq as Hpq. f_equal. simpl. rewrite <- Hpq.
    by destruct (_ ?= _).
Qed.

Lemma ltb_exact x a y b :
  represents x a → represents y b → safe a → safe b →
  num_ltb x y = (a <? b).
Proof.
  intros Hx Hy Ha Hb. unfold num_ltb, SFltb, Z.ltb.
  rewrite (compare_exact x a y b) by done. by destruct (a ?= b).
Qed.

Lemma eqb_exact x a y b :
  represents x a → represents y b → safe a → safe b →
  num_eqb x y = (a =? b).
Proof.
  intros Hx Hy Ha Hb. unfold num_eqb, SFeqb.
  rewrite (compare_exact x a y b) by done.
  destruct (Z.compare_spec a b), (Z.eqb_spec a b); done || lia.
Qed.

(** * The binary64 ledger on safe integers *)

(** ** One call, on numbers *)

Lemma binary64_addCredits_absent now args db :
  Binary64.balance_row (Binary64.add_memberId args) db = None →
  Binary64.addCredits now args db =
    (Returned {| Binary64.success := true;
                 Binary64.newBalance := Binary64.add_amount args |},
     {| Binary64.creditBalances := Binary64.creditBalances db ++
          [{| Binary64.cb_memberId := Binary64.add_memberId args;
              Binary64.balance := Binary64.add_amount args;
              Binary64.lifetimeEarned := Binary64.add_amount args;
              Binary64.lifetimeSpent := of_Z 0;
              Binary64.lastResetAt := now; Binary64.cb_updatedAt := now |}];
        Binary64.creditTransactions := Binary64.creditTransactions db ++
          [{| Binary64.tx_memberId := Binary64.add_memberId args;
              Binary64.tx_amount := Binary64.add_amount args;
              Binary64.balanceAfter := Binary64.add_amount args;
              Binary64.tx_type := transaction_type_of (Binary64.add_type args);
              Binary64.tx_description := Binary64.add_description args;
              Binary64.tx_subscriptionId := Binary64.add_subscriptionId args;
              Binary64.tx_chatId := None; Binary64.tx_usageRecordId := None;
              Binary64.tx_metadata := Binary64.add_metadata args;
              Binary64.tx_createdAt := now |}] |}).
Proof. intros Hrow. unfold Binary64.addCredits. by rewrite Hrow. Qed.

Lemma binary64_addCredits_present now args db i b :
  Binary64.balance_row (Binary64.add_memberId args) db = Some (i, b) →
  Binary64.addCredits now args db =
    (Returned {| Binary64.success := true;
                 Binary64.newBalance :=
                   num_add (Binary64.balance b) (Binary64.add_amount args) |},
     {| Binary64.creditBalances :=
          <[i := {| Binary64.cb_memberId := Binary64.cb_memberId b;
                    Binary64.balance :=
                      num_add (Binary64.balance b) (Binary64.add_amount args);
                    Binary64.lifetimeEarned :=
                      num_add (Binary64.lifetimeEarned b) (Binary64.add_amount args);
                    Binary64.lifetimeSpent := Binary64.lifetimeSpent b;
                    Binary64.lastResetAt := Binary64.lastResetAt b;
                    Binary64.cb_updatedAt := now |}]> (Binary64.creditBalances db);
        Binary64.creditTransactions := Binary64.creditTransactions db ++
          [{| Binary64.tx_memberId := Binary64.add_memberId args;
              Binary64.tx_amount := Binary64.add_amount args;
              Binary64.balanceAfter :=
                num_add (Binary64.balance b) (Binary64.add_amount args);
              Binary64.tx_type := transaction_type_of (Binary64.add_type args);
              Binary64.tx_description := Binary64.add_description args;
              Binary64.tx_subscriptionId := Binary64.add_subscriptionId args;
              Binary64.tx_chatId := None; Binary64.tx_usageRecordId := None;
              Binary64.tx_metadata := Binary64.add_metadata args;
              Binary64.tx_createdAt := now |}] |}).
Proof. intros Hrow. unfold Binary64.addCredits. by rewrite Hrow. Qed.

(** ** Rows and their integer views *)

Lemma find_represented m fb db :
  Forall2 balance_represents fb db →
  match list_find (λ r, Binary64.cb_memberId r = m) fb,
        list_find (λ r, cb_memberId r = m) db with
  | Some (i, f), Some (j, d) => i = j ∧ balance_represents f d
  | None, None => True
  | _, _ => False
  end.
Proof.
  induction 1 as [|f d fb db Hfd _ IH]; [done|]. simpl.
  pose proof Hfd as (Hm & _).
  destruct (decide (Binary64.cb_memberId f = m)) as [Hf|Hf];
    destruct (decide (cb_memberId d = m)) as [Hd|Hd]; try congruence; [done|].
  destruct (list_find _ fb) as [[i f']|], (list_find _ db) as [[j d']|];
    simpl; try done.
  destruct IH as [-> ?]. done.
Qed.

Lemma magnitude_nonneg zs : 0 ≤ magnitude zs.
Proof. induction zs; simpl; lia. Qed.

Lemma magnitude_app zs ws : magnitude (zs ++ ws) = magnitude zs + magnitude ws.
Proof. induction zs; simpl; lia. Qed.

Lemma magnitude_take n zs : magnitude (take n zs) ≤ magnitude zs.
Proof.
  revert n. induction zs as [|z zs IH]; intros [|n]; simpl; try lia.
  - pose proof (magnitude_nonneg zs). lia.
  - specialize (IH n). lia.
Qed.

Lemma within_mono B B' d : within B d → B ≤ B' → within B' d.
Proof.
  intros [Hrows Hlog] HB. split; [|lia].
  eapply Forall_impl; [exact Hrows|]. simpl. intros b. lia.
Qed.

Lemma within_write B z d bals t :
  within B d → 0 ≤ B →
  Forall (λ b, Z.abs (balance b) ≤ B + Z.abs z
               ∧ Z.abs (lifetimeEarned b) ≤ B + Z.abs z
               ∧ Z.abs (lifetimeSpent b) ≤ B + Z.abs z) bals →
  Z.abs (tx_amount t) = Z.abs z →
  within (B + Z.abs z) (ledger_write d bals t).
Proof.
  intros [_ Hlog] HB Hbals Ht. split; [done|]. simpl.
  rewrite fmap_app, magnitude_app. simpl. lia.
Qed.

(** ** One operation *)

Lemma apply_op_represented op z F D B :
  ledger_represents F D → within B D → 0 ≤ B →
  represents (Binary64.op_amount op) z → B + Z.abs z < 2 ^ 53 →
  ledger_represents (Binary64.apply_op op F) (apply_op (exact_op op z) D)
  ∧ within (B + Z.abs z) (apply_op (exact_op op z) D).
Proof.
  intros [Hbal Htx] Hin HB Hz Hsafe.
  pose proof Hin as [Hrows Hlog].
  assert (safe z) as Hzs by (unfold safe; lia).
  assert (∀ d, Z.abs d ≤ B → safe d) as Hsafe_row by (unfold safe; lia).
  assert (∀ d, Z.abs d ≤ B → safe (d + z) ∧ safe (d - z)) as Hsafe_sum
    by (unfold safe; lia).
  destruct op as [now args|now args];
    unfold Binary64.apply_op, exact_op, apply_op; simpl in Hz.
  - set (args' := exact_add args z).
    pose proof (find_represented (Binary64.add_memberId args) _ _ Hbal) as Hfind.
    destruct (list_find _ (Binary64.creditBalances F)) as [[i f]|] eqn:HF;
      destruct (list_find _ (creditBalances D)) as [[j d]|] eqn:HD; try done.
    + destruct Hfind as [-> (Hm & Hb & He & Hs)].
      rewrite (binary64_addCredits_present _ _ _ _ _ HF).
      rewrite (addCredits_present D now args' j d HD). simpl.
      pose proof HD as (Hj & _ & _)%list_find_Some.
      pose proof (Forall_lookup_1 _ _ _ _ Hrows Hj) as (Hdb & Hde & Hds).
      split.
      * split; simpl.
        -- apply Forall2_insert; [done|].
           split_and!; simpl; [done|..|done];
             apply add_exact; auto; by apply Hsafe_sum.
        -- apply Forall2_app; [done|]. constructor; [|constructor].
           split_and!; simpl; [done|done| |done].
           apply add_exact; auto. by apply Hsafe_sum.
      * apply within_write; [done..| |done].
        apply Forall_insert.
        -- eapply Forall_impl; [exact Hrows|]. simpl. intros b. lia.
        -- simpl. lia.
    + rewrite (binary64_addCredits_absent _ _ _ HF).
      rewrite (addCredits_absent D now args' HD). simpl.
      split.
      * split; simpl.
        -- apply Forall2_app; [done|]. constructor; [|constructor].
           split_and!; simpl; [done..|]. apply (represents_zero false).
        -- apply Forall2_app; [done|]. constructor; [|constructor].
           by split_and!.
      * apply within_write; [done..| |done].
        apply Forall_app. split.
        -- eapply Forall_impl; [exact Hrows|]. simpl. intros b. lia.
        -- constructor; [|constructor]. simpl. lia.
  - set (args' := exact_deduct args z).
    pose proof (find_represented (Binary64.ded_memberId args) _ _ Hbal) as Hfind.
    unfold Binary64.deductCredits, Binary64.balance_row.
    destruct (list_find _ (Binary64.creditBalances F)) as [[i f]|] eqn:HF;
      destruct (list_find _ (creditBalances D)) as [[j d]|] eqn:HD; try done.
    + destruct Hfind as [-> (Hm & Hb & He & Hs)].
      pose proof HD as (Hj & _ & _)%list_find_Some.
      pose proof (Forall_lookup_1 _ _ _ _ Hrows Hj) as (Hdb & Hde & Hds).
      rewrite (ltb_exact _ (balance d) _ z) by auto.
      destruct (Z.ltb_spec (balance d) z) as [Hlt|Hge].
      * rewrite (deductCredits_short D now args' j d HD) by done. simpl.
        split; [done|]. eapply within_mono; [done|lia].
      * rewrite (deductCredits_covered D now args' j d HD) by done. simpl.
        split.
        -- split; simpl.
           ++ apply Forall2_insert; [done|].
              split_and!; simpl; [done| |done|].
              ** apply sub_exact; auto. by apply Hsafe_sum.
              ** apply add_exact; auto. by apply Hsafe_sum.
           ++ apply Forall2_app; [done|]. constructor; [|constructor].
              split_and!; simpl; [done| | |done].
              ** by apply neg_exact.
              ** apply sub_exact; auto. by apply Hsafe_sum.
        -- apply within_write; [done..| |simpl; lia].
           apply Forall_insert.
           ++ eapply Forall_impl; [exact Hrows|]. simpl. intros b. lia.
           ++ simpl. lia.
    + rewrite (deductCredits_absent D now args' HD). simpl.
      split; [done|]. eapply within_mono; [done|lia].
Qed.

(** ** A run of operations *)

Lemma run_ops_represented ops zs :
  integer_amounts ops zs →
  ∀ F D B,
    ledger_represents F D → within B D → 0 ≤ B →
    B + magnitude zs < 2 ^ 53 →
    ledger_represents (Binary64.run_ops ops F)
      (run_ops (zip_with exact_op ops zs) D)
    ∧ within (B + magnitude zs) (run_ops (zip_with exact_op ops zs) D).
Proof.
  induction 1 as [|op z ops zs Hz _ IH]; intros F D B HFD Hin HB Hsafe; simpl in *.
  - split; [done|]. by rewrite Z.add_0_r.
  - pose proof (magnitude_nonneg zs).
    destruct (apply_op_represented op z F D B HFD Hin HB Hz) as [HFD' Hin'];
      [lia|].
    destruct (IH _ _ _ HFD' Hin') as [HFD'' Hin'']; [lia|lia|].
    split; [done|]. by rewrite Z.add_assoc.
Qed.

Lemma empty_represented : ledger_represents Binary64.empty emptyDb ∧ within 0 emptyDb.
Proof. repeat split; simpl; try constructor; lia. Qed.

(** The ledger on numbers after the first [n] operations, its integer
    view, and the bound on the view's totals. *)
Lemma prefix_represented ops zs n :
  integer_amounts ops zs → magnitude zs < 2 ^ 53 →
  ∃ D B,
    ledger_represents (Binary64.run_ops (take n ops) Binary64.empty) D
    ∧ within B D ∧ 0 ≤ B < 2 ^ 53
    ∧ ledger_consistent D ∧ ledger_reconciles D.
Proof.
  intros Hops Hsafe.
  pose proof (magnitude_take n zs) as Htake.
  pose proof (magnitude_nonneg (take n zs)) as Hnonneg.
  destruct empty_represented as [Hempty Hin0].
  destruct (run_ops_represented (take n ops) (take n zs)
              (Forall2_take _ _ _ n Hops) _ _ 0 Hempty Hin0) as [HFD Hin];
    [lia..|].
  set (ops' := zip_with exact_op (take n ops) (take n zs)) in *.
  exists (run_ops ops' emptyDb), (0 + magnitude (take n zs)).
  split_and!; [done|done|lia|lia| |].
  - rewrite <- (firstn_all ops').
    apply (run_ops_invariant ledger_consistent ledger_step_consistent).
    constructor.
  - rewrite <- (firstn_all ops').
    apply (run_ops_invariant ledger_reconciles ledger_step_reconciles).
    split; [intros m; reflexivity|].
    intros [|??] ?? Heq; discriminate Heq.
Qed.

(** ** The balance equation on numbers *)

Lemma row_equation f d B :
  balance_represents f d → B < 2 ^ 53 →
  Z.abs (balance d) ≤ B → Z.abs (lifetimeEarned d) ≤ B →
  Z.abs (lifetimeSpent d) ≤ B →
  balance_equation d → Binary64.balance_equation f.
Proof.
  unfold balance_equation, Binary64.balance_equation.
  intros (_ & Hb & He & Hs) HB Hdb Hde Hds Heq.
  assert (∀ z, Z.abs z ≤ B → safe z) as Hsafe by (unfold safe; lia).
  rewrite (eqb_exact _ (balance d) _ (lifetimeEarned d - lifetimeSpent d));
    [by apply Z.eqb_eq|done| |auto|rewrite <- Heq; auto].
  apply sub_exact; auto. rewrite <- Heq. auto.
Qed.

(** C1 (as stated, refuted): credits are JavaScript numbers, and the three
    totals are rounded separately.  After granting 2^53 - 1, charging
    2^53 - 1 and granting 2, the balance is 2 while [lifetimeEarned] has
    been rounded to 2^53, so [lifetimeEarned - lifetimeSpent] is 1; after
    granting 0.1, charging 0.1 and granting 0.2, the balance is 0.2 and
    [lifetimeEarned - lifetimeSpent] is the next number above 0.2. *)
Lemma balance_equation_rounding_counterexample :
  Binary64.getCreditBalance alice (Binary64.run_ops rounding_ops Binary64.empty)
    = (of_Z 2, of_Z (2 ^ 53), of_Z max_safe_integer)
  ∧ num_sub (of_Z (2 ^ 53)) (of_Z max_safe_integer) = of_Z 1
  ∧ ¬ Forall Binary64.balance_equation
        (Binary64.creditBalances (Binary64.run_ops rounding_ops Binary64.empty))
  ∧ (Binary64.getCreditBalance alice
       (Binary64.run_ops fraction_ops Binary64.empty)).1.1 = Binary64.fifth
  ∧ ¬ Forall Binary64.balance_equation
        (Binary64.creditBalances (Binary64.run_ops fraction_ops Binary64.empty)).
Proof.
  split_and!; [by vm_compute..| |by vm_compute|].
  - intros Hall. apply Forall_inv in Hall. vm_compute in Hall. discriminate.
  - intros Hall. apply Forall_inv in Hall. vm_compute in Hall. discriminate.
Qed.

(** C1 (amended): for every sequence of [addCredits] and [deductCredits]
    calls on a fresh ledger whose amounts are integers with absolute
    values adding up to less than 2^53, after every call every balance
    row satisfies [balance === lifetimeEarned - lifetimeSpent] in the
    arithmetic of the code, and so does the projection [getCreditBalance]
    returns for any member; and the row that [addCredits] creates for a
    member without one holds the amount as its balance and satisfies the
    equation. *)
Theorem balance_equation_safe_integers
    (ops : list Binary64.LedgerOp) (amounts : list Z) (n : nat) :
  integer_amounts ops amounts →
  magnitude amounts < 2 ^ 53 →
  Forall Binary64.balance_equation
    (Binary64.creditBalances (Binary64.run_ops (take n ops) Binary64.empty))
  ∧ (∀ m, num_eqb
            (Binary64.getCreditBalance m
               (Binary64.run_ops (take n ops) Binary64.empty)).1.1
            (num_sub
               (Binary64.getCreditBalance m
                  (Binary64.run_ops (take n ops) Binary64.empty)).1.2
               (Binary64.getCreditBalance m
                  (Binary64.run_ops (take n ops) Binary64.empty)).2) = true)
  ∧ (∀ now args z,
       represents (Binary64.add_amount args) z → safe z →
       Binary64.balance_row (Binary64.add_memberId args)
         (Binary64.run_ops (take n ops) Binary64.empty) = None →
       ∃ i b,
         Binary64.balance_row (Binary64.add_memberId args)
           (Binary64.addCredits now args
              (Binary64.run_ops (take n ops) Binary64.empty)).2 = Some (i, b)
         ∧ Binary64.balance b = Binary64.add_amount args
         ∧ Binary64.balance_equation b).
Proof.
  intros Hops Hsafe.
  destruct (prefix_represented ops amounts n Hops Hsafe)
    as (D & B & [Hbal _] & [Hrows _] & HB & Hcons & _).
  set (ledger := Binary64.run_ops (take n ops) Binary64.empty) in *.
  assert (Forall Binary64.balance_equation (Binary64.creditBalances ledger))
    as Hall.
  { eapply Forall2_Forall_l; [exact Hbal|].
    unfold ledger_consistent in Hcons.
    pose proof (proj2 (Forall_and _ _) (conj Hrows Hcons)) as Hboth.
    eapply Forall_impl; [exact Hboth|]. simpl.
    intros d [(? & ? & ?) Heq] f Hfd. by apply (row_equation f d B); try lia. }
  split_and!; [done| |].
  - intros m. unfold Binary64.getCreditBalance, Binary64.balance_row.
    destruct (list_find _ _) as [[i b]|] eqn:Hrow; [|done]. simpl.
    apply list_find_Some in Hrow as (Hi & _ & _).
    exact (Forall_lookup_1 _ _ _ _ Hall Hi).
  - intros now args z Hz Hzs Hrow.
    rewrite (binary64_addCredits_absent _ _ _ Hrow).
    eexists _, _. split.
    { unfold Binary64.balance_row; simpl. by apply find_snoc_fresh. }
    split; [done|].
    unfold Binary64.balance_equation; simpl.
    rewrite (eqb_exact _ z _ (z - 0)); [apply Z.eqb_eq; lia|done| |done|].
    + apply sub_exact; [done|apply (represents_zero false)|done|done|].
      by rewrite Z.sub_0_r.
    + by rewrite Z.sub_0_r.
Qed.

Lemma balance_equation_safe_integers_witness :
  integer_amounts binary64_sample_ops [150; 100; 100]
  ∧ magnitude [150; 100; 100] < 2 ^ 53
  ∧ Forall Binary64.balance_equation
      (Binary64.creditBalances
         (Binary64.run_ops (take 2 binary64_sample_ops) Binary64.empty)).
Proof.
  assert (integer_amounts binary64_sample_ops [150; 100; 100]) as Hops
    by (repeat constructor).
  assert (magnitude [150; 100; 100] < 2 ^ 53) as Hsafe by reflexivity.
  split_and!; [exact Hops|exact Hsafe|].
  exact (proj1 (balance_equation_safe_integers _ _ 2 Hops Hsafe)).
Defined.

(** ** Adding up a log on numbers *)

Lemma to_Z_represents x z : represents x z → safe z → to_Z x = Some z.
Proof.
  intros Hx Hz.
  destruct (represents_cases x z Hx Hz) as [[-> [s ->]]|(s & p & -> & Hp & ->)];
    [done|].
  destruct (canonical_value s p Hp) as (m & e & -> & He & _ & Hm).
  unfold to_Z. rewrite Hm.
  assert (0 < 2 ^ (- e)) by (apply Z.pow_pos_nonneg; lia).
  destruct (Z.leb_spec 0 e).
  - replace e with 0 by lia. simpl. do 2 f_equal. lia.
  - rewrite Z.mod_mul, Z.div_mul by lia. done.
Qed.

Lemma Forall2_permuted {A B} (P : A → B → Prop) (l l' : list A) :
  l ≡ₚ l' → ∀ k, Forall2 P l k → ∃ k', k ≡ₚ k' ∧ Forall2 P l' k'.
Proof.
  induction 1 as [|x l l' _ IH|x y l|l l' l'' _ IH1 _ IH2]; intros k Hk.
  - apply Forall2_nil_inv_l in Hk as ->. by exists [].
  - apply Forall2_cons_inv_l in Hk as (z & k0 & Hxz & Hk0 & ->).
    destruct (IH _ Hk0) as (k' & Hperm & Hk').
    exists (z :: k'). split; [by constructor|by constructor].
  - apply Forall2_cons_inv_l in Hk as (z & k0 & Hyz & Hk0 & ->).
    apply Forall2_cons_inv_l in Hk0 as (w & k1 & Hxw & Hk1 & ->).
    exists (w :: z :: k1). split; [apply Permutation_swap|by repeat constructor].
  - destruct (IH1 _ Hk) as (k' & Hperm & Hk').
    destruct (IH2 _ Hk') as (k'' & Hperm' & Hk'').
    exists k''. split; [by etrans|done].
Qed.

Lemma magnitude_Permutation zs ws : zs ≡ₚ ws → magnitude zs = magnitude ws.
Proof.
  induction 1 as [|x l k _ IH|x y l|l k j _ IH1 _ IH2]; simpl; lia.
Qed.

Lemma magnitude_cons z zs : magnitude (z :: zs) = Z.abs z + magnitude zs.
Proof. done. Qed.

Lemma total_amount_cons t txs :
  total_amount (t :: txs) = tx_amount t + total_amount txs.
Proof. done. Qed.

Lemma total_amount_represented ftxs dtxs :
  Forall2 transaction_represents ftxs dtxs →
  ∀ acc a,
    represents acc a →
    Z.abs a + magnitude (tx_amount <$> dtxs) < 2 ^ 53 →
    represents
      (foldl (λ sum t, num_add sum (Binary64.tx_amount t)) acc ftxs)
      (a + total_amount dtxs)
    ∧ Z.abs (a + total_amount dtxs) ≤ Z.abs a + magnitude (tx_amount <$> dtxs).
Proof.
  induction 1 as [|f d ftxs dtxs (_ & Hamount & _) _ IH];
    intros acc a Hacc Hsafe.
  - simpl. rewrite Z.add_0_r. split; [done|lia].
  - rewrite fmap_cons, magnitude_cons in *. rewrite total_amount_cons.
    pose proof (magnitude_nonneg (tx_amount <$> dtxs)).
    destruct (IH (num_add acc (Binary64.tx_amount f)) (a + tx_amount d))
      as [Hsum Hbound].
    + apply add_exact; unfold safe; (done || lia).
    + lia.
    + rewrite Z.add_assoc. split; [done|lia].
Qed.

Lemma exact_total_represented ftxs dtxs :
  Forall2 transaction_represents ftxs dtxs →
  magnitude (tx_amount <$> dtxs) < 2 ^ 53 →
  exact_total ftxs = Some (total_amount dtxs).
Proof.
  induction 1 as [|f d ftxs dtxs (_ & Hamount & _) _ IH]; intros Hsafe;
    [done|].
  rewrite fmap_cons, magnitude_cons in Hsafe. rewrite total_amount_cons.
  pose proof (magnitude_nonneg (tx_amount <$> dtxs)).
  simpl. rewrite (to_Z_represents _ (tx_amount d)), IH; unfold safe; (done || lia).
Qed.

Lemma filter_represented m ftxs dtxs :
  Forall2 transaction_represents ftxs dtxs →
  Forall2 transaction_represents
    (filter (λ t, Binary64.tx_memberId t = m) ftxs)
    (filter (λ t, tx_memberId t = m) dtxs).
Proof.
  apply Forall2_filter. intros f d (Hm & _). by rewrite Hm.
Qed.

Lemma magnitude_filter (P : CreditTransaction → Prop) `{!∀ t, Decision (P t)} txs :
  magnitude (tx_amount <$> filter P txs) ≤ magnitude (tx_amount <$> txs).
Proof.
  induction txs as [|t txs IH]; [done|].
  rewrite filter_cons. destruct (decide (P t));
    rewrite !fmap_cons, !magnitude_cons; lia.
Qed.

Lemma current_balance_represented m F D B :
  ledger_represents F D → within B D → 0 ≤ B →
  represents (Binary64.current_balance m F) (current_balance m D)
  ∧ Z.abs (current_balance m D) ≤ B.
Proof.
  intros [Hbal _] [Hrows _] HB.
  pose proof (find_represented m _ _ Hbal) as Hfind.
  unfold Binary64.current_balance, Binary64.getCreditBalance, Binary64.balance_row,
    current_balance, getCreditBalance.
  destruct (list_find _ (Binary64.creditBalances F)) as [[i f]|];
    destruct (list_find _ (creditBalances D)) as [[j d]|] eqn:HD; try done; simpl.
  - destruct Hfind as [_ (_ & Hb & _)].
    apply list_find_Some in HD as (Hj & _ & _).
    pose proof (Forall_lookup_1 _ _ _ _ Hrows Hj) as (? & _). done.
  - split; [apply (represents_zero false)|lia].
Qed.

(** On safe integers the member's balance is the sum of the member's
    logged amounts, exactly and in whatever order they are added up. *)
Lemma balance_is_sum F D B m :
  ledger_represents F D → within B D → 0 ≤ B < 2 ^ 53 → log_reconciles D →
  (∃ b, to_Z (Binary64.current_balance m F) = Some b
        ∧ exact_total (transactions_of m F) = Some b)
  ∧ ∀ txs, txs ≡ₚ transactions_of m F →
           num_eqb (Binary64.current_balance m F) (Binary64.total_amount txs) = true.
Proof.
  intros HFD Hin HB Hlog.
  destruct (current_balance_represented m F D B HFD Hin) as [Hb Hbsafe]; [lia|].
  destruct HFD as [_ Htx]. destruct Hin as [_ Hmag].
  pose proof (filter_represented m _ _ Htx) as Hfilter.
  pose proof (magnitude_filter (λ t, tx_memberId t = m) (creditTransactions D))
    as Hmagf.
  split.
  - exists (current_balance m D). split.
    + apply to_Z_represents; [done|unfold safe; lia].
    + rewrite Hlog, sum_amounts_filter.
      apply exact_total_represented; [done|lia].
  - intros txs Hperm. symmetry in Hperm.
    destruct (Forall2_permuted _ _ _ Hperm _ Hfilter) as (dtxs & Hdperm & Hd).
    pose proof (magnitude_Permutation _ _ (fmap_Permutation tx_amount _ _ Hdperm))
      as Hmagp.
    destruct (total_amount_represented _ _ Hd (of_Z 0) 0 (represents_of_Z 0))
      as [Hsum Hbound]; [simpl; lia|].
    simpl in Hsum, Hbound.
    rewrite <- (total_amount_Permutation _ _ Hdperm), <- sum_amounts_filter,
      <- Hlog in Hsum, Hbound.
    unfold Binary64.total_amount.
    rewrite (eqb_exact _ (current_balance m D) _ (current_balance m D));
      [by apply Z.eqb_eq|done|done|unfold safe; lia..].
Qed.

Lemma binary64_deductCredits_covered now args db i b :
  Binary64.balance_row (Binary64.ded_memberId args) db = Some (i, b) →
  num_ltb (Binary64.balance b) (Binary64.ded_amount args) = false →
  Binary64.deductCredits now args db =
    (Returned {| Binary64.success := true;
                 Binary64.newBalance :=
                   num_sub (Binary64.balance b) (Binary64.ded_amount args) |},
     {| Binary64.creditBalances :=
          <[i := {| Binary64.cb_memberId := Binary64.cb_memberId b;
                    Binary64.balance :=
                      num_sub (Binary64.balance b) (Binary64.ded_amount args);
                    Binary64.lifetimeEarned := Binary64.lifetimeEarned b;
                    Binary64.lifetimeSpent :=
                      num_add (Binary64.lifetimeSpent b) (Binary64.ded_amount args);
                    Binary64.lastResetAt := Binary64.lastResetAt b;
                    Binary64.cb_updatedAt := now |}]> (Binary64.creditBalances db);
        Binary64.creditTransactions := Binary64.creditTransactions db ++
          [{| Binary64.tx_memberId := Binary64.ded_memberId args;
              Binary64.tx_amount := num_neg (Binary64.ded_amount args);
              Binary64.balanceAfter :=
                num_sub (Binary64.balance b) (Binary64.ded_amount args);
              Binary64.tx_type := usage_deduction;
              Binary64.tx_description := Binary64.ded_description args;
              Binary64.tx_subscriptionId := None;
              Binary64.tx_chatId := Binary64.ded_chatId args;
              Binary64.tx_usageRecordId := Binary64.ded_usageRecordId args;
              Binary64.tx_metadata := Binary64.ded_metadata args;
              Binary64.tx_createdAt := now |}] |}).
Proof. intros Hrow Hlt. unfold Binary64.deductCredits. by rewrite Hrow, Hlt. Qed.

Lemma binary64_deductCredits_rejected now args db :
  (∀ i b, Binary64.balance_row (Binary64.ded_memberId args) db = Some (i, b) →
          num_ltb (Binary64.balance b) (Binary64.ded_amount args) = true) →
  Binary64.deductCredits now args db = (Thrown InsufficientCredits, db).
Proof.
  intros Hrow. unfold Binary64.deductCredits.
  destruct (Binary64.balance_row _ _) as [[i b]|]; [|done].
  by rewrite (Hrow i b).
Qed.

Lemma abs_total_amount txs :
  Z.abs (total_amount txs) ≤ magnitude (tx_amount <$> txs).
Proof.
  induction txs as [|t txs IH]; [done|].
  rewrite fmap_cons, magnitude_cons, total_amount_cons. lia.
Qed.

(** ** Reconciling the log with the balance, on numbers *)

(** C4 (as stated, refuted): the balance is a rounded running total.
    After a grant of 2^53 and a grant of 1 the log holds the amounts 2^53
    and 1, whose sum is 2^53 + 1, while the balance is 2^53.  After
    grants of 0.1, 0.2 and 0.3 the balance differs from the sum of the
    logged amounts added up newest first. *)
Lemma reconcile_rounding_counterexample :
  to_Z (Binary64.current_balance alice
          (Binary64.run_ops overflow_ops Binary64.empty)) = Some (2 ^ 53)
  ∧ exact_total
      (transactions_of alice (Binary64.run_ops overflow_ops Binary64.empty))
    = Some (2 ^ 53 + 1)
  ∧ to_Z (Binary64.current_balance alice
            (Binary64.run_ops overflow_ops Binary64.empty))
    ≠ exact_total
        (transactions_of alice (Binary64.run_ops overflow_ops Binary64.empty))
  ∧ num_eqb
      (Binary64.current_balance alice
         (Binary64.run_ops fraction_grants Binary64.empty))
      (Binary64.total_amount
         (reverse
            (transactions_of alice
               (Binary64.run_ops fraction_grants Binary64.empty)))) = false.
Proof. split_and!; by vm_compute. Qed.

(** C4 (amended): for every sequence of [addCredits] and [deductCredits]
    calls on a fresh ledger whose amounts are integers with absolute
    values adding up to less than 2^53, after every call every member's
    current balance is exactly the sum of the amounts of that member's
    transactions, and is what the code's arithmetic gives when those
    amounts are added up in any order; and every transaction's
    [balanceAfter] is exactly the sum of its member's amounts up to and
    including its own.  For any amounts at all, an [addCredits] that
    returns appends one transaction with [amount = +amount], a
    [deductCredits] that returns appends one with [amount = -amount],
    each with [balanceAfter] equal to the member's balance in the
    resulting ledger. *)
Theorem transactions_reconcile_safe_integers
    (ops : list Binary64.LedgerOp) (amounts : list Z) (n : nat) :
  integer_amounts ops amounts →
  magnitude amounts < 2 ^ 53 →
  (∀ m, ∃ b,
     to_Z (Binary64.current_balance m
             (Binary64.run_ops (take n ops) Binary64.empty)) = Some b
     ∧ exact_total
         (transactions_of m (Binary64.run_ops (take n ops) Binary64.empty))
       = Some b)
  ∧ (∀ m txs,
       txs ≡ₚ transactions_of m (Binary64.run_ops (take n ops) Binary64.empty) →
       num_eqb
         (Binary64.current_balance m
            (Binary64.run_ops (take n ops) Binary64.empty))
         (Binary64.total_amount txs) = true)
  ∧ (∀ pre t post,
       Binary64.creditTransactions (Binary64.run_ops (take n ops) Binary64.empty)
         = pre ++ t :: post →
       ∃ b, to_Z (Binary64.balanceAfter t) = Some b
            ∧ exact_total
                (filter (λ t', Binary64.tx_memberId t' = Binary64.tx_memberId t)
                   (pre ++ [t])) = Some b)
  ∧ (∀ now args db r db',
       Binary64.addCredits now args db = (Returned r, db') →
       ∃ t, Binary64.creditTransactions db' = Binary64.creditTransactions db ++ [t]
            ∧ Binary64.tx_memberId t = Binary64.add_memberId args
            ∧ Binary64.tx_amount t = Binary64.add_amount args
            ∧ Binary64.balanceAfter t
              = Binary64.current_balance (Binary64.add_memberId args) db')
  ∧ (∀ now args db r db',
       Binary64.deductCredits now args db = (Returned r, db') →
       ∃ t, Binary64.creditTransactions db' = Binary64.creditTransactions db ++ [t]
            ∧ Binary64.tx_memberId t = Binary64.ded_memberId args
            ∧ Binary64.tx_amount t = num_neg (Binary64.ded_amount args)
            ∧ Binary64.balanceAfter t
              = Binary64.current_balance (Binary64.ded_memberId args) db').
Proof.
  intros Hops Hsafe.
  destruct (prefix_represented ops amounts n Hops Hsafe)
    as (D & B & HFD & Hin & HB & _ & [Hlog Hsnap]).
  set (ledger := Binary64.run_ops (take n ops) Binary64.empty) in *.
  split_and!.
  - intros m. by apply (balance_is_sum ledger D B m).
  - intros m. by apply (balance_is_sum ledger D B m).
  - intros pre t post Hsplit.
    destruct HFD as [_ Htx]. destruct Hin as [_ Hmag].
    rewrite Hsplit in Htx.
    apply Forall2_app_inv_l in Htx as (pre' & rest' & Hpre & Hrest & HD).
    apply Forall2_cons_inv_l in Hrest as (t' & post' & Ht & _ & ->).
    pose proof Ht as (Hm & _ & Hafter & _).
    pose proof (Hsnap _ _ _ HD) as Hsum.
    rewrite HD, fmap_app, magnitude_app, fmap_cons, magnitude_cons in Hmag.
    pose proof (magnitude_nonneg (tx_amount <$> post')).
    assert (magnitude (tx_amount <$> (pre' ++ [t'])) ≤ B) as Hmag'.
    { rewrite fmap_app, magnitude_app. simpl. lia. }
    pose proof (magnitude_filter (λ x, tx_memberId x = tx_memberId t')
                  (pre' ++ [t'])) as Hmagf.
    exists (balanceAfter t'). split.
    + apply to_Z_represents; [done|]. rewrite Hsum, sum_amounts_filter.
      pose proof (abs_total_amount
                    (filter (λ x, tx_memberId x = tx_memberId t') (pre' ++ [t']))).
      unfold safe. lia.
    + rewrite Hsum, sum_amounts_filter, Hm.
      apply exact_total_represented; [|lia].
      apply filter_represented, Forall2_app; [done|by constructor].
  - intros now args db r db' Hrun.
    destruct (Binary64.balance_row (Binary64.add_memberId args) db)
      as [[i b]|] eqn:Hrow.
    + rewrite (binary64_addCredits_present _ _ _ _ _ Hrow) in Hrun.
      simplify_eq.
      pose proof Hrow as (_ & Hb & _)%list_find_Some.
      eexists; split; [reflexivity|]; split_and!; [done..|]; simpl.
      unfold Binary64.current_balance, Binary64.getCreditBalance,
        Binary64.balance_row; simpl.
      unfold Binary64.balance_row in Hrow.
      by rewrite (find_insert_self _ _ _ _ _ Hrow).
    + rewrite (binary64_addCredits_absent _ _ _ Hrow) in Hrun. simplify_eq.
      eexists; split; [reflexivity|]; split_and!; [done..|]; simpl.
      unfold Binary64.current_balance, Binary64.getCreditBalance,
        Binary64.balance_row; simpl.
      unfold Binary64.balance_row in Hrow.
      by rewrite find_snoc_fresh.
  - intros now args db r db' Hrun.
    destruct (Binary64.balance_row (Binary64.ded_memberId args) db)
      as [[i b]|] eqn:Hrow.
    + destruct (num_ltb (Binary64.balance b) (Binary64.ded_amount args)) eqn:Hlt.
      * rewrite binary64_deductCredits_rejected in Hrun; [done|].
        intros i' b' Hrow'. by simplify_eq.
      * rewrite (binary64_deductCredits_covered _ _ _ _ _ Hrow Hlt) in Hrun.
        simplify_eq.
        pose proof Hrow as (_ & Hb & _)%list_find_Some.
        eexists; split; [reflexivity|]; split_and!; [done..|]; simpl.
        unfold Binary64.current_balance, Binary64.getCreditBalance,
          Binary64.balance_row; simpl.
        unfold Binary64.balance_row in Hrow.
        by rewrite (find_insert_self _ _ _ _ _ Hrow).
    + rewrite binary64_deductCredits_rejected in Hrun; [done|].
      intros i' b' Hrow'. by simplify_eq.
Qed.

Lemma transactions_reconcile_safe_integers_witness :
  integer_amounts binary64_sample_ops [150; 100; 100]
  ∧ magnitude [150; 100; 100] < 2 ^ 53
  ∧ num_eqb
      (Binary64.current_balance alice
         (Binary64.run_ops (take 3 binary64_sample_ops) Binary64.empty))
      (Binary64.total_amount
         (transactions_of alice
            (Binary64.run_ops (take 3 binary64_sample_ops) Binary64.empty)))
    = true.
Proof.
  assert (integer_amounts binary64_sample_ops [150; 100; 100]) as Hops
    by (repeat constructor).
  assert (magnitude [150; 100; 100] < 2 ^ 53) as Hsafe by reflexivity.
  split_and!; [exact Hops|exact Hsafe|].
  exact (proj1 (proj2 (transactions_reconcile_safe_integers _ _ 3 Hops Hsafe))
           alice _ (reflexivity _)).
Defined.

(** ** Allocation, on numbers *)

(** C5 (as stated, refuted): [addCredits] does not fail on a non-positive
    amount: with amount 0, and with amount -5, it returns and writes.
    Nor does it always raise the balance by a positive integer amount:
    at a balance of 2^53 a grant of 1 returns the balance 2^53. *)
Lemma addCredits_unchecked_counterexample :
  (Binary64.addCredits 1 (Binary64.grant (of_Z 0)) Binary64.empty).1
    = Returned {| Binary64.success := true; Binary64.newBalance := of_Z 0 |}
  ∧ (Binary64.addCredits 1 (Binary64.grant (of_Z (-5))) Binary64.empty).1
    = Returned {| Binary64.success := true; Binary64.newBalance := of_Z (-5) |}
  ∧ length (Binary64.creditTransactions
              (Binary64.addCredits 1 (Binary64.grant (of_Z 0)) Binary64.empty).2)
    = 1%nat
  ∧ Binary64.current_balance alice
      (Binary64.run_ops (take 1 overflow_ops) Binary64.empty) = of_Z (2 ^ 53)
  ∧ (Binary64.addCredits 2 (Binary64.grant (of_Z 1))
       (Binary64.run_ops (take 1 overflow_ops) Binary64.empty)).1
    = Returned {| Binary64.success := true; Binary64.newBalance := of_Z (2 ^ 53) |}
  ∧ to_Z (of_Z (2 ^ 53)) = Some (2 ^ 53).
Proof. split_and!; by vm_compute. Qed.

(** C5 (amended): [addCredits] never fails, whatever the amount (it
    checks neither its sign nor that it is an integer): it returns,
    creating the balance row if the member has none with
    [balance = lifetimeEarned = amount] and [lifetimeSpent = 0], and
    otherwise setting [balance] and [lifetimeEarned] of the member's row
    to the sums [balance + amount] and [lifetimeEarned + amount] as the
    code's arithmetic rounds them, leaving [lifetimeSpent]; each of these
    sums is the exact one whenever the stored total, the amount and
    their sum are integers of magnitude below 2^53.  In both cases it
    appends one transaction with [amount = +amount] and [balanceAfter]
    equal to the returned [newBalance]. *)
Theorem addCredits_never_fails
    (now : Z) (args : Binary64.AddCreditsArgs) (db : Binary64.Ledger) :
  ∃ r db' t,
    Binary64.addCredits now args db = (Returned r, db')
    ∧ Binary64.success r = true
    ∧ Binary64.creditTransactions db' = Binary64.creditTransactions db ++ [t]
    ∧ Binary64.tx_memberId t = Binary64.add_memberId args
    ∧ Binary64.tx_amount t = Binary64.add_amount args
    ∧ Binary64.balanceAfter t = Binary64.newBalance r
    ∧ Binary64.current_balance (Binary64.add_memberId args) db'
      = Binary64.newBalance r
    ∧ match Binary64.balance_row (Binary64.add_memberId args) db with
      | None =>
          Binary64.creditBalances db'
            = Binary64.creditBalances db ++ [Binary64.created_balance now args]
          ∧ Binary64.getCreditBalance (Binary64.add_memberId args) db'
            = (Binary64.add_amount args, Binary64.add_amount args, of_Z 0)
      | Some (i, b) =>
          Binary64.creditBalances db'
            = <[i := Binary64.credited_balance now args b]>
                (Binary64.creditBalances db)
          ∧ Binary64.getCreditBalance (Binary64.add_memberId args) db'
            = (num_add (Binary64.balance b) (Binary64.add_amount args),
               num_add (Binary64.lifetimeEarned b) (Binary64.add_amount args),
               Binary64.lifetimeSpent b)
          ∧ (∀ z w,
               represents (Binary64.balance b) z →
               represents (Binary64.add_amount args) w →
               safe z → safe w → safe (z + w) →
               to_Z (Binary64.newBalance r) = Some (z + w))
          ∧ (∀ z w,
               represents (Binary64.lifetimeEarned b) z →
               represents (Binary64.add_amount args) w →
               safe z → safe w → safe (z + w) →
               to_Z (Binary64.getCreditBalance
                       (Binary64.add_memberId args) db').1.2 = Some (z + w))
      end.
Proof.
  destruct (Binary64.balance_row (Binary64.add_memberId args) db)
    as [[i b]|] eqn:Hrow.
  - pose proof Hrow as (_ & Hb & _)%list_find_Some.
    rewrite (binary64_addCredits_present _ _ _ _ _ Hrow).
    do 3 eexists. split; [reflexivity|].
    unfold Binary64.current_balance, Binary64.getCreditBalance,
      Binary64.balance_row; simpl.
    unfold Binary64.balance_row in Hrow.
    rewrite (find_insert_self _ _ _ _ _ Hrow) by done. simpl.
    split_and!; try done.
    + intros z w Hz Hw Hzs Hws Hsum.
      apply to_Z_represents; [|done]. by apply add_exact.
    + intros z w Hz Hw Hzs Hws Hsum.
      apply to_Z_represents; [|done]. by apply add_exact.
  - rewrite (binary64_addCredits_absent _ _ _ Hrow).
    do 3 eexists. split; [reflexivity|].
    unfold Binary64.current_balance, Binary64.getCreditBalance,
      Binary64.balance_row; simpl.
    unfold Binary64.balance_row in Hrow.
    rewrite find_snoc_fresh by done. simpl.
    by split_and!.
Qed.

(** ** Transaction history, on numbers *)

(** X2: after any sequence of [addCredits] and [deductCredits] calls on a
    fresh ledger whose amounts are integers with absolute values adding
    up to less than 2^53, the amounts of the transactions that
    [getCreditTransactions] returns, added up in the order returned
    (newest first), give the balance that [getCreditBalance] shows,
    provided the limit is not smaller than the number of the member's
    transactions. *)
Theorem history_sums_to_balance
    (ops : list Binary64.LedgerOp) (amounts : list Z) (m : Id)
    (limit : option nat) :
  integer_amounts ops amounts →
  magnitude amounts < 2 ^ 53 →
  (length (transactions_of m (Binary64.run_ops ops Binary64.empty))
     ≤ default 50 limit)%nat →
  num_eqb
    (Binary64.getCreditBalance m (Binary64.run_ops ops Binary64.empty)).1.1
    (Binary64.total_amount
       (Binary64.getCreditTransactions m limit
          (Binary64.run_ops ops Binary64.empty))) = true.
Proof.
  intros Hops Hsafe Hlen.
  destruct (prefix_represented ops amounts (length ops) Hops Hsafe)
    as (D & B & HFD & Hin & HB & _ & [Hlog _]).
  rewrite firstn_all in HFD.
  apply (balance_is_sum _ D B m); try done.
  unfold Binary64.getCreditTransactions.
  fold (transactions_of m (Binary64.run_ops ops Binary64.empty)).
  rewrite take_ge.
  - by rewrite reverse_Permutation, index_order_Permutation.
  - by rewrite length_reverse, (index_order_Permutation _ _).
Qed.

Lemma history_sums_to_balance_witness :
  integer_amounts binary64_sample_ops [150; 100; 100]
  ∧ magnitude [150; 100; 100] < 2 ^ 53
  ∧ Binary64.total_amount
      (Binary64.getCreditTransactions alice None
         (Binary64.run_ops binary64_sample_ops Binary64.empty)) = of_Z 50
  ∧ num_eqb
      (Binary64.getCreditBalance alice
         (Binary64.run_ops binary64_sample_ops Binary64.empty)).1.1
      (Binary64.total_amount
         (Binary64.getCreditTransactions alice None
            (Binary64.run_ops binary64_sample_ops Binary64.empty))) = true.
Proof.
  assert (integer_amounts binary64_sample_ops [150; 100; 100]) as Hops
    by (repeat constructor).
  assert (magnitude [150; 100; 100] < 2 ^ 53) as Hsafe by reflexivity.
  split_and!; [exact Hops|exact Hsafe|by vm_compute|].
  refine (history_sums_to_balance _ _ alice None Hops Hsafe _).
  vm_compute. lia.
Defined.

(** ** The two models agree on safe integers *)

Lemma addCredits_outcome_represented now args z F D B :
  ledger_represents F D → within B D → 0 ≤ B →
  represents (Binary64.add_amount args) z → B + Z.abs z < 2 ^ 53 →
  ∃ r r',
    (Binary64.addCredits now args F).1 = Returned r
    ∧ (addCredits now (exact_add args z) D).1 = Returned r'
    ∧ represents (Binary64.newBalance r) (newBalance r')
    ∧ safe (newBalance r').
Proof.
  intros [Hbal _] [Hrows _] HB Hz Hsafe.
  pose proof (find_represented (Binary64.add_memberId args) _ _ Hbal) as Hfind.
  destruct (list_find _ (Binary64.creditBalances F)) as [[i f]|] eqn:HF;
    destruct (list_find _ (creditBalances D)) as [[j d]|] eqn:HD; try done.
  - destruct Hfind as [-> (_ & Hb & _)].
    pose proof HD as (Hj & _ & _)%list_find_Some.
    pose proof (Forall_lookup_1 _ _ _ _ Hrows Hj) as (Hdb & _).
    rewrite (binary64_addCredits_present _ _ _ _ _ HF).
    rewrite (addCredits_present D now (exact_add args z) j d HD).
    eexists _, _. split_and!; [done..| |]; simpl.
    + apply add_exact; unfold safe; (done || lia).
    + unfold safe. lia.
  - rewrite (binary64_addCredits_absent _ _ _ HF).
    rewrite (addCredits_absent D now (exact_add args z) HD).
    eexists _, _. split_and!; [done..|]. simpl. unfold safe. lia.
Qed.

Lemma deductCredits_outcome_represented now args z F D B :
  ledger_represents F D → within B D → 0 ≤ B →
  represents (Binary64.ded_amount args) z → B + Z.abs z < 2 ^ 53 →
  ((Binary64.deductCredits now args F).1 = Thrown InsufficientCredits
   ∧ (deductCredits now (exact_deduct args z) D).1 = Thrown InsufficientCredits)
  ∨ ∃ r r',
      (Binary64.deductCredits now args F).1 = Returned r
      ∧ (deductCredits now (exact_deduct args z) D).1 = Returned r'
      ∧ represents (Binary64.newBalance r) (newBalance r')
      ∧ safe (newBalance r').
Proof.
  intros [Hbal _] [Hrows _] HB Hz Hsafe.
  pose proof (find_represented (Binary64.ded_memberId args) _ _ Hbal) as Hfind.
  destruct (list_find _ (Binary64.creditBalances F)) as [[i f]|] eqn:HF;
    destruct (list_find _ (creditBalances D)) as [[j d]|] eqn:HD; try done.
  - destruct Hfind as [-> (_ & Hb & _)].
    pose proof HD as (Hj & _ & _)%list_find_Some.
    pose proof (Forall_lookup_1 _ _ _ _ Hrows Hj) as (Hdb & _).
    assert (num_ltb (Binary64.balance f) (Binary64.ded_amount args)
            = (balance d <? z)) as Hlt
      by (apply ltb_exact; unfold safe; (done || lia)).
    destruct (Z.ltb_spec (balance d) z) as [Hshort|Hcovered].
    + left. split.
      * rewrite binary64_deductCredits_rejected; [done|].
        intros i' b' Hrow. unfold Binary64.balance_row in Hrow. by simplify_eq.
      * by rewrite (deductCredits_short D now (exact_deduct args z) j d HD).
    + right.
      rewrite (binary64_deductCredits_covered _ _ _ _ _ HF Hlt).
      rewrite (deductCredits_covered D now (exact_deduct args z) j d HD) by done.
      eexists _, _. split_and!; [done..| |]; simpl.
      * apply sub_exact; unfold safe; (done || lia).
      * unfold safe. lia.
  - left. split.
    + rewrite binary64_deductCredits_rejected; [done|].
      intros i' b' Hrow. unfold Binary64.balance_row in Hrow. by simplify_eq.
    + by rewrite (deductCredits_absent D now (exact_deduct args z) HD).
Qed.

Lemma rows_exact fs ds B :
  Forall2 balance_represents fs ds →
  Forall (λ b, Z.abs (balance b) ≤ B ∧ Z.abs (lifetimeEarned b) ≤ B
               ∧ Z.abs (lifetimeSpent b) ≤ B) ds →
  B < 2 ^ 53 →
  Forall2 (λ f d, to_Z (Binary64.balance f) = Some (balance d)
                  ∧ to_Z (Binary64.lifetimeEarned f) = Some (lifetimeEarned d)
                  ∧ to_Z (Binary64.lifetimeSpent f) = Some (lifetimeSpent d))
    fs ds.
Proof.
  induction 1 as [|f d fs ds (_ & Hb & He & Hs) _ IH]; intros Hrows HB;
    [constructor|].
  apply Forall_cons in Hrows as [(? & ? & ?) Hrows].
  constructor; [|by apply IH].
  split_and!; apply to_Z_represents; unfold safe; (done || lia).
Qed.

(** X27: on integer amounts whose absolute values add up to less than
    2^53, the ledger the code computes on JavaScript numbers is, document
    by document, the ledger computed on integers: after every prefix of
    a run from the empty ledger each stored [balance], [lifetimeEarned],
    [lifetimeSpent], transaction [amount] and [balanceAfter] is the
    integer of the integer computation, and is what [to_Z] reads off it;
    and a further [addCredits] or [deductCredits] with an integer amount
    within the bound returns, or throws "Insufficient credits", exactly
    as on integers, with the same new balance. *)
Theorem binary64_agrees_with_integers
    (ops : list Binary64.LedgerOp) (amounts : list Z) (n : nat) :
  integer_amounts ops amounts →
  magnitude amounts < 2 ^ 53 →
  let F := Binary64.run_ops (take n ops) Binary64.empty in
  let D := run_ops (zip_with exact_op (take n ops) (take n amounts)) emptyDb in
  ledger_represents F D
  ∧ Forall2 (λ f d, to_Z (Binary64.balance f) = Some (balance d)
                    ∧ to_Z (Binary64.lifetimeEarned f) = Some (lifetimeEarned d)
                    ∧ to_Z (Binary64.lifetimeSpent f) = Some (lifetimeSpent d))
      (Binary64.creditBalances F) (creditBalances D)
  ∧ (∀ now args z,
       represents (Binary64.add_amount args) z →
       magnitude (take n amounts) + Z.abs z < 2 ^ 53 →
       ∃ r r',
         (Binary64.addCredits now args F).1 = Returned r
         ∧ (addCredits now (exact_add args z) D).1 = Returned r'
         ∧ to_Z (Binary64.newBalance r) = Some (newBalance r'))
  ∧ (∀ now args z,
       represents (Binary64.ded_amount args) z →
       magnitude (take n amounts) + Z.abs z < 2 ^ 53 →
       ((Binary64.deductCredits now args F).1 = Thrown InsufficientCredits
        ∧ (deductCredits now (exact_deduct args z) D).1
          = Thrown InsufficientCredits)
       ∨ ∃ r r',
           (Binary64.deductCredits now args F).1 = Returned r
           ∧ (deductCredits now (exact_deduct args z) D).1 = Returned r'
           ∧ to_Z (Binary64.newBalance r) = Some (newBalance r')).
Proof.
  intros Hops Hsafe. cbv zeta.
  pose proof (magnitude_take n amounts) as Htake.
  pose proof (magnitude_nonneg (take n amounts)) as Hnonneg.
  destruct empty_represented as [Hempty Hin0].
  destruct (run_ops_represented (take n ops) (take n amounts)
              (Forall2_take _ _ _ n Hops) _ _ 0 Hempty Hin0) as [HFD Hin];
    [lia..|].
  rewrite Z.add_0_l in Hin.
  split_and!; [done| | |].
  - destruct HFD as [Hbal _]. destruct Hin as [Hrows _].
    apply (rows_exact _ _ (magnitude (take n amounts))); [done..|lia].
  - intros now args z Hz Hbound.
    destruct (addCredits_outcome_represented now args z _ _ _ HFD Hin)
      as (r & r' & Hr & Hr' & Hnew & Hnews); [lia|done|done|].
    exists r, r'. split_and!; [done..|]. by apply to_Z_represents.
  - intros now args z Hz Hbound.
    destruct (deductCredits_outcome_represented now args z _ _ _ HFD Hin)
      as [[Hr Hr']|(r & r' & Hr & Hr' & Hnew & Hnews)]; [lia|done|done|by left|].
    right. exists r, r'. split_and!; [done..|]. by apply to_Z_represents.
Qed.

Lemma binary64_agrees_with_integers_witness :
  integer_amounts binary64_sample_ops [150; 100; 100]
  ∧ magnitude [150; 100; 100] < 2 ^ 53
  ∧ Forall2 (λ f d, to_Z (Binary64.balance f) = Some (balance d)
                    ∧ to_Z (Binary64.lifetimeEarned f) = Some (lifetimeEarned d)
                    ∧ to_Z (Binary64.lifetimeSpent f) = Some (lifetimeSpent d))
      (Binary64.creditBalances
         (Binary64.run_ops (take 3 binary64_sample_ops) Binary64.empty))
      (creditBalances
         (run_ops
            (zip_with exact_op (take 3 binary64_sample_ops)
               (take 3 [150; 100; 100])) emptyDb)).
Proof.
  assert (integer_amounts binary64_sample_ops [150; 100; 100]) as Hops
    by (repeat constructor).
  assert (magnitude [150; 100; 100] < 2 ^ 53) as Hsafe by reflexivity.
  split_and!; [exact Hops|exact Hsafe|].
  exact (proj1 (proj2 (binary64_agrees_with_integers _ _ 3 Hops Hsafe))).
Defined.
